(** * Verification of the structure-merging core of [screen/merge.py]

    The development embeds the functions of [src/screen/merge.py] that carry
    the merging logic ([get_overlapping_atoms_in_both], [search_dic_keys],
    [merge_structures_from_matching_atoms], [add_rca4], [merge],
    [load_enantiomers], [merge_many_structures], [merge_many_filenames],
    [add_chirality]) and proves the properties the specification states about
    them, and further properties that the code shows.

    Conventions.
    - Python integers are [Z]; atom indices are 1-based, as in the Schrödinger
      structure API the script is written against.
    - A property dictionary is an association list with unique keys, iterated in
      list order.
    - An exception is a value of [exn]; a computation that may print and raise
      lives in the monad [R] (output so far, then a value or the exception).
    - Only the [print] calls that carry a diagnostic of an error path, or the
      pattern being checked, are recorded; the other [print] calls are kept only
      in so far as evaluating their arguments can raise.
    - Structures are objects: the functions that receive the same structure
      more than once, or change one in place, work on references into a store.
    - A generator is the list of what it yields, together with the store it
      leaves; an exception raised while it runs ends the run of its consumer,
      which takes the whole sequence.  Where generators are chained without
      being run ([merge_many_filenames]), a generator is modelled for the loop
      that consumes it.
    - The toolkit itself is outside the repository: its operations on
      structures are modelled from the specification, and its pattern matching
      and superimposition are parameters ([Toolkit]), as are its chirality
      labels ([Chirality]) and the content of the files.

    The embedding comes first, then the notions used in the statements and a
    small concrete instance, then the properties. *)

From Stdlib Require Import ZArith Lia.
From stdpp Require Import base tactics option list strings gmap pretty.

Local Open Scope Z_scope.

(** ** Python values and dictionaries *)

(** Values of structure and bond properties: the [b_], [i_] and [s_] typed
    properties of a structure file. *)
Inductive Value :=
  | VBool (b : bool)
  | VInt (z : Z)
  | VStr (s : string).

#[global] Instance Value_eq_dec : EqDecision Value.
Proof. solve_decision. Defined.

(** Python truthiness: [False], [0] and the empty string are falsy. *)
Definition truthy (v : Value) : bool :=
  match v with
  | VBool b => b
  | VInt z => negb (z =? 0)
  | VStr s => negb (String.eqb s "")
  end.

(** The integer a value stands for in arithmetic and in comparisons with
    integers ([True == 1], [False == 0]); a string is no integer. *)
Definition as_int (v : Value) : option Z :=
  match v with
  | VBool b => Some (if b then 1 else 0)
  | VInt z => Some z
  | VStr _ => None
  end.

Definition dict := list (string * Value).

(** [d.get(k)] without default: the value bound to [k], if any. *)
Fixpoint dict_get (k : string) (d : dict) : option Value :=
  match d with
  | [] => None
  | (k', v) :: d' => if String.eqb k k' then Some v else dict_get k d'
  end.

(** [k in d] *)
Definition dict_contains (k : string) (d : dict) : bool :=
  match dict_get k d with Some _ => true | None => false end.

(** [d.get(k, default)] *)
Definition dict_get_default (k : string) (dflt : Value) (d : dict) : Value :=
  match dict_get k d with Some v => v | None => dflt end.

(** [d.update({k: v})], also [d[k] = v]: rebinds [k] where it stands, or adds
    the binding. *)
Fixpoint dict_update (k : string) (v : Value) (d : dict) : dict :=
  match d with
  | [] => [(k, v)]
  | (k', v') :: d' =>
      if String.eqb k k' then (k, v) :: d' else (k', v') :: dict_update k v d'
  end.

Definition dict_keys (d : dict) : list string := d.*1.

(** ** Exceptions and output *)

Inductive exn :=
  | KeyError (k : string)
  | IndexError
  | AttributeError
  | ValueError
  | TypeError
  | UnboundLocalError
  | DanglingReference  (* a reference to no object: no Python state has one *).

(** The printed lines that the properties below refer to. *)
Inductive Msg :=
  | Checking (pattern : Value)             (* '   * CHECKING: {}' *)
  | ErrorTitles (title_1 title_2 : Value)  (* 'ERROR: {} {}' *)
  | ErrorNoRCA4 (title : Value)            (* 'ERROR! NO RCA4: {}' *)
  | LoadingOtherEnantiomer (title : Value) (* 'LOADING OTHER ENANTIOMER: {}' *).

Inductive outcome (A : Type) :=
  | Ok (a : A)
  | Raise (e : exn).
Arguments Ok {A} a.
Arguments Raise {A} e.

(** A run: what was printed, and how the run ended. *)
Definition R (A : Type) : Type := list Msg * outcome A.

Definition ret {A} (a : A) : R A := ([], Ok a).
Definition raise {A} (e : exn) : R A := ([], Raise e).
Definition print (m : Msg) : R () := ([m], Ok ()).

Definition bind {A B} (m : R A) (f : A → R B) : R B :=
  match m with
  | (out, Ok a) => let '(out', r) := f a in (out ++ out', r)
  | (out, Raise e) => (out, Raise e)
  end.

Declare Scope py_scope.
Delimit Scope py_scope with py.
Notation "x <- m ;; k" := (bind m (λ x, k))
  (at level 100, m at next level, right associativity) : py_scope.
Notation "m ;;; k" := (bind m (λ _, k))
  (at level 100, right associativity) : py_scope.
Local Open Scope py_scope.

(** [d[k]], raising [KeyError] *)
Definition getitem (k : string) (d : dict) : R Value :=
  match dict_get k d with
  | Some v => ret v
  | None => raise (KeyError k)
  end.

(** [l[i]] on a Python list with a non-negative index, raising [IndexError] *)
Definition list_item {A} (l : list A) (i : nat) : R A :=
  match l !! i with
  | Some x => ret x
  | None => raise IndexError
  end.

(** A [for] loop that threads the loop-carried variables [s]. *)
Fixpoint for_each {A S} (l : list A) (body : A → S → R S) (s : S) : R S :=
  match l with
  | [] => ret s
  | x :: l' => s' <- body x s ;; for_each l' body s'
  end.

(** A list comprehension whose element expression can raise. *)
Fixpoint comprehension {A B} (f : A → R B) (l : list A) : R (list B) :=
  match l with
  | [] => ret []
  | x :: l' => y <- f x ;; ys <- comprehension f l' ;; ret (y :: ys)
  end.

(** [l.index(x)]: the position of the first element equal to [x]. *)
Fixpoint index (x : Z) (l : list Z) : option nat :=
  match l with
  | [] => None
  | y :: l' => if decide (y = x) then Some 0%nat else S <$> index x l'
  end.

(** [sum(p(i) for i in l)] for a boolean [p] *)
Definition count (p : Z → bool) (l : list Z) : Z :=
  Z.of_nat (length (filter (λ i, p i = true) l)).

(** ** RCA4 index translation ([add_rca4], second part) *)

Section rca4_translation.
Variable num_atoms : Z.
Variables match_1 match_2 : list Z.

(** The body of [for x in rca4], for an integer [x]: the value appended to
    [new_rca4]. *)
Definition translate_index (x : Z) : R Z :=
  if decide (x ∈ match_2) then
    match index x match_2 with
    | Some i => list_item match_1 i
    | None => raise ValueError
    end
  else
    let new_match_2 := (λ x, x + num_atoms) <$> match_2 in
    let new_index := x + num_atoms in
    let atoms_in_str_2_before_this_one :=
      count (λ i, i <? new_index) new_match_2 in
    ret (new_index - atoms_in_str_2_before_this_one).

(** The same for a property value: a string is in no list of integers, and
    adding an integer to it raises [TypeError]. *)
Definition translate_value (v : Value) : R Z :=
  match as_int v with
  | Some x => translate_index x
  | None => raise TypeError
  end.

(** [for rca4 in rca4s: new_rca4 = []; for x in rca4: new_rca4.append(..);
    new_rca4s.append(new_rca4)] *)
Definition translate_rca4 (rca4 : list Value) : R (list Z) :=
  for_each rca4 (λ x new_rca4, y <- translate_value x ;; ret (new_rca4 ++ [y])) [].

Definition translate_rca4s (rca4s : list (list Value)) : R (list (list Z)) :=
  for_each rca4s
    (λ rca4 new_rca4s, new_rca4 <- translate_rca4 rca4 ;; ret (new_rca4s ++ [new_rca4]))
    [].
End rca4_translation.

(** ** Structures

    The script works on structure objects of the Schrödinger toolkit, which is
    not part of the repository.  The data model below follows section 3 of the
    specification: an ordered sequence of atoms with 1-based indices, bonds
    between two atom indices with an order and annotations, and structure-level
    annotations.  Coordinates are kept abstract. *)

Record Bond := {
  atom1 : Z;
  atom2 : Z;
  order : Z;
  bproperty : dict  (* [bond.property] *)
}.

Section structures.
Context {coord : Type}.

Record Atom := {
  atom_type_name : string;
  xyz : coord * coord * coord
}.

Record Structure := {
  atom : list Atom;
  bond : list Bond;
  property : dict
}.

(** [len(st.atom)] *)
Definition len_atom (st : Structure) : Z := Z.of_nat (length (atom st)).

(** [st.atom[x]]: an atom of a structure is referred to by its index; the
    container raises [IndexError] outside [1..len(st.atom)]. *)
Definition atom_item (st : Structure) (x : Z) : R Z :=
  if bool_decide (1 ≤ x ≤ len_atom st) then ret x else raise IndexError.

Definition shift_bond (n : Z) (b : Bond) : Bond :=
  {| atom1 := atom1 b + n; atom2 := atom2 b + n;
     order := order b; bproperty := bproperty b |}.

(** Modelled from the spec: [Structure.merge(other, copy_props=True)] of the
    toolkit (section 4.5, step 1): the disjoint union, the atoms of the second
    structure after those of the first and its indices offset by the atom count
    of the first; structure-level annotations of both, the first taking
    precedence. *)
Definition structure_merge (st other : Structure) : Structure :=
  {| atom := atom st ++ atom other;
     bond := bond st ++ (shift_bond (len_atom st) <$> bond other);
     property :=
       foldl (λ d kv, if dict_contains kv.1 d then d else dict_update kv.1 kv.2 d)
             (property st) (property other) |}.

(** Whether a bond joins atoms [a] and [b], in either direction. *)
Definition joins (a b : Z) (bd : Bond) : bool :=
  ((atom1 bd =? a) && (atom2 bd =? b)) || ((atom1 bd =? b) && (atom2 bd =? a)).

Fixpoint find_bond (a b : Z) (l : list Bond) : option nat :=
  match l with
  | [] => None
  | bd :: l' => if joins a b bd then Some 0%nat else S <$> find_bond a b l'
  end.

(** Modelled from the spec: [st.getBond(a, b)] of the toolkit ("locate the
    bond"): the bond between the two atoms, referred to by its position in the
    bond table, or [None]. *)
Definition getBond (st : Structure) (a b : Z) : option nat :=
  find_bond a b (bond st).

(** Modelled from the spec: [atom.bond] of the toolkit: the bonds attached to
    atom [a], each seen from [a] (its [atom1] is [a], its [atom2] the other
    end). *)
Definition bonds_of (st : Structure) (a : Z) : list nat :=
  (filter (λ pb, (atom1 pb.2 =? a) || (atom2 pb.2 =? a) = true)
          (imap (λ p bd, (p, bd)) (bond st))).*1.

(** The other end of bond [bd] seen from atom [a]. *)
Definition other_end (a : Z) (bd : Bond) : Z :=
  if atom1 bd =? a then atom2 bd else atom1 bd.

(** Modelled from the spec: [atom.addBond(b, order)] of the toolkit ("create a
    new bond with the same bond order"): a new bond without annotations at the
    end of the bond table; on a pair that is bonded already, the order of that
    bond is set. *)
Definition addBond (st : Structure) (a b : Z) (o : Z) : Structure :=
  match getBond st a b with
  | Some p =>
      {| atom := atom st;
         bond := alter (λ bd, {| atom1 := atom1 bd; atom2 := atom2 bd;
                                order := o; bproperty := bproperty bd |}) p (bond st);
         property := property st |}
  | None =>
      {| atom := atom st;
         bond := bond st ++ [{| atom1 := a; atom2 := b; order := o; bproperty := [] |}];
         property := property st |}
  end.

(** Assignment to [bond.property] of the bond at position [p]. *)
Definition set_bproperty (st : Structure) (p : nat) (d : dict) : Structure :=
  {| atom := atom st;
     bond := alter (λ bd, {| atom1 := atom1 bd; atom2 := atom2 bd;
                            order := order bd; bproperty := d |}) p (bond st);
     property := property st |}.

(** Assignment to [st.property]. *)
Definition set_property (st : Structure) (d : dict) : Structure :=
  {| atom := atom st; bond := bond st; property := d |}.

(** The atoms that survive the deletion of the indices [del], the first of the
    list having index [i]. *)
Fixpoint delete_from (del : list Z) (i : Z) (l : list Atom) : list Atom :=
  match l with
  | [] => []
  | a :: l' =>
      if decide (i ∈ del) then delete_from del (i + 1) l'
      else a :: delete_from del (i + 1) l'
  end.

(** The index an atom that survives has after the deletion. *)
Definition renumber (del : list Z) (i : Z) : Z :=
  i - count (λ j, j <? i) (remove_dups del).

(** Modelled from the spec: [st.deleteAtoms(atoms)] of the toolkit (section
    4.5, step 4): the atoms are removed together with the bonds attached to
    them, and the remaining atoms are renumbered contiguously. *)
Definition deleteAtoms (st : Structure) (del : list Z) : Structure :=
  {| atom := delete_from del 1 (atom st);
     bond :=
       (λ bd, {| atom1 := renumber del (atom1 bd); atom2 := renumber del (atom2 bd);
                 order := order bd; bproperty := bproperty bd |})
       <$> filter (λ bd, (atom1 bd ∉ del) ∧ (atom2 bd ∉ del)) (bond st);
     property := property st |}.

(** ** Merging two superimposed structures *)

(** The body of [for k, v in merge_bond.property.iteritems()]: [target] is
    the variable [bond], the result of [getBond], so it may be [None], and then
    [bond.property] raises [AttributeError]. *)
Definition copy_property (target : option nat) (kv : string * Value)
    (merge : Structure) : R Structure :=
  let '(k, v) := kv in
  match target with
  | None => raise AttributeError
  | Some p =>
      match bond merge !! p with
      | None => raise AttributeError
      | Some bd =>
          if negb (dict_contains k (bproperty bd))
             || negb (truthy (dict_get_default k (VBool false) (bproperty bd)))
          then ret (set_bproperty merge p (dict_update k v (bproperty bd)))
          else ret merge
      end
  end.

(** [common_atoms_1[common_atoms_2.index(a)]] *)
Definition counterpart (common_atoms_1 common_atoms_2 : list Z) (a : Z) : R Z :=
  match index a common_atoms_2 with
  | Some i => list_item common_atoms_1 i
  | None => raise ValueError
  end.

(** The body of [for merge_bond in common_atom_2.bond]: [p] is the position of
    [merge_bond] in the bond table and [common_atom_2] the atom it is seen
    from. *)
Definition reconcile_bond (common_atoms_1 common_atoms_2 : list Z)
    (common_atom_2 : Z) (p : nat) (merge : Structure) : R Structure :=
  match bond merge !! p with
  | None => raise IndexError
  | Some merge_bond =>
      let merge_bond_atom2 := other_end common_atom_2 merge_bond in
      atom1 <- counterpart common_atoms_1 common_atoms_2 common_atom_2 ;;
      if bool_decide (merge_bond_atom2 ∈ common_atoms_2) then
        atom2 <- counterpart common_atoms_1 common_atoms_2 merge_bond_atom2 ;;
        let target := getBond merge atom1 atom2 in
        for_each (bproperty merge_bond) (copy_property target) merge
      else
        let atom2 := merge_bond_atom2 in
        let merge := addBond merge atom1 atom2 (order merge_bond) in
        let target := getBond merge atom1 atom2 in
        for_each (bproperty merge_bond) (copy_property target) merge
  end.

(** The loop [for i, (common_atom_1, common_atom_2) in enumerate(izip(..))].
    The bonds of a common atom are listed when its iteration starts. *)
Definition reconcile_bonds (common_atoms_1 common_atoms_2 : list Z)
    (merge : Structure) : R Structure :=
  for_each (zip common_atoms_1 common_atoms_2)
    (λ '(common_atom_1, common_atom_2) merge,
       for_each (bonds_of merge common_atom_2)
         (reconcile_bond common_atoms_1 common_atoms_2 common_atom_2) merge)
    merge.

(** ** RCA4 annotations of the merged structure ([add_rca4]) *)

(** [try: m except <exceptions caught>: handler] *)
Definition try_except {A} (m : R A) (caught : exn → bool) (handler : exn → R A) : R A :=
  match m with
  | (out, Raise e) =>
      if caught e then let '(out', r) := handler e in (out ++ out', r)
      else (out, Raise e)
  | r => r
  end.

Definition is_KeyError (e : exn) : bool :=
  match e with KeyError _ => true | _ => false end.

Definition is_UnboundLocalError (e : exn) : bool :=
  match e with UnboundLocalError => true | _ => false end.

(** The first loop of [add_rca4], [for bond in struct_2.bond]. *)
Definition collect_rca4 (struct_2 : Structure) (bond : Bond)
    (rca4s : list (list Value)) : R (list (list Value)) :=
  try_except
    (getitem "i_cs_rca4_1" (bproperty bond) ;;;
     getitem "i_cs_rca4_1" (bproperty bond) ;;;
     ret ())
    is_KeyError
    (λ e, title <- getitem "s_m_title" (property struct_2) ;;
          print (ErrorNoRCA4 title) ;;;
          raise e) ;;;
  rca4_1 <- getitem "i_cs_rca4_1" (bproperty bond) ;;
  if truthy rca4_1 then
    rca4_1 <- getitem "i_cs_rca4_1" (bproperty bond) ;;
    rca4_2 <- getitem "i_cs_rca4_2" (bproperty bond) ;;
    let rca4 := [rca4_1; VInt (atom1 bond); VInt (atom2 bond); rca4_2] in
    ret (rca4s ++ [rca4])
  else ret rca4s.

(** The last loop of [add_rca4], [for rca4 in new_rca4s]; the two [print]
    calls read the annotations of the bond and look the referenced atoms up. *)
Definition update_rca4 (rca4 : list Z) (merge : Structure) : R Structure :=
  a1 <- list_item rca4 1 ;;
  a2 <- list_item rca4 2 ;;
  match getBond merge a1 a2 with
  | None => raise AttributeError
  | Some p =>
      match bond merge !! p with
      | None => raise AttributeError
      | Some bd =>
          getitem "i_cs_rca4_1" (bproperty bd) ;;;
          getitem "i_cs_rca4_2" (bproperty bd) ;;;
          r1 <- list_item rca4 0 ;;
          let d := dict_update "i_cs_rca4_1" (VInt r1) (bproperty bd) in
          r2 <- list_item rca4 3 ;;
          let d := dict_update "i_cs_rca4_2" (VInt r2) d in
          let merge := set_bproperty merge p d in
          atom_item merge r1 ;;;
          atom_item merge r2 ;;;
          ret merge
      end
  end.

Definition add_rca4 (merge struct_1 : Structure) (match_1 : list Z)
    (struct_2 : Structure) (match_2 : list Z) : R Structure :=
  rca4s <- for_each (bond struct_2) (collect_rca4 struct_2) [] ;;
  let num_atoms := len_atom struct_1 in
  new_rca4s <- translate_rca4s num_atoms match_1 match_2 rca4s ;;
  for_each new_rca4s update_rca4 merge.

(** [a + b] on property values: concatenation of strings, addition of
    integers. *)
Definition py_add (a b : Value) : R Value :=
  match a, b with
  | VStr s, VStr t => ret (VStr (s +:+ t))
  | VStr _, _ | _, VStr _ => raise TypeError
  | _, _ =>
      match as_int a, as_int b with
      | Some x, Some y => ret (VInt (x + y))
      | _, _ => raise TypeError
      end
  end.

(** [d[k] += '_' + v] *)
Definition append_suffix (k : string) (v : R Value) (d : dict) : R dict :=
  old <- getitem k d ;;
  v <- v ;;
  suffix <- py_add (VStr "_") v ;;
  new <- py_add old suffix ;;
  ret (dict_update k new d).

Definition merge_structures_from_matching_atoms (struct_1 : Structure)
    (match_1 : list Z) (struct_2 : Structure) (match_2 : list Z) : R Structure :=
  let merge := structure_merge struct_1 struct_2 in
  let num_atoms := len_atom struct_1 in
  let common_atoms_2 := (λ x, x + num_atoms) <$> match_2 in
  common_atoms_2 <- comprehension (atom_item merge) common_atoms_2 ;;
  common_atoms_1 <- comprehension (atom_item merge) match_1 ;;
  merge <- reconcile_bonds common_atoms_1 common_atoms_2 merge ;;
  let merge := deleteAtoms merge common_atoms_2 in
  merge <- add_rca4 merge struct_1 match_1 struct_2 match_2 ;;
  d <- append_suffix "s_m_title" (getitem "s_m_title" (property struct_2))
         (property merge) ;;
  let merge := set_property merge d in
  d <- append_suffix "s_m_entry_name" (getitem "s_m_entry_name" (property struct_2))
         (property merge) ;;
  let merge := set_property merge d in
  ret merge.
End structures.

(** ** The toolkit services: pattern matching, superimposition, coordinates

    These are the services the script calls in the toolkit
    ([analyze.evaluate_substructure], [analyze.evaluate_smarts],
    [rmsd.superimpose]) and the negation of a coordinate.  They are an
    interface of total functions here: every statement below holds for all
    implementations. *)

Class Toolkit (coord : Type) := {
  (** [analyze.evaluate_substructure(structure, pattern, first_match_only=..)] *)
  evaluate_substructure : @Structure coord → Value → Value → list (list Z);
  (** [analyze.evaluate_smarts(structure, pattern, unique_sets=..)] *)
  evaluate_smarts : @Structure coord → Value → Value → list (list Z);
  (** [rmsd.superimpose(st1, atoms1, st2, atoms2)]: the coordinates it gives to
      the atoms of [st2] *)
  superimpose :
    @Structure coord → list Z → @Structure coord → list Z → list (coord * coord * coord);
  (** [-c] *)
  neg : coord → coord
}.

Section pipeline.
Context {coord : Type} {tk : Toolkit coord}.
#[local] Abbreviation Structure := (@Structure coord).

(** [lookup in key] on strings *)
Fixpoint contains (lookup key : string) : bool :=
  String.prefix lookup key ||
  match key with
  | EmptyString => false
  | String _ key' => contains lookup key'
  end.

(** The generator [search_dic_keys], as the list it yields. *)
Definition search_dic_keys (dic : dict) (lookup : string) : list Value :=
  (filter (λ kv, contains lookup kv.1 = true) dic).*2.

Definition get_atom_numbers_from_structure_with_pattern (structure : Structure)
    (pattern : Value) (first_match_only use_substructure : Value) : list (list Z) :=
  if truthy use_substructure then
    evaluate_substructure structure pattern first_match_only
  else
    evaluate_smarts structure pattern first_match_only.

(** The truth value of a list: whether it has an element. *)
Definition nonempty {A} (l : list A) : bool :=
  match l with [] => false | _ => true end.

(** A local variable that may not have been assigned yet. *)
Definition read_local {A} (v : option A) : R A :=
  match v with
  | Some x => ret x
  | None => raise UnboundLocalError
  end.

(** The loop [for pattern in patterns] of [get_overlapping_atoms_in_both];
    it carries the local variables [match_struct_1] and [match_struct_2]. *)
Fixpoint check_patterns (struct_1 struct_2 : Structure) (patterns : list Value)
    (locals : option (list (list Z)) * option (list (list Z)))
    : R (option (list (list Z)) * option (list (list Z))) :=
  match patterns with
  | [] => ret locals
  | pattern :: patterns' =>
      print (Checking pattern) ;;;
      let match_struct_1 :=
        get_atom_numbers_from_structure_with_pattern struct_1 pattern
          (dict_get_default "b_cs_first_match_only" (VBool false) (property struct_1))
          (dict_get_default "b_cs_use_substructure" (VBool false) (property struct_1)) in
      if nonempty match_struct_1 then
        let match_struct_2 :=
          get_atom_numbers_from_structure_with_pattern struct_2 pattern
            (dict_get_default "b_cs_first_match_only" (VBool false) (property struct_2))
            (dict_get_default "b_cs_use_substructure" (VBool false) (property struct_2)) in
        (* break *)
        ret (Some match_struct_1, Some match_struct_2)
      else
        (* continue *)
        check_patterns struct_1 struct_2 patterns' (Some match_struct_1, locals.2)
  end.

Definition get_overlapping_atoms_in_both (struct_1 struct_2 : Structure)
    : R (list (list Z) * list (list Z)) :=
  let patterns := search_dic_keys (property struct_2) "pattern" in
  locals <- check_patterns struct_1 struct_2 patterns (None, None) ;;
  try_except
    (read_local locals.1 ;;; read_local locals.2 ;;; ret ())
    is_UnboundLocalError
    (λ e, title_1 <- getitem "s_m_title" (property struct_1) ;;
          title_2 <- getitem "s_m_title" (property struct_2) ;;
          print (ErrorTitles title_1 title_2) ;;;
          raise e) ;;;
  match_struct_1 <- read_local locals.1 ;;
  match_struct_2 <- read_local locals.2 ;;
  ret (match_struct_1, match_struct_2).

(** ** The store of structure objects

    Structures are mutable objects that several lists can hold at once, so the
    driver functions work on references into a store. *)

#[local] Abbreviation ref := nat.
#[local] Abbreviation store := (list Structure).

Definition deref (h : store) (r : ref) : R Structure :=
  match h !! r with
  | Some st => ret st
  | None => raise DanglingReference
  end.

(** Writing coordinates to the atoms of a structure, in atom order. *)
Definition setXYZ (st : Structure) (xyzs : list (coord * coord * coord)) : Structure :=
  {| atom :=
       imap (λ i a, {| atom_type_name := atom_type_name a;
                       xyz := default (xyz a) (xyzs !! i) |}) (atom st);
     bond := bond st;
     property := property st |}.

(** [rmsd.superimpose(struct_1, match_1, struct_2, match_2)]: the object
    [struct_2] gets the superimposed coordinates. *)
Definition do_superimpose (struct_1 : ref) (match_1 : list Z) (struct_2 : ref)
    (match_2 : list Z) (h : store) : R store :=
  st_1 <- deref h struct_1 ;;
  st_2 <- deref h struct_2 ;;
  ret (<[struct_2 := setXYZ st_2 (superimpose st_1 match_1 st_2 match_2)]> h).

(** The body of the inner loop of [merge]; [out] collects the references of
    the structures yielded so far. *)
Definition merge_pair (struct_1 struct_2 : ref) (match_1 match_2 : list Z)
    (state : list ref * store) : R (list ref * store) :=
  let '(out, h) := state in
  st_1 <- deref h struct_1 ;;
  comprehension (atom_item st_1) match_1 ;;;
  st_2 <- deref h struct_2 ;;
  comprehension (atom_item st_2) match_2 ;;;
  h <- do_superimpose struct_1 match_1 struct_2 match_2 h ;;
  st_1 <- deref h struct_1 ;;
  st_2 <- deref h struct_2 ;;
  merged <- merge_structures_from_matching_atoms st_1 match_1 st_2 match_2 ;;
  ret (out ++ [length h], h ++ [merged]).

(** The generator [merge], as the list of the structures it yields and the
    store it leaves. *)
Definition merge (struct_1 struct_2 : ref) (h : store) : R (list ref * store) :=
  st_1 <- deref h struct_1 ;;
  st_2 <- deref h struct_2 ;;
  matches <- get_overlapping_atoms_in_both st_1 st_2 ;;
  let '(match_1s, match_2s) := matches in
  for_each match_1s
    (λ match_1, for_each match_2s (merge_pair struct_1 struct_2 match_1))
    ([], h).

(** [for coords in other_enantiomer.getXYZ(copy=False): coords[0] = -coords[0]] *)
Definition invert_x (st : Structure) : Structure :=
  {| atom :=
       (λ a, {| atom_type_name := atom_type_name a;
                xyz := (neg (xyz a).1.1, (xyz a).1.2, (xyz a).2) |}) <$> atom st;
     bond := bond st;
     property := property st |}.

(** The generator [load_enantiomers], as the list of the structures it yields
    and the store it leaves; [copy.deepcopy] makes a new object. *)
Definition load_enantiomers (structure : ref) (h : store) : R (list ref * store) :=
  st <- deref h structure ;;
  if truthy (dict_get_default "b_cs_both_enantiomers" (VBool false) (property st)) then
    title <- getitem "s_m_title" (property st) ;;
    print (LoadingOtherEnantiomer title) ;;;
    let other_enantiomer := length h in
    let h := h ++ [st] in
    st' <- deref h other_enantiomer ;;
    let h := <[other_enantiomer := invert_x st']> h in
    ret ([structure; other_enantiomer], h)
  else
    ret ([structure], h).

(** The generator [merge_many_structures], likewise. *)
Definition merge_many_structures (structures_1 structures_2 : list ref) (h : store)
    : R (list ref * store) :=
  for_each structures_1
    (λ structure_1,
       for_each structures_2
         (λ structure_2 '(out, h),
            r <- merge structure_1 structure_2 h ;;
            ret (out ++ r.1, r.2)))
    ([], h).
End pipeline.

(** ** Generators that are consumed lazily, and the files

    [merge_many_filenames] chains the generators of [merge_many_structures]
    without running them: the structures of a stage are merged one at a time,
    when the next stage asks for them.  A generator is therefore modelled here
    for the loop that consumes it: it takes the body of that loop, which it
    runs at each [yield] on the variables the loop carries and on the store.
    The files are outside the repository: what reading a file gives is a
    parameter. *)

Section files.
Context {coord : Type} {tk : Toolkit coord}.
#[local] Abbreviation Structure := (@Structure coord).
#[local] Abbreviation ref := nat.
#[local] Abbreviation store := (list Structure).

(** An iterable of structures for a [for] loop whose body, run on each
    structure, carries variables of type [C] and the store. *)
Definition iterable (C : Type) : Type :=
  (ref → C * store → R (C * store)) → C * store → R (C * store).

(** A list as an iterable. *)
Definition iter {C} (l : list ref) : iterable C :=
  λ body state, for_each l body state.

(** The generator [merge], for the loop that consumes it. *)
Definition merge_generator {C} (struct_1 struct_2 : ref) : iterable C :=
  λ yield '(c, h),
    st_1 <- deref h struct_1 ;;
    st_2 <- deref h struct_2 ;;
    matches <- get_overlapping_atoms_in_both st_1 st_2 ;;
    let '(match_1s, match_2s) := matches in
    for_each match_1s
      (λ match_1,
         for_each match_2s
           (λ match_2 '(c, h),
              st_1 <- deref h struct_1 ;;
              comprehension (atom_item st_1) match_1 ;;;
              st_2 <- deref h struct_2 ;;
              comprehension (atom_item st_2) match_2 ;;;
              h <- do_superimpose struct_1 match_1 struct_2 match_2 h ;;
              st_1 <- deref h struct_1 ;;
              st_2 <- deref h struct_2 ;;
              merged <- merge_structures_from_matching_atoms st_1 match_1 st_2 match_2 ;;
              yield (length h) (c, h ++ [merged])))
      (c, h).

(** The generator [merge_many_structures], for the loop that consumes it;
    [structures_1] is a list or the generator of the stage before. *)
Definition merge_many_structures_generator {C} (structures_1 : iterable C)
    (structures_2 : list ref) : iterable C :=
  λ yield state,
    structures_1
      (λ structure_1 state,
         for_each structures_2
           (λ structure_2 state, merge_generator structure_1 structure_2 yield state)
           state)
      state.

(** [list(structures)] *)
Definition to_list (structures : iterable (list ref)) (h : store) : R (list ref * store) :=
  structures (λ structure '(l, h), ret (l ++ [structure], h)) ([], h).

(** [sch_struct.StructureReader(filename)], as what iterating over it gives:
    the structures of the file, and the exception that ends the reading when
    the file cannot be read to its end. *)
Variable StructureReader : string → list Structure * option exn.

(** The loop [for filename in ..] of [merge_many_filenames], which appends to
    the list [structures]; every structure read is a new object. *)
Definition read_structures (filenames : list string) (state : list ref * store)
    : R (list ref * store) :=
  for_each filenames
    (λ filename state,
       let '(sch_reader, failure) := StructureReader filename in
       state <- for_each sch_reader
                  (λ structure '(structures, h),
                     let new := length h in
                     r <- load_enantiomers new (h ++ [structure]) ;;
                     ret (structures ++ r.1, r.2))
                  state ;;
       match failure with
       | Some e => raise e
       | None => ret state
       end)
    state.

Definition merge_many_filenames (list_of_lists : list (list string)) (h : store)
    : R (list ref * store) :=
  match list_of_lists with
  | [] => raise IndexError
  | first :: rest =>
      r <- read_structures first ([], h) ;;
      r <- for_each rest
             (λ filenames '(structures, h),
                r <- read_structures filenames ([], h) ;;
                let '(new_structures, h) := r in
                ret (merge_many_structures_generator structures new_structures, h))
             (iter r.1, r.2) ;;
      to_list r.1 r.2
  end.
End files.

(** ** Chirality labels in the titles ([add_chirality]) *)

(** [analyze.get_chiral_atoms(structure)] of the toolkit: the dictionary from
    the indices of the chiral atoms to their labels, in the order in which it
    is iterated. *)
Class Chirality (coord : Type) := {
  get_chiral_atoms : @Structure coord → list (Z * string)
}.

(** [c.lower()] and [s.lower()] on byte strings: the letters [A] to [Z]
    become [a] to [z]. *)
Definition lower_ascii (c : Ascii.ascii) : Ascii.ascii :=
  let n := Ascii.N_of_ascii c in
  if ((65 <=? n) && (n <=? 90))%N then Ascii.ascii_of_N (n + 32) else c.

Fixpoint lower (s : string) : string :=
  match s with
  | EmptyString => EmptyString
  | String c s' => String (lower_ascii c) (lower s')
  end.

Section chirality.
Context {coord : Type} {ch : Chirality coord}.

(** The object [structure] is changed in place and returned. *)
Definition add_chirality (structure : nat) (h : list (@Structure coord))
    : R (nat * list (@Structure coord)) :=
  st <- deref h structure ;;
  let chirality_dic := get_chiral_atoms st in
  let string :=
    foldl (λ string '(key, value), string +:+ (pretty key +:+ lower value))
          "_" chirality_dic in
  title <- getitem "s_m_title" (property st) ;;
  title <- py_add title (VStr string) ;;
  let st := set_property st (dict_update "s_m_title" title (property st)) in
  entry_name <- getitem "s_m_entry_name" (property st) ;;
  entry_name <- py_add entry_name (VStr string) ;;
  let st := set_property st (dict_update "s_m_entry_name" entry_name (property st)) in
  ret (structure, <[structure := st]> h).
End chirality.

(** ** The translation of RCA4 indices in the words of the specification

    Section 4.6, step 2: a common index of the second structure becomes the
    corresponding index of the first; any other index [x] becomes
    [x + atom_count(struct_1)] minus the number of elements of the set
    [{m + atom_count(struct_1) for m in match_2}] that are strictly less than
    it.  [None] stands for an index expression without a value. *)
Definition spec_translate (atom_count_1 : Z) (match_1 match_2 : list Z) (x : Z)
    : option Z :=
  if decide (x ∈ match_2) then
    i ← index x match_2; match_1 !! i
  else
    let common : gset Z := list_to_set ((λ m, m + atom_count_1) <$> match_2) in
    Some (x + atom_count_1
          - Z.of_nat (size (filter (λ u, u < x + atom_count_1) common))).

(** ** Notions used in the statements

    How a run ends, whatever it printed. *)
Definition raises {A} (m : R A) : Prop := ∃ e, m.2 = Raise e.
Definition returns {A} (m : R A) (a : A) : Prop := m.2 = Ok a.

(** The test of [copy_property], on the annotations of the target. *)
Definition absent_or_falsy (k : string) (d : dict) : bool :=
  negb (dict_contains k d) || negb (truthy (dict_get_default k (VBool false) d)).

(** What the loop [for k, v in merge_bond.property.iteritems()] leaves in the
    annotations [d] of the target. *)
Definition merged_annotations (items d : dict) : dict :=
  foldl (λ d kv, if absent_or_falsy kv.1 d then dict_update kv.1 kv.2 d else d) d items.

Definition with_bproperty (bd : Bond) (d : dict) : Bond :=
  {| atom1 := atom1 bd; atom2 := atom2 bd; order := order bd; bproperty := d |}.

(** The matches of a pattern in a structure under the policies the structure
    declares: the call
    [get_atom_numbers_from_structure_with_pattern(st, pattern,
     first_match_only=st.property.get('b_cs_first_match_only', False),
     use_substructure=st.property.get('b_cs_use_substructure', False))]. *)
Definition matches_of {coord : Type} {tk : Toolkit coord} (st : @Structure coord)
    (pattern : Value) : list (list Z) :=
  get_atom_numbers_from_structure_with_pattern st pattern
    (dict_get_default "b_cs_first_match_only" (VBool false) (property st))
    (dict_get_default "b_cs_use_substructure" (VBool false) (property st)).

(** Two structures with the same graph: the same atoms up to their
    coordinates, the same bonds and the same annotations. *)
Definition same_graph {coord : Type} (st st' : @Structure coord) : Prop :=
  atom_type_name <$> atom st = atom_type_name <$> atom st'
  ∧ bond st = bond st'
  ∧ property st = property st'.

(** What [merge] does for one pair of matches, on the structures themselves:
    the second structure is superimposed, then the two are merged. *)
Definition pair_merge {coord : Type} {tk : Toolkit coord} (st1 st2 : @Structure coord)
    (match_1 match_2 : list Z) : R (@Structure coord) :=
  merge_structures_from_matching_atoms st1 match_1
    (setXYZ st2 (superimpose st1 match_1 st2 match_2)) match_2.

(** What a run of the loops of [merge] keeps true of the yielded references
    [out] and the store, started with no reference on the store [h]. *)
Definition merge_invariant {coord : Type} (r2 : nat) (h : list (@Structure coord))
    (state : list nat * list (@Structure coord)) : Prop :=
  let '(out, h') := state in
  out = seq (length h) (length out)
  ∧ length h' = (length h + length out)%nat
  ∧ (∀ r st, r ≠ r2 → h !! r = Some st → h' !! r = Some st)
  ∧ (∀ st, h !! r2 = Some st → ∃ st', h' !! r2 = Some st' ∧ same_graph st st').

(** The data model of section 3: the two ends of a bond belong to the
    structure, and a match names atoms of its structure. *)
Definition well_formed {coord : Type} (st : @Structure coord) : Prop :=
  Forall (λ bd, 1 ≤ atom1 bd ≤ len_atom st ∧ 1 ≤ atom2 bd ≤ len_atom st) (bond st).

Definition valid_match {coord : Type} (st : @Structure coord) (m : list Z) : Prop :=
  Forall (λ x, 1 ≤ x ≤ len_atom st) m.

(** A bond of the working structure of a merge against the bond of the union
    at the same place: the same ends, and annotations are not lost. *)
Definition same_ends (b0 bc : Bond) : Prop :=
  atom1 bc = atom1 b0 ∧ atom2 bc = atom2 b0
  ∧ (bproperty b0 ≠ [] → bproperty bc ≠ []).

(** A bond the loop over the common atoms has added: from an atom of the first
    structure to an atom of the second that is not common. *)
Definition crosses_from {coord : Type} (struct_1 : @Structure coord) (match_2 : list Z)
    (bc : Bond) : Prop :=
  atom1 bc ≤ len_atom struct_1 ∧ len_atom struct_1 < atom2 bc
  ∧ atom2 bc ∉ (λ x, x + len_atom struct_1) <$> match_2.

(** The invariant of the loop over the common atoms: the bonds of the union
    keep their place and their ends, and the bonds after them were added by
    the loop. *)
Definition reconciling_from {coord : Type} (struct_1 struct_2 : @Structure coord)
    (match_2 : list Z) (merge : @Structure coord) : Prop :=
  let union := bond (structure_merge struct_1 struct_2) in
  (∀ p b0, union !! p = Some b0 → ∃ bc, bond merge !! p = Some bc ∧ same_ends b0 bc)
  ∧ (∀ p bc, bond merge !! p = Some bc → (length union ≤ p)%nat →
       crosses_from struct_1 match_2 bc).

(** The atom of a structure at a 1-based index. *)
Definition atom_at {coord : Type} (st : @Structure coord) (x : Z) : option (@Atom coord) :=
  if decide (1 ≤ x) then atom st !! Z.to_nat (x - 1) else None.

(** The ends and the order of a bond: what is left of it without its
    annotations. *)
Definition skeleton (bd : Bond) : Z * Z * Z := (atom1 bd, atom2 bd, order bd).

(** The bonds of the union keep their place, their ends and their order. *)
Definition union_kept {coord : Type} (struct_1 struct_2 merge : @Structure coord) : Prop :=
  ∀ p b0, bond (structure_merge struct_1 struct_2) !! p = Some b0 →
    ∃ bc, bond merge !! p = Some bc ∧ skeleton bc = skeleton b0.

(** Every bond keeps its place and its ends. *)
Definition ends_kept {coord : Type} (m m' : @Structure coord) : Prop :=
  ∀ q bd, bond m !! q = Some bd →
    ∃ bd', bond m' !! q = Some bd' ∧ atom1 bd' = atom1 bd ∧ atom2 bd' = atom2 bd.

(** Some bond of the structure joins the two atoms. *)
Definition has_bond {coord : Type} (m : @Structure coord) (a b : Z) : Prop :=
  ∃ q bd, bond m !! q = Some bd ∧ joins a b bd = true.

(** The RCA4 annotation of a bond of the second structure, as [add_rca4]
    records it, and its translation: the tuple [new_rca4]. *)
Definition rca4_of (bd : Bond) (rca4 : list Value) : Prop :=
  ∃ v1 v2,
    dict_get "i_cs_rca4_1" (bproperty bd) = Some v1 ∧ truthy v1 = true
    ∧ dict_get "i_cs_rca4_2" (bproperty bd) = Some v2
    ∧ rca4 = [v1; VInt (atom1 bd); VInt (atom2 bd); v2].

Definition new_rca4_of (num_atoms : Z) (match_1 match_2 : list Z) (bd : Bond)
    (r1 a1 a2 r2 : Z) : Prop :=
  ∃ v1 v2,
    dict_get "i_cs_rca4_1" (bproperty bd) = Some v1 ∧ truthy v1 = true
    ∧ dict_get "i_cs_rca4_2" (bproperty bd) = Some v2
    ∧ translate_value num_atoms match_1 match_2 v1 = ret r1
    ∧ translate_index num_atoms match_1 match_2 (atom1 bd) = ret a1
    ∧ translate_index num_atoms match_1 match_2 (atom2 bd) = ret a2
    ∧ translate_value num_atoms match_1 match_2 v2 = ret r2.

(** A bond of the structure that [add_rca4] returns, [b'], against the bond
    at the same place of the structure it is given, [b0]: the same ends and
    order, the same annotations but for the two RCA4 ones, and either all
    annotations are the same, or the bond joins the translated ends of an
    annotated bond of the second structure and its RCA4 annotations are the
    translated ones of that bond, which name atoms of the structure. *)
Definition rca4_updated {coord : Type} (merge : @Structure coord) (bonds_2 : list Bond)
    (num_atoms : Z) (match_1 match_2 : list Z) (b0 b' : Bond) : Prop :=
  (atom1 b', atom2 b', order b') = (atom1 b0, atom2 b0, order b0)
  ∧ (∀ k, k ≠ "i_cs_rca4_1" → k ≠ "i_cs_rca4_2" →
       dict_get k (bproperty b') = dict_get k (bproperty b0))
  ∧ (bproperty b' = bproperty b0
     ∨ ∃ bd r1 a1 a2 r2,
         bd ∈ bonds_2
         ∧ new_rca4_of num_atoms match_1 match_2 bd r1 a1 a2 r2
         ∧ joins a1 a2 b' = true
         ∧ dict_get "i_cs_rca4_1" (bproperty b') = Some (VInt r1)
         ∧ dict_get "i_cs_rca4_2" (bproperty b') = Some (VInt r2)
         ∧ 1 ≤ r1 ≤ Z.of_nat (length (atom merge))
         ∧ 1 ≤ r2 ≤ Z.of_nat (length (atom merge))).

(** Whatever the loop that consumes it, an iterable changes the variables
    that the loop carries only by running the body of the loop. *)
Definition yields_only {coord : Type} (structures : @iterable coord (list nat)) : Prop :=
  ∀ (I : list nat → Prop) yield,
    (∀ x l h l' h', I l → returns (yield x (l, h)) (l', h') → I l') →
    ∀ l h l' h', I l → returns (structures yield (l, h)) (l', h') → I l'.

(** An iterable that leaves these variables as they are: it has no element,
    or does not come to the end of its run. *)
Definition yields_nothing {coord : Type} (structures : @iterable coord (list nat)) : Prop :=
  ∀ yield l h l' h', returns (structures yield (l, h)) (l', h') → l' = l.

(** A run that raises after it has printed nothing but lines of
    [load_enantiomers]: no pattern has been looked for. *)
Definition raises_while_reading {A} (m : R A) : Prop :=
  raises m ∧ Forall (λ line, ∃ title, line = LoadingOtherEnantiomer title) m.1.

(** Whatever the loop that consumes it, an iterable keeps a property of the
    store that the body of the loop keeps. *)
Definition preserves {coord : Type} (Q : list (@Structure coord) → Prop)
    (structures : @iterable coord (list nat)) : Prop :=
  ∀ yield,
    (∀ x l h l' h', Q h → returns (yield x (l, h)) (l', h') → Q h') →
    ∀ l h l' h', Q h → returns (structures yield (l, h)) (l', h') → Q h'.

(** ** A small instance of the toolkit and two fragments

    Used to run the functions on concrete data.  Coordinates are integers.  A
    pattern is an atom type and matches every atom of that type, one atom per
    match; superimposing moves the second structure rigidly so that the first
    atom of its match lands on the first atom of the match of the first
    structure, which is the best fit for matches of one atom. *)

Definition sample_matches (st : @Structure Z) (pattern : Value) : list (list Z) :=
  match pattern with
  | VStr p =>
      (λ ia, [ia.1]) <$>
        filter (λ ia, String.eqb (atom_type_name ia.2) p = true)
               (imap (λ i a, (Z.of_nat (S i), a)) (atom st))
  | _ => []
  end.

Definition sample_xyz (st : @Structure Z) (x : Z) : option (Z * Z * Z) :=
  xyz <$> atom st !! Z.to_nat (x - 1).

Definition sample_superimpose (st1 : @Structure Z) (atoms1 : list Z)
    (st2 : @Structure Z) (atoms2 : list Z) : list (Z * Z * Z) :=
  match head atoms1 ≫= sample_xyz st1, head atoms2 ≫= sample_xyz st2 with
  | Some (x1, y1, z1), Some (x2, y2, z2) =>
      (λ a, ((xyz a).1.1 + (x1 - x2), (xyz a).1.2 + (y1 - y2), (xyz a).2 + (z1 - z2)))
      <$> atom st2
  | _, _ => xyz <$> atom st2
  end.

Definition sample_toolkit : Toolkit Z :=
  {| evaluate_substructure st pattern first_match_only :=
       if truthy first_match_only then take 1 (sample_matches st pattern)
       else sample_matches st pattern;
     evaluate_smarts st pattern unique_sets := sample_matches st pattern;
     superimpose := sample_superimpose;
     neg := Z.opp |}.

Definition no_rca4 : dict := [("i_cs_rca4_1", VInt 0); ("i_cs_rca4_2", VInt 0)].

(** A metal centre with two phosphorus atoms. *)
Definition fragment_A : @Structure Z :=
  {| atom := [ {| atom_type_name := "Rh"; xyz := (0, 0, 0) |};
               {| atom_type_name := "P"; xyz := (2, 0, 0) |};
               {| atom_type_name := "P"; xyz := (-2, 0, 0) |} ];
     bond := [ {| atom1 := 1; atom2 := 2; order := 1; bproperty := no_rca4 |};
               {| atom1 := 1; atom2 := 3; order := 1; bproperty := no_rca4 |} ];
     property := [ ("s_m_title", VStr "A"); ("s_m_entry_name", VStr "a");
                   ("b_cs_both_enantiomers", VBool true) ] |}.

(** A carbon with three phosphorus atoms; the bond between atoms 1 and 2
    carries RCA4 annotations that refer to atoms 3 and 4. *)
Definition fragment_B : @Structure Z :=
  {| atom := [ {| atom_type_name := "P"; xyz := (0, 0, 5) |};
               {| atom_type_name := "C"; xyz := (1, 0, 5) |};
               {| atom_type_name := "P"; xyz := (2, 1, 5) |};
               {| atom_type_name := "P"; xyz := (2, -1, 5) |} ];
     bond := [ {| atom1 := 1; atom2 := 2; order := 1;
                  bproperty := [("i_cs_rca4_1", VInt 3); ("i_cs_rca4_2", VInt 4)] |};
               {| atom1 := 2; atom2 := 3; order := 1; bproperty := no_rca4 |};
               {| atom1 := 2; atom2 := 4; order := 2; bproperty := no_rca4 |} ];
     property := [ ("s_m_title", VStr "B"); ("s_m_entry_name", VStr "b");
                   ("s_cs_pattern", VStr "P") ] |}.

Definition sample_store : list (@Structure Z) := [fragment_A; fragment_B].

(** A fragment that declares three patterns: the first is found in neither
    [fragment_A] nor itself, the second in [fragment_A] only, the third in
    both. *)
Definition fragment_C : @Structure Z :=
  {| atom := atom fragment_B;
     bond := bond fragment_B;
     property := [ ("s_m_title", VStr "C"); ("s_m_entry_name", VStr "c");
                   ("s_cs_pattern_1", VStr "Zn"); ("s_cs_pattern_2", VStr "Rh");
                   ("s_cs_pattern_3", VStr "P") ] |}.

(** A fragment whose only pattern is found nowhere in [fragment_A]. *)
Definition fragment_D : @Structure Z :=
  {| atom := atom fragment_B;
     bond := bond fragment_B;
     property := [ ("s_m_title", VStr "D"); ("s_m_entry_name", VStr "d");
                   ("s_cs_pattern", VStr "Zn") ] |}.

(** [fragment_B] with the annotation [i_cs_rca4_2] missing from its first
    bond, and with [i_cs_rca4_1] missing from it. *)
Definition fragment_B_without_rca4_2 : @Structure Z :=
  {| atom := atom fragment_B;
     bond := [ {| atom1 := 1; atom2 := 2; order := 1;
                  bproperty := [("i_cs_rca4_1", VInt 3)] |};
               {| atom1 := 2; atom2 := 3; order := 1; bproperty := no_rca4 |};
               {| atom1 := 2; atom2 := 4; order := 2; bproperty := no_rca4 |} ];
     property := property fragment_B |}.

Definition fragment_B_without_rca4_1 : @Structure Z :=
  {| atom := atom fragment_B;
     bond := [ {| atom1 := 1; atom2 := 2; order := 1;
                  bproperty := [("i_cs_rca4_2", VInt 4)] |};
               {| atom1 := 2; atom2 := 3; order := 1; bproperty := no_rca4 |};
               {| atom1 := 2; atom2 := 4; order := 2; bproperty := no_rca4 |} ];
     property := property fragment_B |}.

(** Two bonded phosphorus atoms: matched on the two phosphorus atoms of
    [fragment_A], which are not bonded to each other. *)
Definition fragment_E : @Structure Z :=
  {| atom := [ {| atom_type_name := "P"; xyz := (2, 0, 0) |};
               {| atom_type_name := "P"; xyz := (-2, 0, 0) |} ];
     bond := [ {| atom1 := 1; atom2 := 2; order := 1; bproperty := no_rca4 |} ];
     property := [ ("s_m_title", VStr "E"); ("s_m_entry_name", VStr "e");
                   ("s_cs_pattern", VStr "P") ] |}.

(** [fragment_B] without a title, with a pattern found nowhere in
    [fragment_A]. *)
Definition fragment_untitled : @Structure Z :=
  {| atom := atom fragment_B;
     bond := bond fragment_B;
     property := [ ("s_m_entry_name", VStr "u"); ("s_cs_pattern", VStr "Zn") ] |}.

(** Three files: one structure each in [a.mae] and [b.mae], none in
    [empty.mae]; any other file gives one structure and cannot be read
    further. *)
Definition sample_reader (filename : string) : list (@Structure Z) * option exn :=
  if String.eqb filename "a.mae" then ([fragment_A], None)
  else if String.eqb filename "b.mae" then ([fragment_B], None)
  else if String.eqb filename "empty.mae" then ([], None)
  else ([fragment_A], Some ValueError).

(** The carbon atoms are the chiral ones, with the label [R]. *)
Definition sample_chirality : Chirality Z :=
  {| get_chiral_atoms st :=
       (λ ia, (ia.1, "R")) <$>
         filter (λ ia, String.eqb (atom_type_name ia.2) "C" = true)
                (imap (λ i a, (Z.of_nat (S i), a)) (atom st)) |}.

(** A structure flagged for both enantiomers that has no title. *)
Definition fragment_flagged_untitled : @Structure Z :=
  {| atom := atom fragment_B;
     bond := bond fragment_B;
     property := [ ("b_cs_both_enantiomers", VBool true) ] |}.

(** * Properties *)

(** ** The monad *)

Arguments bind : simpl never.
Arguments ret : simpl never.
Arguments raise : simpl never.

Lemma bind_ret_l {A B} (a : A) (f : A → R B) : bind (ret a) f = f a.
Proof. unfold bind, ret. by destruct (f a). Qed.

Lemma bind_ret_r {A} (m : R A) : bind m ret = m.
Proof. destruct m as [out [a|e]]; unfold bind, ret; by rewrite ?app_nil_r. Qed.

Lemma bind_assoc {A B C} (m : R A) (f : A → R B) (g : B → R C) :
  bind (bind m f) g = bind m (λ a, bind (f a) g).
Proof.
  unfold bind. destruct m as [out [a|e]]; [|done].
  destruct (f a) as [out' [b|e]]; [|done].
  destruct (g b) as [out'' r]. by rewrite app_assoc.
Qed.

Lemma bind_raise {A B} (e : exn) (f : A → R B) : bind (raise e) f = raise e.
Proof. done. Qed.

(** A run that ends in a value and prints nothing, followed by another: both
    parts end in a value and print nothing. *)
Lemma bind_eq_ret {A B} (m : R A) (f : A → R B) (b : B) :
  bind m f = ret b ↔ ∃ a, m = ret a ∧ f a = ret b.
Proof.
  unfold bind, ret. split.
  - destruct m as [out [a|e]]; [|done].
    destruct (f a) as [out' r] eqn:Hf. intros [= Hout ->].
    apply app_eq_nil in Hout as [-> ->]. eauto.
  - intros (a & -> & ->). done.
Qed.

Lemma raises_bind_l {A B} (m : R A) (f : A → R B) : raises m → raises (bind m f).
Proof. unfold raises, bind. destruct m as [out [a|e]]; intros [e' [=]]. by exists e. Qed.

Lemma returns_bind {A B} (m : R A) (f : A → R B) (b : B) :
  returns (bind m f) b ↔ ∃ a, returns m a ∧ returns (f a) b.
Proof.
  unfold returns, bind. destruct m as [out [a|e]]; simpl.
  - destruct (f a) as [out' r] eqn:Hf. simpl. split.
    + intros ->. exists a. by rewrite Hf.
    + intros (a' & [= <-] & Hr). by rewrite Hf in Hr.
  - split; [done|]. by intros (a & [=] & _).
Qed.

Lemma raises_bind {A B} (m : R A) (f : A → R B) :
  raises (bind m f) ↔ raises m ∨ ∃ a, returns m a ∧ raises (f a).
Proof.
  unfold raises, returns, bind. destruct m as [out [a|e]]; simpl.
  - destruct (f a) as [out' r] eqn:Hf. simpl. split.
    + intros [e ->]. right. exists a. rewrite Hf. eauto.
    + intros [[e [=]]|(a' & [= <-] & Hr)]. by rewrite Hf in Hr.
  - split; eauto.
Qed.

Lemma returns_or_raises {A} (m : R A) : (∃ a, returns m a) ∨ raises m.
Proof. destruct m as [out [a|e]]; [left|right]; by eexists. Qed.

Lemma bind_ext {A B} (m : R A) (f g : A → R B) :
  (∀ a, f a = g a) → bind m f = bind m g.
Proof. intros Hfg. unfold bind. destruct m as [out [a|e]]; [|done]. by rewrite Hfg. Qed.

(** ** Loops that build a list *)

Lemma for_each_append {A B} (f : A → R B) (l : list A) (acc : list B) :
  for_each l (λ x acc, y <- f x ;; ret (acc ++ [y])) acc
  = (ys <- comprehension f l ;; ret (acc ++ ys)).
Proof.
  revert acc. induction l as [|x l IH]; intros acc; simpl.
  - by rewrite bind_ret_l, app_nil_r.
  - rewrite !bind_assoc. apply bind_ext; intros y.
    rewrite bind_ret_l, IH, bind_assoc. apply bind_ext; intros ys.
    by rewrite bind_ret_l, <-app_assoc.
Qed.

Lemma comprehension_eq_ret {A B} (f : A → R B) (l : list A) (ys : list B) :
  comprehension f l = ret ys ↔ Forall2 (λ x y, f x = ret y) l ys.
Proof.
  revert ys. induction l as [|x l IH]; intros ys; simpl.
  - split.
    + intros [= <-]. constructor.
    + intros ->%Forall2_nil_inv_l. done.
  - rewrite bind_eq_ret. split.
    + intros (y & Hy & (ys' & Hys & [= <-])%bind_eq_ret).
      constructor; [done|]. by apply IH.
    + intros (y & ys' & Hy & Hys & ->)%Forall2_cons_inv_l.
      exists y. split; [done|]. apply bind_eq_ret. exists ys'.
      split; [by apply IH|done].
Qed.

(** ** Lists of indices *)

Lemma index_Some (x : Z) (l : list Z) :
  x ∈ l → ∃ i, index x l = Some i ∧ l !! i = Some x.
Proof.
  induction l as [|y l IH]; [by intros ?%elem_of_nil|].
  intros Hx. simpl. destruct (decide (y = x)) as [->|Hne].
  - by exists 0%nat.
  - apply elem_of_cons in Hx as [->|Hx]; [done|].
    destruct (IH Hx) as (i & -> & Hi). by exists (S i).
Qed.

Lemma index_None (x : Z) (l : list Z) : x ∉ l → index x l = None.
Proof.
  induction l as [|y l IH]; [done|].
  intros Hx. apply not_elem_of_cons in Hx as [Hne Hx]. simpl.
  destruct (decide (y = x)); [done|]. by rewrite IH.
Qed.

(** The number of entries of a list without repetition that satisfy a test is
    the size of the corresponding part of the set of its elements. *)
Lemma count_as_set_size (p : Z → Prop) `{!∀ u, Decision (p u)} (l : list Z) :
  NoDup l →
  length (filter p l) = size (filter p (list_to_set l : gset Z)).
Proof.
  intros Hl.
  assert (filter p (list_to_set l : gset Z) = list_to_set (filter p l)) as ->.
  { apply set_eq. intros u.
    rewrite elem_of_filter, !elem_of_list_to_set, list_elem_of_filter. done. }
  rewrite size_list_to_set; [done|]. by apply NoDup_filter.
Qed.

Lemma count_lt_as_set_size (bound : Z) (l : list Z) :
  NoDup l →
  count (λ i, i <? bound) l
  = Z.of_nat (size (filter (λ u, u < bound) (list_to_set l : gset Z))).
Proof.
  intros Hl. unfold count. f_equal.
  rewrite <-(count_as_set_size (λ u, u < bound)) by done.
  f_equal. apply list_filter_iff. intros u. apply Z.ltb_lt.
Qed.

(** ** RCA4 translation: the code against the words of the specification *)

Lemma translate_index_spec (n : Z) (m1 m2 : list Z) (x y : Z) :
  NoDup m2 →
  translate_index n m1 m2 x = ret y ↔ spec_translate n m1 m2 x = Some y.
Proof.
  intros Hm2. unfold translate_index, spec_translate.
  destruct (decide (x ∈ m2)) as [Hx|Hx].
  - destruct (index_Some x m2 Hx) as (i & -> & _). simpl.
    unfold list_item. destruct (m1 !! i) as [z|]; [|done].
    split; intros [= ->]; done.
  - assert (NoDup ((λ m, m + n) <$> m2)) as Hshift.
    { apply NoDup_fmap_2; [|done]. intros a b Hab. lia. }
    rewrite count_lt_as_set_size by done.
    split; intros [= <-]; done.
Qed.

Lemma translate_value_spec (n : Z) (m1 m2 : list Z) (v : Value) (y : Z) :
  NoDup m2 →
  translate_value n m1 m2 v = ret y
  ↔ ∃ x, as_int v = Some x ∧ spec_translate n m1 m2 x = Some y.
Proof.
  intros Hm2. unfold translate_value. destruct (as_int v) as [x|].
  - rewrite translate_index_spec by done. split; [by eauto|].
    by intros (x' & [= <-] & Hy).
  - split; [done|]. by intros (x & [=] & _).
Qed.

Lemma translate_rca4_comprehension (n : Z) (m1 m2 : list Z) (rca4 : list Value) :
  translate_rca4 n m1 m2 rca4 = comprehension (translate_value n m1 m2) rca4.
Proof.
  unfold translate_rca4. rewrite for_each_append. simpl. apply bind_ret_r.
Qed.

Lemma translate_rca4s_comprehension (n : Z) (m1 m2 : list Z) (rca4s : list (list Value)) :
  translate_rca4s n m1 m2 rca4s
  = comprehension (comprehension (translate_value n m1 m2)) rca4s.
Proof.
  unfold translate_rca4s.
  rewrite (for_each_append (translate_rca4 n m1 m2)). simpl. rewrite bind_ret_r.
  induction rca4s as [|r rs IH]; simpl; [done|].
  by rewrite translate_rca4_comprehension, IH.
Qed.

Lemma remove_dups_NoDup (l : list Z) : NoDup l → remove_dups l = l.
Proof.
  induction 1 as [|x l Hx _ IH]; [done|]. simpl.
  destruct (decide_rel elem_of x l); [done|]. by rewrite IH.
Qed.

(** X2. The translation of an index that is not common is the index the atom has
    after the deletion of the common atoms of the second structure (section
    4.5, step 5: the same index arithmetic as the deletion). *)
Lemma translate_index_renumber (n : Z) (m1 m2 : list Z) (x : Z) :
  NoDup m2 → x ∉ m2 →
  translate_index n m1 m2 x = ret (renumber ((λ m, m + n) <$> m2) (x + n)).
Proof.
  intros Hm2 Hx. unfold translate_index, renumber. rewrite decide_False by done.
  rewrite remove_dups_NoDup; [done|].
  apply NoDup_fmap_2; [|done]. intros a b Hab. lia.
Qed.

(** C1. In the RCA4 remapping of a merge with matches [match_1] and
    [match_2] (without repeated indices, as a match has none), the loop of
    [add_rca4] that rewrites the recorded tuples ends in the list
    [new_rca4s] exactly when every value of every tuple is an integer [x] and
    the entry at the same place of [new_rca4s] is its translation in the words
    of the specification: [match_1[match_2.index(x)]] when [x] is in
    [match_2], and otherwise [x + atom_count(struct_1)] minus the number of
    elements of [{m + atom_count(struct_1) for m in match_2}] strictly below
    it.  Each entry is thus a function of [x], [match_1], [match_2] and the atom
    count alone, whatever the tuples around it and their order. *)
Theorem rca4_translation_follows_spec (atom_count_1 : Z) (match_1 match_2 : list Z)
    (rca4s : list (list Value)) (new_rca4s : list (list Z)) :
  NoDup match_2 →
  translate_rca4s atom_count_1 match_1 match_2 rca4s = ret new_rca4s
  ↔ Forall2 (Forall2 (λ v y, ∃ x, as_int v = Some x
                              ∧ spec_translate atom_count_1 match_1 match_2 x = Some y))
      rca4s new_rca4s.
Proof.
  intros Hm2. rewrite translate_rca4s_comprehension, comprehension_eq_ret.
  split; intros Hall; eapply Forall2_impl; try exact Hall; simpl.
  - intros rca4 new_rca4 Hone%comprehension_eq_ret.
    eapply Forall2_impl; [exact Hone|]. intros v y. by apply translate_value_spec.
  - intros rca4 new_rca4 Hone. apply comprehension_eq_ret.
    eapply Forall2_impl; [exact Hone|]. intros v y. by apply translate_value_spec.
Qed.

(** ** Dictionaries *)

Lemma dict_get_update (k k' : string) (v : Value) (d : dict) :
  dict_get k (dict_update k' v d) = if decide (k = k') then Some v else dict_get k d.
Proof.
  induction d as [|[k0 v0] d IH]; simpl.
  - destruct (String.eqb_spec k k'), (decide (k = k')); done.
  - destruct (String.eqb_spec k' k0) as [->|Hne]; simpl.
    + destruct (String.eqb_spec k k0), (decide (k = k0)); done.
    + rewrite IH. destruct (String.eqb_spec k k0) as [->|]; [|done].
      by destruct (decide (k0 = k')).
Qed.

Lemma dict_update_nonempty (k : string) (v : Value) (d : dict) :
  dict_update k v d ≠ [].
Proof. destruct d as [|[k0 v0] d]; simpl; [done|]. by case_match. Qed.

Lemma dict_get_None (k : string) (d : dict) : k ∉ dict_keys d → dict_get k d = None.
Proof.
  unfold dict_keys. induction d as [|[k0 v0] d IH]; [done|]. simpl.
  intros [Hne Hk]%not_elem_of_cons.
  destruct (String.eqb_spec k k0); [done|]. by apply IH.
Qed.

Lemma dict_get_elem_of (k : string) (v : Value) (d : dict) :
  NoDup (dict_keys d) → (k, v) ∈ d → dict_get k d = Some v.
Proof.
  unfold dict_keys. induction d as [|[k0 v0] d IH]; [by intros _ ?%elem_of_nil|].
  simpl. intros [Hk0 Hd]%NoDup_cons [[= -> ->]|Hin]%elem_of_cons.
  - by rewrite String.eqb_refl.
  - destruct (String.eqb_spec k k0) as [->|]; [|by apply IH].
    destruct Hk0. apply list_elem_of_fmap. by exists (k0, v).
Qed.

(** ** Merging the annotations of a bond *)

Lemma absent_or_falsy_spec (k : string) (d : dict) :
  absent_or_falsy k d = true
  ↔ dict_get k d = None ∨ ∃ w, dict_get k d = Some w ∧ truthy w = false.
Proof.
  unfold absent_or_falsy, dict_contains, dict_get_default.
  destruct (dict_get k d) as [w|]; simpl.
  - rewrite negb_true_iff. split; [by eauto|]. by intros [|(? & [= <-] & ?)].
  - split; [by left|done].
Qed.

Lemma merged_annotations_get (items d : dict) (k : string) :
  NoDup (dict_keys items) →
  dict_get k (merged_annotations items d)
  = match dict_get k items with
    | Some v => if absent_or_falsy k d then Some v else dict_get k d
    | None => dict_get k d
    end.
Proof.
  unfold merged_annotations, dict_keys. revert d.
  induction items as [|[k0 v0] items IH]; intros d; [done|].
  simpl. intros [Hk0 Hitems]%NoDup_cons. rewrite IH by done.
  destruct (String.eqb_spec k k0) as [->|Hne].
  - rewrite (dict_get_None k0 items) by done.
    destruct (absent_or_falsy k0 d) eqn:Hd; [|done].
    rewrite dict_get_update. by rewrite decide_True.
  - assert (dict_get k (if absent_or_falsy k0 d then dict_update k0 v0 d else d)
            = dict_get k d) as Hget.
    { destruct (absent_or_falsy k0 d); [|done].
      rewrite dict_get_update. by rewrite decide_False. }
    rewrite Hget.
    assert (absent_or_falsy k (if absent_or_falsy k0 d then dict_update k0 v0 d else d)
            = absent_or_falsy k d) as ->; [|done].
    unfold absent_or_falsy at 1 3, dict_contains, dict_get_default. by rewrite Hget.
Qed.

(** Merging the same annotations a second time changes no value (section 8:
    the merge of bond annotations is idempotent). *)
Lemma merged_annotations_idempotent (items d : dict) (k : string) :
  NoDup (dict_keys items) →
  dict_get k (merged_annotations items (merged_annotations items d))
  = dict_get k (merged_annotations items d).
Proof.
  intros Hkeys. rewrite (merged_annotations_get items (merged_annotations items d)) by done.
  destruct (dict_get k items) as [v|] eqn:Hk; [|done].
  assert (dict_get k (merged_annotations items d)
          = if absent_or_falsy k d then Some v else dict_get k d) as Hfirst
    by (by rewrite merged_annotations_get, Hk).
  destruct (absent_or_falsy k d) eqn:Hd.
  - rewrite Hfirst. by destruct (absent_or_falsy k (merged_annotations items d)).
  - assert (absent_or_falsy k (merged_annotations items d) = false) as ->; [|done].
    unfold absent_or_falsy, dict_contains, dict_get_default in *. by rewrite Hfirst.
Qed.

Section bond_annotations.
Context {coord : Type}.
Implicit Types merge : @Structure coord.

Lemma set_bproperty_bond merge p bd d :
  bond merge !! p = Some bd →
  bond (set_bproperty merge p d) = <[p := with_bproperty bd d]> (bond merge).
Proof.
  intros Hp. simpl. apply list_eq. intros i.
  destruct (decide (i = p)) as [->|Hne].
  - rewrite list_lookup_alter_eq, Hp. simpl.
    rewrite list_lookup_insert_eq; [done|]. by eapply lookup_lt_Some.
  - by rewrite list_lookup_alter_ne, list_lookup_insert_ne.
Qed.

(** The annotation loop on a bond that exists: it ends without an exception
    and leaves [merged_annotations] in the target; nothing else changes. *)
Lemma copy_properties_target merge p bd items :
  bond merge !! p = Some bd →
  ∃ merge',
    for_each items (copy_property (Some p)) merge = ret merge'
    ∧ atom merge' = atom merge
    ∧ property merge' = property merge
    ∧ bond merge'
      = <[p := with_bproperty bd (merged_annotations items (bproperty bd))]> (bond merge).
Proof.
  revert merge bd. induction items as [|[k v] items IH]; intros merge bd Hp.
  - exists merge. split_and!; try done. simpl.
    rewrite list_insert_id; [done|]. rewrite Hp. by destruct bd.
  - simpl. rewrite Hp. fold (absent_or_falsy k (bproperty bd)).
    destruct (absent_or_falsy k (bproperty bd)) eqn:Hk.
    + rewrite bind_ret_l.
      set (d := dict_update k v (bproperty bd)).
      destruct (IH (set_bproperty merge p d) (with_bproperty bd d))
        as (merge' & Hrun & Hatom & Hprop & Hbond).
      { rewrite (set_bproperty_bond _ _ bd) by done.
        apply list_lookup_insert_eq. by eapply lookup_lt_Some. }
      exists merge'. split_and!; try done.
      rewrite Hbond, (set_bproperty_bond _ _ bd) by done.
      by rewrite list_insert_insert_eq.
    + rewrite bind_ret_l.
      destruct (IH merge bd Hp) as (merge' & Hrun & Hatom & Hprop & Hbond).
      by exists merge'.
Qed.

(** C2. When the annotations [items] of a bond of the second structure are
    merged into a target bond of the merged structure, the loop ends without
    an exception, and for every annotation key [k] of the source bond, with
    value [v]: if [k] is absent from the target or its value there is falsy,
    the target has [v] for [k] afterwards; if the target has a truthy value for
    [k], it keeps that value.  Keys the source bond does not have keep what
    they had. *)
Theorem bond_annotation_merge_rule merge (p : nat) (bd : Bond) (items : dict) :
  bond merge !! p = Some bd →
  NoDup (dict_keys items) →
  ∃ merge' bd',
    for_each items (copy_property (Some p)) merge = ret merge'
    ∧ bond merge' !! p = Some bd'
    ∧ (∀ k v, (k, v) ∈ items →
         (dict_get k (bproperty bd) = None
          ∨ (∃ w, dict_get k (bproperty bd) = Some w ∧ truthy w = false) →
          dict_get k (bproperty bd') = Some v)
         ∧ (∀ w, dict_get k (bproperty bd) = Some w → truthy w = true →
            dict_get k (bproperty bd') = Some w))
    ∧ (∀ k, k ∉ dict_keys items →
         dict_get k (bproperty bd') = dict_get k (bproperty bd)).
Proof.
  intros Hp Hkeys.
  destruct (copy_properties_target merge p bd items Hp)
    as (merge' & Hrun & _ & _ & Hbond).
  exists merge', (with_bproperty bd (merged_annotations items (bproperty bd))).
  split; [done|]. split.
  { rewrite Hbond. apply list_lookup_insert_eq. by eapply lookup_lt_Some. }
  simpl. split.
  - intros k v Hkv. rewrite merged_annotations_get by done.
    rewrite (dict_get_elem_of k v items) by done. split.
    + intros Hd%absent_or_falsy_spec. by rewrite Hd.
    + intros w Hw Ht. destruct (absent_or_falsy k (bproperty bd)) eqn:Hd; [|done].
      apply absent_or_falsy_spec in Hd as [Hd|(w' & Hd & Hf)]; congruence.
  - intros k Hk. rewrite merged_annotations_get by done.
    by rewrite dict_get_None.
Qed.
(** X1. Bond annotation merge is idempotent (section 8): running the annotation
    loop a second time with the same source annotations on the same target
    bond ends without an exception and leaves every annotation of the target
    as the first run left it. *)
Theorem bond_annotation_merge_idempotent merge (p : nat) (bd : Bond) (items : dict) :
  bond merge !! p = Some bd →
  NoDup (dict_keys items) →
  ∃ once twice bd1 bd2,
    for_each items (copy_property (Some p)) merge = ret once
    ∧ for_each items (copy_property (Some p)) once = ret twice
    ∧ bond once !! p = Some bd1
    ∧ bond twice !! p = Some bd2
    ∧ ∀ k, dict_get k (bproperty bd2) = dict_get k (bproperty bd1).
Proof.
  intros Hp Hkeys.
  destruct (copy_properties_target merge p bd items Hp)
    as (once & Hrun1 & _ & _ & Hbond1).
  assert (bond once !! p
          = Some (with_bproperty bd (merged_annotations items (bproperty bd)))) as Hp1.
  { rewrite Hbond1. apply list_lookup_insert_eq. by eapply lookup_lt_Some. }
  destruct (copy_properties_target once p _ items Hp1)
    as (twice & Hrun2 & _ & _ & Hbond2).
  eexists once, twice, _, _. split_and!; [done..| |].
  - rewrite Hbond2. apply list_lookup_insert_eq. by eapply lookup_lt_Some.
  - intros k. simpl. by apply merged_annotations_idempotent.
Qed.
End bond_annotations.

(** ** Loop invariants *)

Lemma returns_ret {A} (a b : A) : returns (ret a) b ↔ a = b.
Proof. unfold returns, ret. simpl. split; [by intros [= ->]|by intros ->]. Qed.

Lemma returns_raise {A} (e : exn) (a : A) : ¬ returns (raise e) a.
Proof. by intros [=]. Qed.

Lemma for_each_returns_ind {A S} (I : S → Prop) (l : list A) (body : A → S → R S)
    (s s' : S) :
  I s →
  (∀ x s1 s2, x ∈ l → I s1 → returns (body x s1) s2 → I s2) →
  returns (for_each l body s) s' → I s'.
Proof.
  revert s. induction l as [|x l IH]; intros s Hs Hstep; simpl.
  - by intros <-%returns_ret.
  - intros (s1 & H1 & Hrest)%returns_bind.
    eapply (IH s1); [|by intros; eapply Hstep; [apply elem_of_cons; right|..]|done].
    eapply Hstep; [apply elem_of_cons; by left|done..].
Qed.

(** A loop whose body adds [c] to a measure adds [c] for each element. *)
Lemma for_each_measure {A S} (μ : S → nat) (c : nat) (l : list A)
    (body : A → S → R S) (s s' : S) :
  (∀ x s1 s2, returns (body x s1) s2 → μ s2 = (μ s1 + c)%nat) →
  returns (for_each l body s) s' → μ s' = (μ s + c * length l)%nat.
Proof.
  intros Hstep. revert s. induction l as [|x l IH]; intros s; simpl.
  - intros <-%returns_ret. lia.
  - intros (s1 & H1 & Hrest)%returns_bind.
    rewrite (IH _ Hrest), (Hstep _ _ _ H1). lia.
Qed.

Lemma for_each_app {A S} (l k : list A) (body : A → S → R S) (s : S) :
  for_each (l ++ k) body s = (s' <- for_each l body s ;; for_each k body s').
Proof.
  revert s. induction l as [|x l IH]; intros s; simpl.
  - by rewrite bind_ret_l.
  - rewrite bind_assoc. apply bind_ext. intros s1. apply IH.
Qed.

Lemma for_each_map {A B S} (f : A → B) (l : list A) (body : B → S → R S) (s : S) :
  for_each (map f l) body s = for_each l (λ x, body (f x)) s.
Proof.
  revert s. induction l as [|x l IH]; intros s; simpl; [done|].
  apply bind_ext. intros s1. apply IH.
Qed.

(** Two nested loops are one loop over the pairs, in the order of
    [list_prod]. *)
Lemma for_each_list_prod {A B S} (l : list A) (k : list B) (body : A → B → S → R S)
    (s : S) :
  for_each l (λ x, for_each k (body x)) s
  = for_each (list_prod l k) (λ xy, body xy.1 xy.2) s.
Proof.
  revert s. induction l as [|x l IH]; intros s; simpl; [done|].
  rewrite for_each_app, for_each_map. simpl. apply bind_ext. intros s1. apply IH.
Qed.

Lemma comprehension_returns {A B} (f : A → R B) (l : list A) (ys : list B) :
  returns (comprehension f l) ys ↔ Forall2 (λ x y, returns (f x) y) l ys.
Proof.
  revert ys. induction l as [|x l IH]; intros ys; simpl.
  - rewrite returns_ret. split; [intros <-; constructor|by intros ->%Forall2_nil_inv_l].
  - rewrite returns_bind. split.
    + intros (y & Hy & (ys' & Hys & <-%returns_ret)%returns_bind).
      constructor; [done|]. by apply IH.
    + intros (y & ys' & Hy & Hys & ->)%Forall2_cons_inv_l.
      exists y. split; [done|]. apply returns_bind. exists ys'.
      split; [by apply IH|]. by apply returns_ret.
Qed.

(** ** The atoms of the merged structure *)

Section atom_count.
Context {coord : Type}.
Implicit Types st merge : @Structure coord.

Lemma atom_item_returns st (x y : Z) :
  returns (atom_item st x) y ↔ y = x ∧ 1 ≤ x ≤ len_atom st.
Proof.
  unfold atom_item. case_bool_decide as Hx.
  - rewrite returns_ret. split; [by intros <-|by intros [-> _]].
  - split; [by intros ?%returns_raise|]. by intros [_ ?].
Qed.

Lemma atom_items_returns st (l l' : list Z) :
  returns (comprehension (atom_item st) l) l'
  ↔ l' = l ∧ Forall (λ x, 1 ≤ x ≤ len_atom st) l.
Proof.
  rewrite comprehension_returns. split.
  - induction 1 as [|x y l l' [-> Hx]%atom_item_returns _ [-> IH]]; [done|].
    split; [done|]. by constructor.
  - intros [-> Hl]. induction Hl as [|x l Hx _ IH]; constructor; [|done].
    by apply atom_item_returns.
Qed.

Lemma copy_property_atom target kv merge merge' :
  returns (copy_property target kv merge) merge' → atom merge' = atom merge.
Proof.
  unfold copy_property. destruct kv as [k v], target as [p|]; [|by intros ?%returns_raise].
  destruct (bond merge !! p); [|by intros ?%returns_raise].
  case_match; by intros <-%returns_ret.
Qed.

Lemma copy_properties_atom target items merge merge' :
  returns (for_each items (copy_property target) merge) merge' →
  atom merge' = atom merge.
Proof.
  apply (for_each_returns_ind (λ m, atom m = atom merge)); [done|].
  intros kv m1 m2 _ <- Hstep. by eapply copy_property_atom.
Qed.

Lemma addBond_atom merge a b o : atom (addBond merge a b o) = atom merge.
Proof. unfold addBond. by destruct (getBond merge a b). Qed.

Lemma reconcile_bond_atom cs1 cs2 c2 p merge merge' :
  returns (reconcile_bond cs1 cs2 c2 p merge) merge' → atom merge' = atom merge.
Proof.
  unfold reconcile_bond. destruct (bond merge !! p) as [mb|]; [|by intros ?%returns_raise].
  intros (a1 & _ & Hrest)%returns_bind. case_bool_decide.
  - apply returns_bind in Hrest as (a2 & _ & Hrest).
    by eapply copy_properties_atom.
  - apply copy_properties_atom in Hrest. by rewrite Hrest, addBond_atom.
Qed.

Lemma reconcile_bonds_atom cs1 cs2 merge merge' :
  returns (reconcile_bonds cs1 cs2 merge) merge' → atom merge' = atom merge.
Proof.
  apply (for_each_returns_ind (λ m, atom m = atom merge)); [done|].
  intros [c1 c2] m1 m2 _ <-.
  apply (for_each_returns_ind (λ m, atom m = atom m1)); [done|].
  intros p m3 m4 _ <-. apply reconcile_bond_atom.
Qed.

Lemma update_rca4_atom rca4 merge merge' :
  returns (update_rca4 rca4 merge) merge' → atom merge' = atom merge.
Proof.
  unfold update_rca4.
  intros (a1 & _ & (a2 & _ & Hrest)%returns_bind)%returns_bind.
  destruct (getBond merge a1 a2) as [q|]; [|by apply returns_raise in Hrest].
  destruct (bond merge !! q) as [bd|]; [|by apply returns_raise in Hrest].
  apply returns_bind in Hrest as (? & _ & Hrest).
  apply returns_bind in Hrest as (? & _ & Hrest).
  apply returns_bind in Hrest as (r1 & _ & Hrest).
  apply returns_bind in Hrest as (r2 & _ & Hrest).
  apply returns_bind in Hrest as (? & _ & Hrest).
  apply returns_bind in Hrest as (? & _ & Hrest).
  by apply returns_ret in Hrest as <-.
Qed.

Lemma add_rca4_atom merge struct_1 match_1 struct_2 match_2 merge' :
  returns (add_rca4 merge struct_1 match_1 struct_2 match_2) merge' →
  atom merge' = atom merge.
Proof.
  unfold add_rca4.
  intros (rca4s & _ & (new_rca4s & _ & Hrest)%returns_bind)%returns_bind.
  revert Hrest. apply (for_each_returns_ind (λ m, atom m = atom merge)); [done|].
  intros rca4 m1 m2 _ <-. apply update_rca4_atom.
Qed.

(** Deleting the atoms [del] keeps the atoms whose index is not in [del]. *)
Lemma delete_from_length (del : list Z) (i : Z) (l : list (@Atom coord)) :
  length (delete_from del i l)
  = length (filter (λ j, j ∉ del) (seqZ i (Z.of_nat (length l)))).
Proof.
  revert i. induction l as [|a l IH]; intros i; [done|].
  cbn [delete_from length]. rewrite seqZ_cons by lia.
  replace (Z.pred (Z.of_nat (S (length l)))) with (Z.of_nat (length l)) by lia.
  rewrite filter_cons. replace (Z.succ i) with (i + 1) by lia.
  destruct (decide (i ∈ del)).
  - rewrite decide_False by tauto. apply IH.
  - rewrite decide_True by done. simpl. by rewrite IH.
Qed.

Lemma filter_complement_length {A} (P : A → Prop) `{!∀ x, Decision (P x)} (l : list A) :
  (length (filter P l) + length (filter (λ x, ¬ P x) l) = length l)%nat.
Proof.
  induction l as [|x l IH]; [done|]. rewrite !filter_cons.
  destruct (decide (P x)).
  - rewrite decide_False by tauto. simpl. lia.
  - rewrite decide_True by done. simpl. lia.
Qed.

Lemma delete_from_length_NoDup (del : list Z) (l : list (@Atom coord)) :
  NoDup del →
  Forall (λ d, 1 ≤ d ≤ Z.of_nat (length l)) del →
  (length (delete_from del 1 l) + length del = length l)%nat.
Proof.
  intros Hnd Hrange. rewrite delete_from_length.
  pose proof (filter_complement_length (λ j, j ∈ del) (seqZ 1 (Z.of_nat (length l)))) as Hsum.
  rewrite length_seqZ, Nat2Z.id in Hsum.
  assert (filter (λ j, j ∈ del) (seqZ 1 (Z.of_nat (length l))) ≡ₚ del) as Hperm.
  { apply NoDup_Permutation; [apply NoDup_filter, NoDup_seqZ|done|].
    intros d. rewrite list_elem_of_filter, elem_of_seqZ. split; [tauto|].
    intros Hd. split; [done|]. rewrite Forall_forall in Hrange.
    specialize (Hrange d Hd). lia. }
  rewrite Hperm in Hsum. unfold not in *. lia.
Qed.

(** C3. A merge of structures [A] and [B] on matches [match_1] and [match_2]
    that name [k] atoms each ([match_2] without repeated indices, as a match
    has none): the merged structure has [|A.atoms| + |B.atoms| - k] atoms. *)
Theorem merged_atom_count (A B merged : @Structure coord) (match_1 match_2 : list Z)
    (k : nat) :
  length match_1 = k →
  length match_2 = k →
  NoDup match_2 →
  returns (merge_structures_from_matching_atoms A match_1 B match_2) merged →
  len_atom merged = len_atom A + len_atom B - Z.of_nat k.
Proof.
  intros _ Hk Hnd Hrun.
  enough (length (atom merged) + k = length (atom A) + length (atom B))%nat
    by (unfold len_atom; lia).
  revert Hrun. unfold merge_structures_from_matching_atoms.
  intros (cs2 & [-> Hcs2]%atom_items_returns & Hrun)%returns_bind.
  apply returns_bind in Hrun as (cs1 & _ & Hrun).
  apply returns_bind in Hrun as (merge1 & Hatom1%reconcile_bonds_atom & Hrun).
  apply returns_bind in Hrun as (merge2 & Hatom2%add_rca4_atom & Hrun).
  apply returns_bind in Hrun as (d1 & _ & Hrun).
  apply returns_bind in Hrun as (d2 & _ & <-%returns_ret).
  simpl. rewrite Hatom2. simpl. rewrite Hatom1. simpl.
  rewrite <-length_app, <-Hk.
  rewrite <-(length_fmap (λ x, x + len_atom A) match_2).
  apply delete_from_length_NoDup.
  - apply NoDup_fmap_2; [|done]. intros a b Hab. lia.
  - eapply Forall_impl; [exact Hcs2|]. intros d. unfold len_atom. simpl. lia.
Qed.
End atom_count.

(** ** The title of the merged structure *)

Section merged_title.
Context {coord : Type}.
Implicit Types st merge : @Structure coord.

Lemma copy_properties_property target items merge merge' :
  returns (for_each items (copy_property target) merge) merge' →
  property merge' = property merge.
Proof.
  apply (for_each_returns_ind (λ m, property m = property merge)); [done|].
  intros [k v] m1 m2 _ <-. unfold copy_property.
  destruct target as [p|]; [|by intros ?%returns_raise].
  destruct (bond m1 !! p); [|by intros ?%returns_raise].
  case_match; by intros <-%returns_ret.
Qed.

Lemma addBond_property merge a b o : property (addBond merge a b o) = property merge.
Proof. unfold addBond. by destruct (getBond merge a b). Qed.

Lemma reconcile_bonds_property cs1 cs2 merge merge' :
  returns (reconcile_bonds cs1 cs2 merge) merge' → property merge' = property merge.
Proof.
  apply (for_each_returns_ind (λ m, property m = property merge)); [done|].
  intros [c1 c2] m1 m2 _ <-.
  apply (for_each_returns_ind (λ m, property m = property m1)); [done|].
  intros p m3 m4 _ <-. unfold reconcile_bond.
  destruct (bond m3 !! p) as [mb|]; [|by intros ?%returns_raise].
  intros (a1 & _ & Hrest)%returns_bind. case_bool_decide.
  - apply returns_bind in Hrest as (a2 & _ & Hrest).
    by eapply copy_properties_property.
  - apply copy_properties_property in Hrest. by rewrite Hrest, addBond_property.
Qed.

Lemma add_rca4_property merge struct_1 match_1 struct_2 match_2 merge' :
  returns (add_rca4 merge struct_1 match_1 struct_2 match_2) merge' →
  property merge' = property merge.
Proof.
  unfold add_rca4.
  intros (rca4s & _ & (new_rca4s & _ & Hrest)%returns_bind)%returns_bind.
  revert Hrest. apply (for_each_returns_ind (λ m, property m = property merge)); [done|].
  intros rca4 m1 m2 _ <-. unfold update_rca4.
  intros (a1 & _ & (a2 & _ & Hrest)%returns_bind)%returns_bind.
  destruct (getBond m1 a1 a2) as [q|]; [|by apply returns_raise in Hrest].
  destruct (bond m1 !! q) as [bd|]; [|by apply returns_raise in Hrest].
  apply returns_bind in Hrest as (? & _ & Hrest).
  apply returns_bind in Hrest as (? & _ & Hrest).
  apply returns_bind in Hrest as (r1 & _ & Hrest).
  apply returns_bind in Hrest as (r2 & _ & Hrest).
  apply returns_bind in Hrest as (? & _ & Hrest).
  apply returns_bind in Hrest as (? & _ & Hrest).
  by apply returns_ret in Hrest as <-.
Qed.

(** The union keeps the structure-level annotations of the first structure. *)
Lemma structure_merge_property_get st other (k : string) (v : Value) :
  dict_get k (property st) = Some v →
  dict_get k (property (structure_merge st other)) = Some v.
Proof.
  simpl. generalize (property st). induction (property other) as [|[k' v'] d' IH];
    intros d Hd; simpl; [done|].
  apply IH. unfold dict_contains.
  destruct (dict_get k' d) eqn:Hk'; [done|].
  rewrite dict_get_update, decide_False; [done|]. congruence.
Qed.

Lemma getitem_returns (k : string) (d : dict) (v : Value) :
  returns (getitem k d) v ↔ dict_get k d = Some v.
Proof.
  unfold getitem. destruct (dict_get k d) as [w|].
  - rewrite returns_ret. split; congruence.
  - split; [by intros ?%returns_raise|done].
Qed.

(** X4. The title of the merged structure is the title of the first
    structure, an underscore and the title of the second (section 4.5, step
    6), for titles that are strings. *)
Theorem merged_title (A B merged : @Structure coord) (match_1 match_2 : list Z)
    (title_A title_B : string) :
  dict_get "s_m_title" (property A) = Some (VStr title_A) →
  dict_get "s_m_title" (property B) = Some (VStr title_B) →
  returns (merge_structures_from_matching_atoms A match_1 B match_2) merged →
  dict_get "s_m_title" (property merged)
  = Some (VStr (title_A +:+ "_" +:+ title_B)).
Proof.
  intros HA HB. unfold merge_structures_from_matching_atoms.
  intros (cs2 & _ & Hrun)%returns_bind.
  apply returns_bind in Hrun as (cs1 & _ & Hrun).
  apply returns_bind in Hrun as (merge1 & Hprop1%reconcile_bonds_property & Hrun).
  apply returns_bind in Hrun as (merge2 & Hprop2%add_rca4_property & Hrun).
  apply returns_bind in Hrun as (d1 & Hd1 & Hrun).
  apply returns_bind in Hrun as (d2 & Hd2 & <-%returns_ret).
  simpl in Hprop2. rewrite Hprop2, Hprop1 in Hd1. simpl.
  pose proof (structure_merge_property_get A B _ _ HA) as Hunion.
  revert Hd1. unfold append_suffix.
  intros (old & Hold%getitem_returns & Hd1)%returns_bind.
  apply returns_bind in Hd1 as (v & Hv%getitem_returns & Hd1).
  assert (old = VStr title_A) as -> by congruence.
  assert (v = VStr title_B) as -> by congruence.
  simpl in Hd1. rewrite !bind_ret_l in Hd1. apply returns_ret in Hd1 as <-.
  revert Hd2. unfold append_suffix. simpl.
  intros (? & _ & (? & _ & (? & _ & (new & _ & <-%returns_ret)%returns_bind
                                  )%returns_bind)%returns_bind)%returns_bind.
  rewrite dict_get_update, decide_False by done.
  rewrite dict_get_update, decide_True by done. done.
Qed.
End merged_title.

(** ** Finding the common atoms *)

Section common_atoms.
Context {coord : Type} {tk : Toolkit coord}.
Implicit Types st : @Structure coord.

Lemma check_patterns_selects (struct_1 struct_2 : @Structure coord) (before after : list Value)
    (pattern : Value) locals :
  Forall (λ q, matches_of struct_1 q = []) before →
  matches_of struct_1 pattern ≠ [] →
  check_patterns struct_1 struct_2 (before ++ pattern :: after) locals
  = (Checking <$> (before ++ [pattern]),
     Ok (Some (matches_of struct_1 pattern), Some (matches_of struct_2 pattern))).
Proof.
  intros Hbefore Hpattern. revert locals.
  induction Hbefore as [|q before Hq _ IH]; intros locals; simpl.
  - fold (matches_of struct_1 pattern) (matches_of struct_2 pattern).
    destruct (matches_of struct_1 pattern); done.
  - fold (matches_of struct_1 q). rewrite Hq. simpl.
    unfold bind at 1, print. by rewrite IH.
Qed.

Lemma check_patterns_no_match (struct_1 struct_2 : @Structure coord) (patterns : list Value) locals :
  Forall (λ q, matches_of struct_1 q = []) patterns →
  check_patterns struct_1 struct_2 patterns locals
  = (Checking <$> patterns,
     Ok (match patterns with [] => locals.1 | _ => Some [] end, locals.2)).
Proof.
  intros Hall. revert locals.
  induction Hall as [|q patterns Hq _ IH]; intros locals; simpl.
  - by destruct locals.
  - fold (matches_of struct_1 q). rewrite Hq. simpl.
    unfold bind at 1, print. rewrite IH. simpl. by destruct patterns.
Qed.

(** C4. The patterns of the catalog of the second structure are tried in
    catalog order.  When the catalog is [before ++ pattern :: after], no pattern
    of [before] matches the first structure and [pattern] does, the function
    returns the matches of [pattern] in the first and in the second structure
    (whatever the latter are, the empty list included), and the patterns it has
    checked are those of [before] and [pattern]: the result does not depend on
    [after], no pattern of which is evaluated. *)
Theorem first_matching_pattern_is_selected (struct_1 struct_2 : @Structure coord)
    (before after : list Value) (pattern : Value) :
  search_dic_keys (property struct_2) "pattern" = before ++ pattern :: after →
  Forall (λ q, matches_of struct_1 q = []) before →
  matches_of struct_1 pattern ≠ [] →
  get_overlapping_atoms_in_both struct_1 struct_2
  = (Checking <$> (before ++ [pattern]),
     Ok (matches_of struct_1 pattern, matches_of struct_2 pattern)).
Proof.
  intros Hcatalog Hbefore Hpattern. unfold get_overlapping_atoms_in_both.
  rewrite Hcatalog, (check_patterns_selects _ _ _ _ _ _ Hbefore Hpattern).
  unfold bind, try_except, read_local, ret. simpl. by rewrite !app_nil_r.
Qed.

(** C5. When no pattern of the catalog of the second structure matches the
    first structure (an empty catalog included), [get_overlapping_atoms_in_both]
    raises; when both structures have a title, the exception is the
    [UnboundLocalError] and the line printed before it names both titles; and
    [merge] on the pair raises too, so it yields no structure. *)
Theorem no_matching_pattern_is_fatal (struct_1 struct_2 : @Structure coord) :
  Forall (λ q, matches_of struct_1 q = [])
         (search_dic_keys (property struct_2) "pattern") →
  raises (get_overlapping_atoms_in_both struct_1 struct_2)
  ∧ (∀ title_1 title_2,
       dict_get "s_m_title" (property struct_1) = Some title_1 →
       dict_get "s_m_title" (property struct_2) = Some title_2 →
       get_overlapping_atoms_in_both struct_1 struct_2
       = ((Checking <$> search_dic_keys (property struct_2) "pattern")
          ++ [ErrorTitles title_1 title_2],
          Raise UnboundLocalError))
  ∧ (∀ (h : list (@Structure coord)) (r1 r2 : nat),
       h !! r1 = Some struct_1 → h !! r2 = Some struct_2 →
       raises (merge r1 r2 h)).
Proof.
  intros Hall.
  assert (∃ l1, check_patterns struct_1 struct_2
                  (search_dic_keys (property struct_2) "pattern") (None, None)
                = (Checking <$> search_dic_keys (property struct_2) "pattern",
                   Ok (l1, None))) as [l1 Hloop].
  { eexists. by rewrite (check_patterns_no_match _ _ _ _ Hall). }
  assert (raises (get_overlapping_atoms_in_both struct_1 struct_2)) as Hraises.
  { unfold get_overlapping_atoms_in_both. rewrite Hloop.
    unfold raises, getitem.
    destruct l1 as [m1|], (dict_get "s_m_title" (property struct_1)) as [t1|],
      (dict_get "s_m_title" (property struct_2)) as [t2|]; by eexists. }
  split_and!; [done| |].
  - intros title_1 title_2 Ht1 Ht2. unfold get_overlapping_atoms_in_both.
    rewrite Hloop. unfold getitem. rewrite Ht1, Ht2.
    destruct l1 as [m1|]; unfold bind, try_except, read_local, ret, raise, print;
      simpl; by rewrite ?app_nil_r.
  - intros h r1 r2 Hr1 Hr2. unfold merge, deref. rewrite Hr1, Hr2.
    rewrite !bind_ret_l. by apply raises_bind_l.
Qed.
End common_atoms.

(** ** The merge driver and the store *)

Section driver.
Context {coord : Type} {tk : Toolkit coord}.
#[local] Abbreviation ref := nat.
#[local] Abbreviation store := (list (@Structure coord)).
Implicit Types st : @Structure coord.
Implicit Types h : store.

Lemma same_graph_refl st : same_graph st st.
Proof. done. Qed.

Lemma same_graph_trans st1 st2 st3 :
  same_graph st1 st2 → same_graph st2 st3 → same_graph st1 st3.
Proof. intros (?&?&?) (?&?&?). split_and!; congruence. Qed.

Lemma setXYZ_same_graph st xyzs : same_graph st (setXYZ st xyzs).
Proof.
  split_and!; try done. simpl. apply list_eq. intros i.
  rewrite !list_lookup_fmap, list_lookup_imap. by destruct (atom st !! i).
Qed.

Lemma deref_returns h r st : returns (deref h r) st ↔ h !! r = Some st.
Proof.
  unfold deref. destruct (h !! r) as [st'|].
  - rewrite returns_ret. split; congruence.
  - split; [by intros ?%returns_raise|done].
Qed.

Lemma merge_pair_returns (r1 r2 : ref) (m1 m2 : list Z) out h out' h' :
  returns (merge_pair r1 r2 m1 m2 (out, h)) (out', h') →
  ∃ st1 st2 st1' st2' merged,
    h !! r1 = Some st1 ∧ h !! r2 = Some st2
    ∧ <[r2 := setXYZ st2 (superimpose st1 m1 st2 m2)]> h !! r1 = Some st1'
    ∧ <[r2 := setXYZ st2 (superimpose st1 m1 st2 m2)]> h !! r2 = Some st2'
    ∧ returns (merge_structures_from_matching_atoms st1' m1 st2' m2) merged
    ∧ out' = out ++ [length h]
    ∧ h' = <[r2 := setXYZ st2 (superimpose st1 m1 st2 m2)]> h ++ [merged].
Proof.
  unfold merge_pair, do_superimpose.
  intros (st1 & Hr1%deref_returns & Hrun)%returns_bind.
  apply returns_bind in Hrun as (? & _ & Hrun).
  apply returns_bind in Hrun as (st2 & Hr2%deref_returns & Hrun).
  apply returns_bind in Hrun as (? & _ & Hrun).
  apply returns_bind in Hrun as (h1 & Hh1 & Hrun).
  apply returns_bind in Hh1 as (st1' & Hr1'%deref_returns & Hh1).
  apply returns_bind in Hh1 as (st2' & Hr2'%deref_returns & <-%returns_ret).
  apply returns_bind in Hrun as (st1'' & Hs1%deref_returns & Hrun).
  apply returns_bind in Hrun as (st2'' & Hs2%deref_returns & Hrun).
  apply returns_bind in Hrun as (merged & Hmerged & [= <- <-]%returns_ret).
  exists st1', st2', st1'', st2'', merged. by rewrite length_insert.
Qed.

Lemma merge_pair_invariant (r1 r2 : ref) (m1 m2 : list Z) h state state' :
  merge_invariant r2 h state →
  returns (merge_pair r1 r2 m1 m2 state) state' →
  merge_invariant r2 h state'.
Proof.
  destruct state as [out hc], state' as [out' hc'].
  intros (Hout & Hlen & Hframe & Hsecond) Hrun.
  apply merge_pair_returns in Hrun
    as (st1 & st2 & ? & ? & merged & Hr1 & Hr2 & _ & _ & _ & -> & ->).
  split_and!.
  - rewrite length_app. simpl. rewrite seq_app. simpl.
    rewrite <-Hout. do 3 f_equal. lia.
  - rewrite !length_app, length_insert. simpl. lia.
  - intros r st Hne Hr. rewrite lookup_app_l.
    + rewrite list_lookup_insert_ne by done. by apply Hframe.
    + rewrite length_insert. eapply lookup_lt_Some. by apply Hframe.
  - intros st Hr. destruct (Hsecond st Hr) as (st' & Hr' & Hgraph).
    assert (st' = st2) as -> by congruence.
    exists (setXYZ st2 (superimpose st1 m1 st2 m2)). split.
    + rewrite lookup_app_l by (rewrite length_insert; by eapply lookup_lt_Some).
      apply list_lookup_insert_eq. by eapply lookup_lt_Some.
    + eapply same_graph_trans; [done|]. apply setXYZ_same_graph.
Qed.

Lemma merge_returns_invariant (r1 r2 : ref) h out h' :
  returns (merge r1 r2 h) (out, h') → merge_invariant r2 h (out, h').
Proof.
  unfold merge.
  intros (st1 & _ & (st2 & Hr2%deref_returns & Hrun)%returns_bind)%returns_bind.
  apply returns_bind in Hrun as ([m1s m2s] & _ & Hrun).
  revert Hrun. apply (for_each_returns_ind (merge_invariant r2 h)).
  - split_and!; try done.
    intros st Hst. exists st. split; [done|apply same_graph_refl].
  - intros m1 s1 s2 _ Hs1.
    apply (for_each_returns_ind (merge_invariant r2 h)); [done|].
    intros m2 s3 s4 _. apply merge_pair_invariant.
Qed.

Lemma merge_returns_count (r1 r2 : ref) h out h' st1 st2 match_1s match_2s :
  h !! r1 = Some st1 → h !! r2 = Some st2 →
  returns (get_overlapping_atoms_in_both st1 st2) (match_1s, match_2s) →
  returns (merge r1 r2 h) (out, h') →
  length out = (length match_1s * length match_2s)%nat.
Proof.
  intros Hr1 Hr2 Hmatches. unfold merge.
  intros (st1' & Hr1'%deref_returns & Hrun)%returns_bind.
  apply returns_bind in Hrun as (st2' & Hr2'%deref_returns & Hrun).
  assert (st1' = st1) as -> by congruence.
  assert (st2' = st2) as -> by congruence.
  apply returns_bind in Hrun as ([m1s m2s] & Hm & Hrun).
  assert ((m1s, m2s) = (match_1s, match_2s)) as [= -> ->]
    by (unfold returns in *; congruence).
  apply (for_each_measure (λ s, length s.1) (length match_2s)) in Hrun.
  - simpl in Hrun. lia.
  - intros m1 s1 s2 Hinner.
    apply (for_each_measure (λ s, length s.1) 1) in Hinner; [lia|].
    intros m2 [out3 h3] [out4 h4] Hpair.
    apply merge_pair_returns in Hpair as (? & ? & ? & ? & ? & _ & _ & _ & _ & _ & -> & _).
    simpl. rewrite length_app. simpl. lia.
Qed.

(** The structures other than the second stay as they are during the loop of
    [merge]. *)
Lemma merge_pairs_frame (r1 r2 : ref) (pairs : list (list Z * list Z)) out h out' h' :
  returns (for_each pairs (λ xy, merge_pair r1 r2 xy.1 xy.2) (out, h)) (out', h') →
  ∀ r st, r ≠ r2 → h !! r = Some st → h' !! r = Some st.
Proof.
  intros Hrun.
  refine (for_each_returns_ind
            (λ s, ∀ r st, r ≠ r2 → h !! r = Some st → s.2 !! r = Some st)
            _ _ _ _ _ _ Hrun).
  - done.
  - intros [m1 m2] [o1 h1] [o2 h2] _ Hframe Hpair r st Hne Hr. simpl in *.
    apply merge_pair_returns in Hpair
      as (? & ? & ? & ? & merged & _ & _ & _ & _ & _ & _ & ->).
    apply lookup_app_l_Some. rewrite list_lookup_insert_ne by done. by apply Hframe.
Qed.

(** The loop of [merge] over the pairs of matches: every pair has its
    structure among the yielded ones, in order, and that structure is the
    merge of the first structure with the second one as the loop has left it,
    superimposed for this pair. *)
Lemma merge_pairs_outputs (r1 r2 : ref) st1 (pairs : list (list Z * list Z)) :
  r1 ≠ r2 →
  ∀ out h out' h' st2,
    h !! r1 = Some st1 → h !! r2 = Some st2 →
    returns (for_each pairs (λ xy, merge_pair r1 r2 xy.1 xy.2) (out, h)) (out', h') →
    ∃ new,
      out' = out ++ new
      ∧ Forall2 (λ xy r, ∃ st2' merged,
                   same_graph st2 st2'
                   ∧ h' !! r = Some merged
                   ∧ returns (pair_merge st1 st2' xy.1 xy.2) merged)
          pairs new.
Proof.
  intros Hne. induction pairs as [|[m1 m2] pairs IH]; intros out h out' h' st2 Hr1 Hr2.
  - simpl. intros [= <- <-]%returns_ret. exists []. by rewrite app_nil_r.
  - simpl. intros ([o1 h1] & Hpair & Hrest)%returns_bind.
    apply merge_pair_returns in Hpair
      as (s1 & s2 & s1' & s2' & merged & Hs1 & Hs2 & Hs1' & Hs2' & Hmerged & -> & ->).
    assert (s1 = st1) as -> by congruence.
    assert (s2 = st2) as -> by congruence.
    rewrite list_lookup_insert_ne in Hs1' by done.
    assert (s1' = st1) as -> by congruence.
    rewrite list_lookup_insert_eq in Hs2' by (by eapply lookup_lt_Some).
    injection Hs2' as <-.
    set (h1 := <[r2 := setXYZ st2 (superimpose st1 m1 st2 m2)]> h) in *.
    assert (length h1 = length h) as Hlen by apply length_insert.
    destruct (IH _ _ _ _ (setXYZ st2 (superimpose st1 m1 st2 m2))
                ltac:(apply lookup_app_l_Some; unfold h1;
                      by rewrite list_lookup_insert_ne)
                ltac:(apply lookup_app_l_Some; unfold h1;
                      apply list_lookup_insert_eq; by eapply lookup_lt_Some)
                Hrest) as (new & -> & Hnew).
    exists (length h :: new). split; [by rewrite <-app_assoc|].
    constructor.
    + exists st2, merged. split_and!; [apply same_graph_refl| |done].
      apply (merge_pairs_frame _ _ _ _ _ _ _ Hrest).
      * apply lookup_lt_Some in Hr2. lia.
      * rewrite lookup_app_r by lia. by rewrite Hlen, Nat.sub_diag.
    + eapply Forall2_impl; [exact Hnew|]. simpl.
      intros xy r (st2' & merged' & Hgraph & Hlookup & Hreturns).
      exists st2', merged'. split_and!; [|done..].
      eapply same_graph_trans; [apply setXYZ_same_graph|done].
Qed.

(** C7. For a pair of structures for which [get_overlapping_atoms_in_both]
    returns the match sets [match_1s] and [match_2s], a run of [merge] that
    ends without an exception has yielded one structure for each pair of the
    cross-product, [len(match_1s) * len(match_2s)] structures in all, each a new
    object of the store, and the structure of a pair is the merge of the two
    structures on that pair (the second structure superimposed for it); so does
    [merge_many_structures] on two groups of one structure each.  With 2 and 3
    matches this makes 6. *)
Theorem merge_yields_cross_product (r1 r2 : nat) (h : list (@Structure coord))
    st1 st2 (match_1s match_2s : list (list Z)) :
  h !! r1 = Some st1 → h !! r2 = Some st2 →
  returns (get_overlapping_atoms_in_both st1 st2) (match_1s, match_2s) →
  (∀ out h', returns (merge r1 r2 h) (out, h') →
     length out = (length match_1s * length match_2s)%nat
     ∧ out = seq (length h) (length out)
     ∧ length h' = (length h + length out)%nat
     ∧ (r1 ≠ r2 →
        Forall2 (λ xy r, ∃ st2' merged,
                   same_graph st2 st2'
                   ∧ h' !! r = Some merged
                   ∧ returns (pair_merge st1 st2' xy.1 xy.2) merged)
          (list_prod match_1s match_2s) out))
  ∧ (∀ out h', returns (merge_many_structures [r1] [r2] h) (out, h') →
     length out = (length match_1s * length match_2s)%nat).
Proof.
  intros Hr1 Hr2 Hmatches. split.
  - intros out h' Hrun.
    split; [exact (merge_returns_count _ _ _ _ _ _ _ _ _ Hr1 Hr2 Hmatches Hrun)|].
    pose proof Hrun as Hinv. apply merge_returns_invariant in Hinv.
    unfold merge_invariant in Hinv. destruct Hinv as (Hout & Hlen & _).
    split_and!; [done..|]. intros Hne. revert Hrun. unfold merge.
    intros (st1' & Hr1'%deref_returns & Hrun)%returns_bind.
    apply returns_bind in Hrun as (st2' & Hr2'%deref_returns & Hrun).
    assert (st1' = st1) as -> by congruence.
    assert (st2' = st2) as -> by congruence.
    apply returns_bind in Hrun as ([m1s m2s] & Hm & Hrun).
    assert ((m1s, m2s) = (match_1s, match_2s)) as [= -> ->]
      by (unfold returns in *; congruence).
    rewrite (for_each_list_prod _ _ (merge_pair r1 r2)) in Hrun.
    destruct (merge_pairs_outputs r1 r2 st1 _ Hne _ _ _ _ st2 Hr1 Hr2 Hrun)
      as (new & -> & Hnew).
    done.
  - intros out h'. unfold merge_many_structures. simpl.
    rewrite !bind_ret_r.
    intros ([out1 h1] & Hrun & [= <- <-]%returns_ret)%returns_bind.
    exact (merge_returns_count _ _ _ _ _ _ _ _ _ Hr1 Hr2 Hmatches Hrun).
Qed.
End driver.

(** ** Enantiomers and the frame of a merge *)

Section objects.
Context {coord : Type} {tk : Toolkit coord}.
#[local] Abbreviation ref := nat.
#[local] Abbreviation store := (list (@Structure coord)).
Implicit Types st : @Structure coord.
Implicit Types h : store.

Lemma truthy_get_default (k : string) (d : dict) :
  truthy (dict_get_default k (VBool false) d) = true
  ↔ ∃ v, dict_get k d = Some v ∧ truthy v = true.
Proof.
  unfold dict_get_default. destruct (dict_get k d) as [v|]; simpl.
  - split; [by eauto|]. by intros (? & [= <-] & ?).
  - split; [done|]. by intros (? & [=] & _).
Qed.

(** C8. [load_enantiomers] on a structure of the store yields the structure
    itself first.  When its [b_cs_both_enantiomers] annotation is present and
    true (and the structure has a title, which the function prints), it yields
    a second structure, a new object of the store that has the atoms of the
    input with the first coordinate negated and the other two unchanged, and
    the same atom types, bonds and annotations; otherwise it yields nothing
    more.  So it yields one or two structures, and the structures of the store
    are as before. *)
Theorem enantiomer_expansion (structure : nat) (h : list (@Structure coord)) st :
  h !! structure = Some st →
  let both := ∃ v, dict_get "b_cs_both_enantiomers" (property st) = Some v
                   ∧ truthy v = true in
  (¬ both → load_enantiomers structure h = ret ([structure], h))
  ∧ (both → ∀ title, dict_get "s_m_title" (property st) = Some title →
       ∃ other,
         load_enantiomers structure h
         = ([LoadingOtherEnantiomer title], Ok ([structure; length h], h ++ [other]))
         ∧ atom_type_name <$> atom other = atom_type_name <$> atom st
         ∧ xyz <$> atom other
           = (λ a, (neg (xyz a).1.1, (xyz a).1.2, (xyz a).2)) <$> atom st
         ∧ bond other = bond st
         ∧ property other = property st
         ∧ (∀ r st', h !! r = Some st' → (h ++ [other]) !! r = Some st')).
Proof.
  intros Hst both. unfold load_enantiomers, deref. rewrite Hst, bind_ret_l.
  split.
  - intros Hnot.
    destruct (truthy (dict_get_default "b_cs_both_enantiomers" (VBool false)
                        (property st))) eqn:Hflag; [|done].
    by apply truthy_get_default in Hflag.
  - intros Hboth%truthy_get_default title Htitle. rewrite Hboth.
    unfold getitem. rewrite Htitle, bind_ret_l.
    exists (invert_x st). split_and!.
    + unfold bind, print, ret. simpl.
      rewrite lookup_app_r, Nat.sub_diag by done. simpl.
      rewrite insert_app_r_alt, Nat.sub_diag by done. done.
    + simpl. rewrite <-list_fmap_compose. done.
    + simpl. rewrite <-list_fmap_compose. done.
    + done.
    + done.
    + intros r st' Hr. by apply lookup_app_l_Some.
Qed.

(** C9, as the code has it.  A run of [merge] on the structures [struct_1] and
    [struct_2] that ends without an exception leaves every structure of the
    store other than [struct_2] as it was, [struct_1] included when it is
    another object; [struct_2] keeps its atoms and their types, its bonds and
    its annotations, and only the coordinates of its atoms are overwritten, by
    the superimposition; the structures yielded are new objects. *)
Theorem merge_leaves_graphs_unchanged (struct_1 struct_2 : nat)
    (h h' : list (@Structure coord)) (out : list nat) :
  returns (merge struct_1 struct_2 h) (out, h') →
  (∀ r st, r ≠ struct_2 → h !! r = Some st → h' !! r = Some st)
  ∧ (∀ st, h !! struct_2 = Some st →
       ∃ st', h' !! struct_2 = Some st' ∧ same_graph st st')
  ∧ Forall (λ r, length h ≤ r)%nat out.
Proof.
  intros Hrun%merge_returns_invariant. unfold merge_invariant in Hrun.
  destruct Hrun as (Hout & _ & Hframe & Hsecond). split_and!; [done..|].
  rewrite Hout. apply Forall_forall. intros r [? _]%elem_of_seq. done.
Qed.
End objects.

(** C9 as stated does not hold: the second structure of a merge does not keep
    its coordinates.  The run of [merge] on [fragment_A] and [fragment_B] ends
    without an exception and leaves [fragment_B] with the same atom types and
    other coordinates, those of the superimposition. *)
Lemma merge_moves_second_structure :
  ∃ out h' st',
    returns (merge (tk := sample_toolkit) 0%nat 1%nat sample_store) (out, h')
    ∧ h' !! 1%nat = Some st'
    ∧ atom_type_name <$> atom st' = atom_type_name <$> atom fragment_B
    ∧ xyz <$> atom st' ≠ xyz <$> atom fragment_B.
Proof.
  eexists _, _, _. split_and!.
  - vm_compute. reflexivity.
  - reflexivity.
  - reflexivity.
  - vm_compute. discriminate.
Qed.

(** ** The properties on the sample fragments *)

Lemma rca4_translation_on_sample :
  Forall2 (Forall2 (λ v y, ∃ x, as_int v = Some x
                            ∧ spec_translate 3 [2] [1] x = Some y))
    [[VInt 3; VInt 1; VInt 2; VInt 4]] [[5; 2; 4; 6]].
Proof.
  apply (proj1 (rca4_translation_follows_spec 3 [2] [1] _ _ (NoDup_singleton 1))).
  vm_compute. reflexivity.
Defined.

Lemma bond_annotation_merge_on_sample :
  ∃ merge' bd',
    for_each [("i_cs_rca4_1", VInt 7); ("s_cs_note", VStr "kept")]
      (copy_property (Some 0%nat)) fragment_B
    = ret merge'
    ∧ bond merge' !! 0%nat = Some bd'
    ∧ dict_get "i_cs_rca4_1" (bproperty bd') = Some (VInt 3)
    ∧ dict_get "s_cs_note" (bproperty bd') = Some (VStr "kept").
Proof.
  destruct (bond_annotation_merge_rule fragment_B 0
              {| atom1 := 1; atom2 := 2; order := 1;
                 bproperty := [("i_cs_rca4_1", VInt 3); ("i_cs_rca4_2", VInt 4)] |}
              [("i_cs_rca4_1", VInt 7); ("s_cs_note", VStr "kept")])
    as (merge' & bd' & Hrun & Hbd & Hrule & _).
  - reflexivity.
  - unfold dict_keys. simpl. apply NoDup_cons. split; [|apply NoDup_singleton].
    intros [=]%list_elem_of_singleton.
  - exists merge', bd'. split_and!; [done..| |].
    + apply (proj2 (Hrule "i_cs_rca4_1" (VInt 7) (list_elem_of_here _ _)) (VInt 3));
        reflexivity.
    + apply (proj1 (Hrule "s_cs_note" (VStr "kept")
                      (list_elem_of_further _ _ _ (list_elem_of_here _ _)))).
      by left.
Defined.

Lemma merged_atom_count_on_sample :
  ∃ merged,
    returns (merge_structures_from_matching_atoms fragment_A [2] fragment_B [1]) merged
    ∧ len_atom merged = 3 + 4 - 1.
Proof.
  eexists. split; [vm_compute; reflexivity|].
  apply (merged_atom_count fragment_A fragment_B _ [2] [1] 1 eq_refl eq_refl
           (NoDup_singleton 1)).
  vm_compute. reflexivity.
Defined.

Lemma first_matching_pattern_on_sample :
  get_overlapping_atoms_in_both (tk := sample_toolkit) fragment_A fragment_C
  = ([Checking (VStr "Zn"); Checking (VStr "Rh")], Ok ([[1]], [])).
Proof.
  apply (first_matching_pattern_is_selected (tk := sample_toolkit)
           fragment_A fragment_C [VStr "Zn"] [VStr "P"] (VStr "Rh")).
  - reflexivity.
  - constructor; [reflexivity|constructor].
  - vm_compute. discriminate.
Defined.

Lemma no_matching_pattern_on_sample :
  get_overlapping_atoms_in_both (tk := sample_toolkit) fragment_A fragment_D
  = ([Checking (VStr "Zn"); ErrorTitles (VStr "A") (VStr "D")], Raise UnboundLocalError).
Proof.
  refine (proj1 (proj2 (no_matching_pattern_is_fatal (tk := sample_toolkit)
                          fragment_A fragment_D _)) (VStr "A") (VStr "D") eq_refl eq_refl).
  constructor; [reflexivity|constructor].
Defined.

Lemma merge_yields_six_on_sample :
  ∃ out h',
    returns (merge (tk := sample_toolkit) 0%nat 1%nat sample_store) (out, h')
    ∧ length out = (2 * 3)%nat.
Proof.
  eexists _, _. split; [vm_compute; reflexivity|].
  refine (proj1 (proj1 (merge_yields_cross_product (tk := sample_toolkit)
                          0%nat 1%nat sample_store fragment_A fragment_B
                          [[2]; [3]] [[1]; [3]; [4]] eq_refl eq_refl _) _ _ _)).
  - vm_compute. reflexivity.
  - vm_compute. reflexivity.
Defined.

Lemma enantiomer_expansion_on_sample :
  ∃ other,
    load_enantiomers (tk := sample_toolkit) 0%nat sample_store
    = ([LoadingOtherEnantiomer (VStr "A")], Ok ([0%nat; 2%nat], sample_store ++ [other]))
    ∧ xyz <$> atom other = [(0, 0, 0); (-2, 0, 0); (2, 0, 0)].
Proof.
  destruct (proj2 (enantiomer_expansion (tk := sample_toolkit)
                     0%nat sample_store fragment_A eq_refl)
              (ex_intro _ (VBool true) (conj eq_refl eq_refl)) (VStr "A") eq_refl)
    as (other & Hrun & _ & Hxyz & _).
  exists other. split; [exact Hrun|]. rewrite Hxyz. reflexivity.
Defined.

Lemma merge_leaves_first_structure_on_sample :
  ∃ out h',
    returns (merge (tk := sample_toolkit) 0%nat 1%nat sample_store) (out, h')
    ∧ h' !! 0%nat = Some fragment_A.
Proof.
  eexists _, _. split; [vm_compute; reflexivity|].
  refine (proj1 (merge_leaves_graphs_unchanged (tk := sample_toolkit)
                   0%nat 1%nat sample_store _ _ _) 0%nat fragment_A _ eq_refl).
  - vm_compute. reflexivity.
  - discriminate.
Defined.

(** ** Missing RCA4 annotations *)

Section missing_rca4.
Context {coord : Type}.
Implicit Types st merge : @Structure coord.

Lemma collect_rca4_without_rca4_1 st (bd : Bond) (rca4s : list (list Value)) title :
  dict_get "i_cs_rca4_1" (bproperty bd) = None →
  dict_get "s_m_title" (property st) = Some title →
  collect_rca4 st bd rca4s = ([ErrorNoRCA4 title], Raise (KeyError "i_cs_rca4_1")).
Proof.
  intros Hkey Htitle. unfold collect_rca4, getitem. by rewrite Hkey, Htitle.
Qed.

Lemma collect_rca4_without_rca4_2 st (bd : Bond) (rca4s : list (list Value)) v :
  dict_get "i_cs_rca4_1" (bproperty bd) = Some v →
  truthy v = true →
  dict_get "i_cs_rca4_2" (bproperty bd) = None →
  collect_rca4 st bd rca4s = ([], Raise (KeyError "i_cs_rca4_2")).
Proof.
  intros Hkey Hv Hkey2. unfold collect_rca4, getitem.
  by rewrite Hkey, Hkey2, !bind_ret_l, Hv.
Qed.

Lemma collect_rca4_returns st (bd : Bond) (rca4s rca4s' : list (list Value)) :
  returns (collect_rca4 st bd rca4s) rca4s' →
  is_Some (dict_get "i_cs_rca4_1" (bproperty bd)).
Proof.
  unfold collect_rca4, getitem.
  destruct (dict_get "i_cs_rca4_1" (bproperty bd)) as [v|]; [done|].
  intros (? & Htry & _)%returns_bind. revert Htry.
  unfold try_except. rewrite bind_raise. simpl.
  destruct (dict_get "s_m_title" (property st)); by intros [=].
Qed.
(** A bond that [collect_rca4] passes: it has [i_cs_rca4_1], and [i_cs_rca4_2]
    too when the former is true. *)
Lemma collect_rca4_passes st (bd : Bond) (rca4s : list (list Value)) v :
  dict_get "i_cs_rca4_1" (bproperty bd) = Some v →
  (truthy v = true → is_Some (dict_get "i_cs_rca4_2" (bproperty bd))) →
  ∃ rca4s', collect_rca4 st bd rca4s = ret rca4s'.
Proof.
  intros Hkey Hkey2. unfold collect_rca4, getitem. rewrite Hkey, !bind_ret_l.
  unfold try_except, ret at 1. rewrite bind_ret_l.
  destruct (truthy v); [|by eexists].
  destruct Hkey2 as [w ->]; [done|]. rewrite !bind_ret_l. by eexists.
Qed.

Lemma collect_rca4s_pass st (bonds : list Bond) (rca4s : list (list Value)) :
  Forall (λ bd, ∃ v, dict_get "i_cs_rca4_1" (bproperty bd) = Some v
                     ∧ (truthy v = true →
                        is_Some (dict_get "i_cs_rca4_2" (bproperty bd)))) bonds →
  ∃ rca4s', for_each bonds (collect_rca4 st) rca4s = ret rca4s'.
Proof.
  intros Hall. revert rca4s.
  induction Hall as [|bd bonds (v & Hkey & Hkey2) _ IH]; intros rca4s; simpl.
  - by eexists.
  - destruct (collect_rca4_passes st bd rca4s v Hkey Hkey2) as [rca4s1 ->].
    rewrite bind_ret_l. apply IH.
Qed.

(** C6, as the code has it.  When the first bond of the second structure that
    lacks a required RCA4 annotation has a true [i_cs_rca4_1] and no
    [i_cs_rca4_2], [add_rca4] raises the [KeyError] of the missing key and has
    printed nothing: the failure does not give the title of the structure.
    (The [try] block reads [i_cs_rca4_1] twice and [i_cs_rca4_2] never.) *)
Theorem missing_rca4_2_raises_without_title merge st1 (m1 : list Z) st2 (m2 : list Z)
    (before after : list Bond) (bd : Bond) v :
  bond st2 = before ++ bd :: after →
  Forall (λ bd, ∃ v, dict_get "i_cs_rca4_1" (bproperty bd) = Some v
                     ∧ (truthy v = true →
                        is_Some (dict_get "i_cs_rca4_2" (bproperty bd)))) before →
  dict_get "i_cs_rca4_1" (bproperty bd) = Some v →
  truthy v = true →
  dict_get "i_cs_rca4_2" (bproperty bd) = None →
  add_rca4 merge st1 m1 st2 m2 = ([], Raise (KeyError "i_cs_rca4_2")).
Proof.
  intros Hbonds Hbefore Hkey Hv Hkey2. unfold add_rca4.
  rewrite Hbonds, for_each_app.
  destruct (collect_rca4s_pass st2 before [] Hbefore) as [rca4s ->].
  rewrite bind_ret_l. simpl.
  by rewrite (collect_rca4_without_rca4_2 st2 bd rca4s v Hkey Hv Hkey2).
Qed.

(** X3. When the first bond of the second structure that lacks a required
    RCA4 annotation lacks [i_cs_rca4_1], [add_rca4] prints the line with the
    title of the structure and raises the [KeyError]. *)
Lemma add_rca4_without_rca4_1 merge st1 (m1 : list Z) st2 (m2 : list Z)
    (before after : list Bond) (bd : Bond) title :
  bond st2 = before ++ bd :: after →
  Forall (λ bd, ∃ v, dict_get "i_cs_rca4_1" (bproperty bd) = Some v
                     ∧ (truthy v = true →
                        is_Some (dict_get "i_cs_rca4_2" (bproperty bd)))) before →
  dict_get "i_cs_rca4_1" (bproperty bd) = None →
  dict_get "s_m_title" (property st2) = Some title →
  add_rca4 merge st1 m1 st2 m2
  = ([ErrorNoRCA4 title], Raise (KeyError "i_cs_rca4_1")).
Proof.
  intros Hbonds Hbefore Hkey Htitle. unfold add_rca4.
  rewrite Hbonds, for_each_app.
  destruct (collect_rca4s_pass st2 before [] Hbefore) as [rca4s ->].
  rewrite bind_ret_l. simpl.
  by rewrite (collect_rca4_without_rca4_1 st2 bd rca4s title Hkey Htitle).
Qed.
End missing_rca4.

(** On the sample fragments: the bond between atoms 1 and 2 of the second
    fragment has a true [i_cs_rca4_1]; without [i_cs_rca4_2] the whole merge
    raises [KeyError] and nothing is printed, while without [i_cs_rca4_1] it
    raises [KeyError] after the line that names the title. *)
Example merge_without_rca4_on_sample :
  merge_structures_from_matching_atoms fragment_A [2] fragment_B_without_rca4_2 [1]
  = ([], Raise (KeyError "i_cs_rca4_2"))
  ∧ merge_structures_from_matching_atoms fragment_A [2] fragment_B_without_rca4_1 [1]
    = ([ErrorNoRCA4 (VStr "B")], Raise (KeyError "i_cs_rca4_1")).
Proof. split; vm_compute; reflexivity. Qed.

Lemma missing_rca4_2_on_sample :
  add_rca4 fragment_A fragment_A [2] fragment_B_without_rca4_2 [1]
  = ([], Raise (KeyError "i_cs_rca4_2")).
Proof.
  apply (missing_rca4_2_raises_without_title fragment_A fragment_A [2]
           fragment_B_without_rca4_2 [1] [] _ _ (VInt 3)
           eq_refl (Forall_nil_2 _) eq_refl eq_refl eq_refl).
Defined.

(** ** Bonds between two common atoms *)

Lemma for_each_returns_elem {A S} (I : S → Prop) (l : list A) (body : A → S → R S)
    (s s' : S) (x : A) :
  I s →
  (∀ y s1 s2, y ∈ l → I s1 → returns (body y s1) s2 → I s2) →
  returns (for_each l body s) s' →
  x ∈ l →
  ∃ sa sb, I sa ∧ returns (body x sa) sb.
Proof.
  revert s. induction l as [|y l IH]; intros s Hs Hstep; simpl.
  - by intros _ ?%elem_of_nil.
  - intros (s1 & H1 & Hrest)%returns_bind [->|Hx]%elem_of_cons.
    + by exists s, s1.
    + eapply (IH s1); [|by intros; eapply Hstep; [apply elem_of_cons; right|..]|done..].
      eapply Hstep; [apply elem_of_cons; by left|done..].
Qed.

Lemma index_NoDup (x : Z) (l : list Z) (i : nat) :
  NoDup l → l !! i = Some x → index x l = Some i.
Proof.
  revert i. induction l as [|y l IH]; intros i; [done|].
  intros [Hy Hl]%NoDup_cons. destruct i as [|i]; simpl.
  - intros [= ->]. by rewrite decide_True.
  - intros Hi. rewrite decide_False.
    + by rewrite (IH i).
    + intros ->. apply Hy. by eapply list_elem_of_lookup_2.
Qed.

Lemma find_bond_None (a b : Z) (l : list Bond) :
  find_bond a b l = None ↔ Forall (λ bd, joins a b bd = false) l.
Proof.
  induction l as [|bd l IH]; simpl.
  - split; [constructor|done].
  - destruct (joins a b bd) eqn:Hj.
    + split; [done|]. intros [? _]%Forall_cons. congruence.
    + rewrite Forall_cons, <-IH. destruct (find_bond a b l); simpl.
      * split; [done|]. by intros [_ ?].
      * done.
Qed.

Lemma elem_of_bonds_of {coord : Type} (st : @Structure coord) (a : Z) (p : nat) :
  p ∈ bonds_of st a
  ↔ ∃ bd, bond st !! p = Some bd ∧ (atom1 bd = a ∨ atom2 bd = a).
Proof.
  unfold bonds_of. rewrite list_elem_of_fmap. split.
  - intros ([p' bd] & -> & [Hinc Hin]%list_elem_of_filter). simpl in *.
    apply list_elem_of_lookup in Hin as [i Hi].
    apply list_lookup_imap_Some in Hi as (bd' & Hbd & [= -> ->]).
    exists bd'. split; [done|].
    apply orb_true_iff in Hinc. rewrite !Z.eqb_eq in Hinc. done.
  - intros (bd & Hbd & Hinc). exists (p, bd). split; [done|].
    apply list_elem_of_filter. split.
    + simpl. apply orb_true_iff. rewrite !Z.eqb_eq. done.
    + apply list_elem_of_lookup. exists p. apply list_lookup_imap_Some. eauto.
Qed.

Section bond_precondition.
Context {coord : Type}.
Variables struct_1 struct_2 : @Structure coord.
Variables match_1 match_2 : list Z.
Hypothesis wf_1 : well_formed struct_1.
Hypothesis wf_2 : well_formed struct_2.
Hypothesis valid_1 : valid_match struct_1 match_1.
Hypothesis valid_2 : valid_match struct_2 match_2.
Hypothesis distinct_2 : NoDup match_2.

#[local] Abbreviation n := (len_atom struct_1).
#[local] Abbreviation common_2 := ((λ x, x + len_atom struct_1) <$> match_2).
#[local] Abbreviation union := (bond (structure_merge struct_1 struct_2)).
#[local] Abbreviation crosses := (crosses_from struct_1 match_2).
#[local] Abbreviation reconciling := (reconciling_from struct_1 struct_2 match_2).

Lemma reconciling_union : reconciling (structure_merge struct_1 struct_2).
Proof.
  split.
  - intros p b0 Hp. by exists b0.
  - intros p bc Hp Hge. apply lookup_lt_Some in Hp. lia.
Qed.

Lemma reconciling_alter (merge merge' : @Structure coord) (f : Bond → Bond) (q : nat) :
  bond merge' = alter f q (bond merge) →
  (∀ bc, atom1 (f bc) = atom1 bc ∧ atom2 (f bc) = atom2 bc
         ∧ (bproperty bc ≠ [] → bproperty (f bc) ≠ [])) →
  reconciling merge → reconciling merge'.
Proof.
  intros Hbond Hf [Hunion Hextra]. split.
  - intros p b0 Hp. destruct (Hunion p b0 Hp) as (bc & Hbc & He1 & He2 & Hprop).
    rewrite Hbond. destruct (Hf bc) as (Hf1 & Hf2 & Hfp).
    destruct (decide (q = p)) as [->|Hne].
    + rewrite list_lookup_alter_eq, Hbc. exists (f bc). split; [done|].
      split_and!; [congruence..|]. auto.
    + rewrite list_lookup_alter_ne by done. by exists bc.
  - intros p bc. rewrite Hbond. destruct (decide (q = p)) as [->|Hne].
    + rewrite list_lookup_alter_eq.
      destruct (bond merge !! p) as [bc0|] eqn:Hbc0; [|done]. intros [= <-] Hge.
      destruct (Hextra p bc0 Hbc0 Hge) as (? & ? & ?).
      destruct (Hf bc0) as (Hf1 & Hf2 & _). unfold crosses_from. by rewrite Hf1, Hf2.
    + rewrite list_lookup_alter_ne by done. apply Hextra.
Qed.

Lemma reconciling_append (merge merge' : @Structure coord) (bd : Bond) :
  bond merge' = bond merge ++ [bd] →
  crosses bd →
  reconciling merge → reconciling merge'.
Proof.
  intros Hbond Hbd [Hunion Hextra]. split.
  - intros p b0 Hp. destruct (Hunion p b0 Hp) as (bc & Hbc & Hends).
    exists bc. split; [|done]. rewrite Hbond. by apply lookup_app_l_Some.
  - intros p bc. rewrite Hbond. intros [Hp|[_ Hp]]%lookup_app_Some Hge.
    + by eapply Hextra.
    + destruct (p - length (bond merge))%nat; [|done]. by injection Hp as <-.
Qed.

Lemma copy_property_reconciling target kv (merge merge' : @Structure coord) :
  reconciling merge →
  returns (copy_property target kv merge) merge' →
  reconciling merge'.
Proof.
  intros Hrec. unfold copy_property. destruct kv as [k v].
  destruct target as [q|]; [|by intros ?%returns_raise].
  destruct (bond merge !! q) as [bd|]; [|by intros ?%returns_raise].
  case_match; intros <-%returns_ret; [|done].
  eapply reconciling_alter; [reflexivity| |done].
  intros bc. simpl. split_and!; [done..|]. intros _. apply dict_update_nonempty.
Qed.

Lemma copy_properties_reconciling target items (merge merge' : @Structure coord) :
  reconciling merge →
  returns (for_each items (copy_property target) merge) merge' →
  reconciling merge'.
Proof.
  intros Hrec. apply (for_each_returns_ind reconciling); [done|].
  intros kv m1 m2 _. apply copy_property_reconciling.
Qed.

Lemma addBond_reconciling (merge : @Structure coord) (a b o : Z) :
  a ≤ n → n < b → b ∉ common_2 →
  reconciling merge → reconciling (addBond merge a b o).
Proof.
  intros Ha Hb Hnc Hrec. unfold addBond. destruct (getBond merge a b) as [q|].
  - eapply reconciling_alter; [reflexivity| |done]. by intros bc.
  - eapply reconciling_append; [reflexivity| |done]. by split_and!.
Qed.

(** A bond of the union: a bond of the first structure, or a bond of the
    second with its ends shifted. *)
Lemma union_lookup (p : nat) (b0 : Bond) :
  union !! p = Some b0 →
  (bond struct_1 !! p = Some b0 ∧ atom1 b0 ≤ n ∧ atom2 b0 ≤ n)
  ∨ (∃ b, bond struct_2 !! (p - length (bond struct_1))%nat = Some b
          ∧ b0 = shift_bond n b ∧ n < atom1 b0 ∧ n < atom2 b0).
Proof.
  simpl. intros [Hp|[_ Hp]]%lookup_app_Some.
  - left. split; [done|].
    apply list_elem_of_lookup_2 in Hp.
    unfold well_formed in wf_1. rewrite Forall_forall in wf_1.
    specialize (wf_1 b0 Hp). lia.
  - right. apply list_lookup_fmap_Some in Hp as (b & -> & Hb).
    exists b. split_and!; [done..| |].
    all: apply list_elem_of_lookup_2 in Hb.
    all: unfold well_formed in wf_2; rewrite Forall_forall in wf_2.
    all: specialize (wf_2 b Hb); simpl; lia.
Qed.

Lemma common_2_above (c2 : Z) : c2 ∈ common_2 → n < c2.
Proof.
  intros (x & -> & Hx)%list_elem_of_fmap.
  unfold valid_match in valid_2. rewrite Forall_forall in valid_2.
  specialize (valid_2 x Hx). lia.
Qed.

(** In the working structure, a bond attached to a common atom of the second
    structure is a bond of the second structure. *)
Lemma incident_is_shifted (merge : @Structure coord) (c2 : Z) (p : nat) (bd : Bond) :
  reconciling merge → c2 ∈ common_2 →
  bond merge !! p = Some bd → atom1 bd = c2 ∨ atom2 bd = c2 →
  ∃ b0, union !! p = Some b0 ∧ n < atom1 b0 ∧ n < atom2 b0.
Proof.
  intros [Hunion Hextra] Hc2 Hbd Hinc.
  pose proof (common_2_above c2 Hc2) as Habove.
  destruct (decide (p < length union)%nat) as [Hlt|Hge].
  - destruct (lookup_lt_is_Some_2 _ _ Hlt) as [b0 Hb0].
    destruct (Hunion p b0 Hb0) as (bc & Hbc & He1 & He2 & _).
    assert (bc = bd) as -> by congruence.
    exists b0. split; [done|].
    destruct (union_lookup p b0 Hb0) as [(_ & ? & ?)|(b & _ & _ & ? & ?)]; [lia|done].
  - destruct (Hextra p bd Hbd) as (? & ? & Hnc); [lia|].
    destruct Hinc as [Hinc|Hinc]; [lia|]. by rewrite Hinc in Hnc.
Qed.

Lemma counterpart_returns (cs1 cs2 : list Z) (a y : Z) :
  returns (counterpart cs1 cs2 a) y →
  ∃ i, index a cs2 = Some i ∧ cs1 !! i = Some y.
Proof.
  unfold counterpart, list_item. destruct (index a cs2) as [i|];
    [|by intros ?%returns_raise].
  destruct (cs1 !! i) as [y'|] eqn:Hy; [|by intros ?%returns_raise].
  intros <-%returns_ret. by exists i.
Qed.

Lemma reconcile_bond_reconciling (merge merge' : @Structure coord) (c2 : Z) (p : nat)
    (b0 : Bond) :
  reconciling merge →
  union !! p = Some b0 → n < atom1 b0 → n < atom2 b0 →
  returns (reconcile_bond match_1 common_2 c2 p merge) merge' →
  reconciling merge'.
Proof.
  intros Hrec Hb0 Ha1 Ha2. unfold reconcile_bond.
  destruct (proj1 Hrec p b0 Hb0) as (bc & -> & He1 & He2 & _).
  intros (a1 & (i & _ & Hi)%counterpart_returns & Hrun)%returns_bind.
  case_bool_decide as Hcommon.
  - apply returns_bind in Hrun as (a2 & _ & Hrun).
    by eapply copy_properties_reconciling.
  - eapply copy_properties_reconciling; [|exact Hrun].
    apply addBond_reconciling; [| |done|done].
    + apply list_elem_of_lookup_2 in Hi.
      unfold valid_match in valid_1. rewrite Forall_forall in valid_1.
      specialize (valid_1 a1 Hi). lia.
    + unfold other_end. case_match; lia.
Qed.

(** One step of the loop over the bonds of a common atom [c2], the bonds
    having been listed in the structure [listed]. *)
Lemma reconcile_bond_step (listed m1 m2 : @Structure coord) (c2 : Z) (p : nat) :
  c2 ∈ common_2 →
  reconciling listed →
  p ∈ bonds_of listed c2 →
  reconciling m1 →
  returns (reconcile_bond match_1 common_2 c2 p m1) m2 →
  reconciling m2.
Proof.
  intros Hc2 Hrec (bd & Hbd & Hinc)%elem_of_bonds_of Hm1.
  destruct (incident_is_shifted listed c2 p bd Hrec Hc2 Hbd Hinc)
    as (b0 & Hb0 & ? & ?).
  by eapply reconcile_bond_reconciling.
Qed.

Lemma reconcile_bonds_step (merge merge' : @Structure coord) (c1 c2 : Z) :
  (c1, c2) ∈ zip match_1 common_2 →
  reconciling merge →
  returns (for_each (bonds_of merge c2)
             (reconcile_bond match_1 common_2 c2) merge) merge' →
  reconciling merge'.
Proof.
  intros Hc2%elem_of_zip_r Hrec. apply (for_each_returns_ind reconciling); [done|].
  intros p m1 m2 Hp Hm1. by apply (reconcile_bond_step merge).
Qed.

(** No bond of the working structure joins two atoms of the first structure
    that are not bonded there. *)
Lemma getBond_reconciling (merge : @Structure coord) (a1 a2 : Z) :
  reconciling merge →
  a1 ≤ n → a2 ≤ n →
  getBond struct_1 a1 a2 = None →
  getBond merge a1 a2 = None.
Proof.
  intros [Hunion Hextra] Ha1 Ha2 Hnone. unfold getBond in *.
  apply find_bond_None, Forall_lookup_2. intros p bc Hbc.
  destruct (decide (p < length union)%nat) as [Hlt|Hge].
  - destruct (lookup_lt_is_Some_2 _ _ Hlt) as [b0 Hb0].
    destruct (Hunion p b0 Hb0) as (bc' & Hbc' & He1 & He2 & _).
    assert (bc' = bc) as -> by congruence.
    unfold joins. rewrite He1, He2.
    destruct (union_lookup p b0 Hb0) as [(Hs1 & _)|(b & _ & _ & ? & ?)].
    + rewrite find_bond_None, Forall_lookup in Hnone. exact (Hnone p b0 Hs1).
    + apply orb_false_iff. split; apply andb_false_iff; left; apply Z.eqb_neq; lia.
  - destruct (Hextra p bc Hbc) as (? & ? & _); [lia|].
    unfold joins. apply orb_false_iff.
    split; apply andb_false_iff; right; apply Z.eqb_neq; lia.
Qed.

(** With no target bond, the annotation loop ends without an exception only
    when there is no annotation to copy. *)
Lemma copy_properties_no_target items (merge merge' : @Structure coord) :
  returns (for_each items (copy_property None) merge) merge' → items = [].
Proof.
  destruct items as [|[k v] items]; [done|]. simpl.
  by intros (? & ?%returns_raise & _)%returns_bind.
Qed.

Lemma add_rca4_returns_keys (merge merge' : @Structure coord) (bd : Bond) :
  returns (add_rca4 merge struct_1 match_1 struct_2 match_2) merge' →
  bd ∈ bond struct_2 →
  is_Some (dict_get "i_cs_rca4_1" (bproperty bd)).
Proof.
  unfold add_rca4. intros (rca4s & Hcollect & _)%returns_bind Hbd.
  destruct (for_each_returns_elem (λ _, True) _ _ _ _ bd I (λ _ _ _ _ _ _, I)
              Hcollect Hbd) as (sa & sb & _ & Hone).
  by eapply collect_rca4_returns.
Qed.
(** C10. Let the structures be well formed and the matches name atoms of
    their structures, [match_2] without repeated indices.  If a bond of the
    second structure joins two common atoms, [match_2[i]] and [match_2[j]], and
    the first structure has no bond between [match_1[i]] and [match_1[j]], then
    [merge_structures_from_matching_atoms] raises: the missing bond is neither
    created nor skipped. *)
Theorem common_bond_must_exist (b : Bond) (i j : nat) (a1 a2 : Z) :
  b ∈ bond struct_2 →
  match_2 !! i = Some (atom1 b) → match_2 !! j = Some (atom2 b) →
  match_1 !! i = Some a1 → match_1 !! j = Some a2 →
  getBond struct_1 a1 a2 = None →
  raises (merge_structures_from_matching_atoms struct_1 match_1 struct_2 match_2).
Proof.
  intros Hb Hi2 Hj2 Hi1 Hj1 Hnone.
  destruct (returns_or_raises
              (merge_structures_from_matching_atoms struct_1 match_1 struct_2 match_2))
    as [[merged Hrun]|]; [exfalso|done].
  revert Hrun. unfold merge_structures_from_matching_atoms.
  intros (cs2 & [-> _]%atom_items_returns & Hrun)%returns_bind.
  apply returns_bind in Hrun as (cs1 & [-> _]%atom_items_returns & Hrun).
  apply returns_bind in Hrun as (merge1 & Hloop & Hrun).
  apply returns_bind in Hrun as (merge2 & Hadd & _).
  (* the bond carries an annotation, or [add_rca4] would have raised *)
  assert (bproperty b ≠ []) as Hannotated.
  { destruct (add_rca4_returns_keys _ _ b Hadd Hb) as [v Hv].
    intros Hnil. by rewrite Hnil in Hv. }
  (* the iteration of the outer loop for the common atom [match_2[i]] *)
  set (c2 := atom1 b + n).
  assert (common_2 !! i = Some c2) as Hi by (by rewrite list_lookup_fmap, Hi2).
  assert (common_2 !! j = Some (atom2 b + n)) as Hj
    by (by rewrite list_lookup_fmap, Hj2).
  assert ((a1, c2) ∈ zip match_1 common_2) as Hpair.
  { apply (list_elem_of_lookup_2 _ i). by apply lookup_zip_Some. }
  assert (c2 ∈ common_2) as Hc2 by (by eapply list_elem_of_lookup_2).
  unfold reconcile_bonds in Hloop.
  assert (∃ m_a m_z,
            reconciling m_a
            ∧ returns (for_each (bonds_of m_a c2)
                         (reconcile_bond match_1 common_2 c2) m_a) m_z)
    as (m_a & m_z & Hrec_a & Hinner).
  { eapply (for_each_returns_elem reconciling _ _ _ _ (a1, c2)) in Hloop;
      [exact Hloop|apply reconciling_union| |done].
    intros [c1' c2'] m1 m2. apply reconcile_bonds_step. }
  (* the bond [b] in the working structure *)
  apply list_elem_of_lookup_1 in Hb as [k Hk].
  set (p := (length (bond struct_1) + k)%nat).
  assert (union !! p = Some (shift_bond n b)) as Hp.
  { simpl. rewrite lookup_app_r by lia.
    replace (p - length (bond struct_1))%nat with k by lia.
    by rewrite list_lookup_fmap, Hk. }
  assert (p ∈ bonds_of m_a c2) as Hp_in.
  { apply elem_of_bonds_of.
    destruct (proj1 Hrec_a p _ Hp) as (bc & Hbc & He1 & _).
    exists bc. split; [done|]. left. by rewrite He1. }
  assert (∃ m_b m_c,
            reconciling m_b
            ∧ returns (reconcile_bond match_1 common_2 c2 p m_b) m_c)
    as (m_b & m_c & Hrec_b & Hbond).
  { eapply (for_each_returns_elem reconciling _ _ _ _ p) in Hinner;
      [exact Hinner|done| |done].
    intros q m1 m2 Hq. by apply (reconcile_bond_step m_a). }
  (* its target is the bond between [match_1[i]] and [match_1[j]] *)
  revert Hbond. unfold reconcile_bond.
  destruct (proj1 Hrec_b p _ Hp) as (bc & -> & He1 & He2 & Hkept).
  simpl in He1, He2, Hkept.
  unfold other_end. rewrite He1, He2. fold c2. rewrite Z.eqb_refl.
  assert (NoDup common_2) as Hnd.
  { apply NoDup_fmap_2; [|done]. intros x y Hxy. lia. }
  unfold counterpart. rewrite (index_NoDup _ _ _ Hnd Hi).
  unfold list_item. rewrite Hi1, bind_ret_l.
  rewrite bool_decide_eq_true_2 by (by eapply list_elem_of_lookup_2).
  rewrite (index_NoDup _ _ _ Hnd Hj), Hj1, bind_ret_l.
  rewrite getBond_reconciling; [|done| | |done].
  - intros Hcopy%copy_properties_no_target. by apply Hkept.
  - apply list_elem_of_lookup_2 in Hi1.
    unfold valid_match in valid_1. rewrite Forall_forall in valid_1.
    specialize (valid_1 a1 Hi1). lia.
  - apply list_elem_of_lookup_2 in Hj1.
    unfold valid_match in valid_1. rewrite Forall_forall in valid_1.
    specialize (valid_1 a2 Hj1). lia.
Qed.
End bond_precondition.

Lemma common_bond_must_exist_on_sample :
  raises (merge_structures_from_matching_atoms fragment_A [2; 3] fragment_E [1; 2]).
Proof.
  apply (common_bond_must_exist fragment_A fragment_E [2; 3] [1; 2])
    with (b := {| atom1 := 1; atom2 := 2; order := 1; bproperty := no_rca4 |})
         (i := 0%nat) (j := 1%nat) (a1 := 2) (a2 := 3).
  - unfold well_formed. compute_done.
  - unfold well_formed. compute_done.
  - unfold valid_match. compute_done.
  - unfold valid_match. compute_done.
  - compute_done.
  - apply list_elem_of_here.
  - reflexivity.
  - reflexivity.
  - reflexivity.
  - reflexivity.
  - reflexivity.
Defined.

(** On this input the exception is the [AttributeError] of the annotation
    copy on a bond that is not there. *)
Example missing_common_bond_on_sample :
  merge_structures_from_matching_atoms fragment_A [2; 3] fragment_E [1; 2]
  = ([], Raise AttributeError).
Proof. vm_compute. reflexivity. Qed.

Lemma bond_annotation_merge_idempotent_on_sample :
  ∃ once twice bd1 bd2,
    for_each [("i_cs_rca4_1", VInt 7); ("s_cs_note", VStr "kept")]
      (copy_property (Some 0%nat)) fragment_B = ret once
    ∧ for_each [("i_cs_rca4_1", VInt 7); ("s_cs_note", VStr "kept")]
        (copy_property (Some 0%nat)) once = ret twice
    ∧ bond once !! 0%nat = Some bd1
    ∧ bond twice !! 0%nat = Some bd2
    ∧ ∀ k, dict_get k (bproperty bd2) = dict_get k (bproperty bd1).
Proof.
  apply (bond_annotation_merge_idempotent fragment_B 0
           {| atom1 := 1; atom2 := 2; order := 1;
              bproperty := [("i_cs_rca4_1", VInt 3); ("i_cs_rca4_2", VInt 4)] |}).
  - reflexivity.
  - unfold dict_keys. compute_done.
Defined.

Lemma translate_index_renumber_on_sample :
  translate_index 3 [2] [1] 4 = ret (renumber [4] 7).
Proof.
  apply (translate_index_renumber 3 [2] [1] 4 (NoDup_singleton 1)).
  intros [=]%list_elem_of_singleton.
Defined.

Lemma add_rca4_without_rca4_1_on_sample :
  add_rca4 fragment_A fragment_A [2] fragment_B_without_rca4_1 [1]
  = ([ErrorNoRCA4 (VStr "B")], Raise (KeyError "i_cs_rca4_1")).
Proof.
  apply (add_rca4_without_rca4_1 fragment_A fragment_A [2] fragment_B_without_rca4_1 [1]
           [] _ _ (VStr "B") eq_refl (Forall_nil_2 _) eq_refl eq_refl).
Defined.

Lemma merged_title_on_sample :
  ∃ merged,
    returns (merge_structures_from_matching_atoms fragment_A [2] fragment_B [1]) merged
    ∧ dict_get "s_m_title" (property merged) = Some (VStr "A_B").
Proof.
  eexists. split; [vm_compute; reflexivity|].
  apply (merged_title fragment_A fragment_B _ [2] [1] "A" "B" eq_refl eq_refl).
  vm_compute. reflexivity.
Defined.

(** ** More on finding the common atoms *)

Section more_common_atoms.
Context {coord : Type} {tk : Toolkit coord}.
Implicit Types st : @Structure coord.

(** A catalog either has no pattern that matches the structure, or splits at
    the first one that does. *)
Lemma first_match_split st (patterns : list Value) :
  Forall (λ q, matches_of st q = []) patterns
  ∨ ∃ before pattern after,
      patterns = before ++ pattern :: after
      ∧ Forall (λ q, matches_of st q = []) before
      ∧ matches_of st pattern ≠ [].
Proof.
  induction patterns as [|q patterns IH]; [by left|].
  destruct (decide (matches_of st q = [])) as [Hq|Hq].
  - destruct IH as [Hall|(before & pattern & after & -> & Hbefore & Hpattern)].
    + left. by constructor.
    + right. exists (q :: before), pattern, after. split_and!; [done| |done].
      by constructor.
  - right. exists [], q, patterns. split_and!; [done| |done]. constructor.
Qed.

(** The part of [get_overlapping_atoms_in_both] after the loop, when the loop
    has assigned both local variables. *)
Lemma overlapping_after_loop (struct_1 struct_2 : @Structure coord)
    (out : list Msg) (m1 m2 : list (list Z)) :
  check_patterns struct_1 struct_2 (search_dic_keys (property struct_2) "pattern")
    (None, None) = (out, Ok (Some m1, Some m2)) →
  get_overlapping_atoms_in_both struct_1 struct_2 = (out, Ok (m1, m2)).
Proof.
  intros Hloop. unfold get_overlapping_atoms_in_both. rewrite Hloop.
  unfold bind, try_except, read_local, ret. simpl. by rewrite !app_nil_r.
Qed.

(** X5. Whenever [get_overlapping_atoms_in_both] returns, the match set of
    the first structure is not empty, and both match sets are the matches of
    one pattern of the catalog of the second structure: the first pattern, in
    catalog order, that matches the first structure. *)
Theorem overlapping_atoms_of_first_match (struct_1 struct_2 : @Structure coord)
    (match_1s match_2s : list (list Z)) :
  returns (get_overlapping_atoms_in_both struct_1 struct_2) (match_1s, match_2s) →
  match_1s ≠ []
  ∧ ∃ before pattern after,
      search_dic_keys (property struct_2) "pattern" = before ++ pattern :: after
      ∧ Forall (λ q, matches_of struct_1 q = []) before
      ∧ match_1s = matches_of struct_1 pattern
      ∧ match_2s = matches_of struct_2 pattern.
Proof.
  intros Hrun.
  destruct (first_match_split struct_1 (search_dic_keys (property struct_2) "pattern"))
    as [Hall|(before & pattern & after & Hcatalog & Hbefore & Hpattern)].
  - revert Hrun. unfold get_overlapping_atoms_in_both.
    rewrite (check_patterns_no_match _ _ _ _ Hall). unfold getitem.
    destruct (search_dic_keys (property struct_2) "pattern"),
      (dict_get "s_m_title" (property struct_1)) as [t1|],
      (dict_get "s_m_title" (property struct_2)) as [t2|]; by intros [=].
  - rewrite (overlapping_after_loop struct_1 struct_2 _ _ _
               ltac:(rewrite Hcatalog; by apply check_patterns_selects)) in Hrun.
    injection Hrun as <- <-. split; [done|]. by exists before, pattern, after.
Qed.

(** X6. When the first pattern of the catalog that matches the first
    structure has no match in the second structure, [merge] yields no
    structure and raises nothing; it leaves the store as it is, and the
    patterns after that one are not tried, whether they match both structures
    or not. *)
Theorem merge_without_match_in_second (struct_1 struct_2 : nat)
    (h : list (@Structure coord)) st_1 st_2 (before after : list Value)
    (pattern : Value) :
  h !! struct_1 = Some st_1 → h !! struct_2 = Some st_2 →
  search_dic_keys (property st_2) "pattern" = before ++ pattern :: after →
  Forall (λ q, matches_of st_1 q = []) before →
  matches_of st_1 pattern ≠ [] →
  matches_of st_2 pattern = [] →
  merge struct_1 struct_2 h = (Checking <$> (before ++ [pattern]), Ok ([], h)).
Proof.
  intros Hr1 Hr2 Hcatalog Hbefore Hpattern Hnone. unfold merge, deref.
  rewrite Hr1, Hr2, !bind_ret_l.
  rewrite (overlapping_after_loop st_1 st_2 _ _ _
             ltac:(rewrite Hcatalog; by apply check_patterns_selects)), Hnone.
  assert (∀ (l : list (list Z)) s,
            for_each l (λ match_1, for_each [] (merge_pair struct_1 struct_2 match_1)) s
            = ret s) as Hloop.
  { induction l as [|m l IH]; intros s; simpl; [done|]. by rewrite bind_ret_l. }
  unfold bind. rewrite Hloop. unfold ret. by rewrite app_nil_r.
Qed.

(** X7. When no pattern of the catalog matches the first structure and one
    of the two structures has no [s_m_title], the line that names the titles
    is not printed and the exception is the [KeyError] of the title, not the
    [UnboundLocalError]. *)
Theorem missing_title_hides_the_diagnostic (struct_1 struct_2 : @Structure coord) :
  Forall (λ q, matches_of struct_1 q = [])
         (search_dic_keys (property struct_2) "pattern") →
  dict_get "s_m_title" (property struct_1) = None
  ∨ dict_get "s_m_title" (property struct_2) = None →
  get_overlapping_atoms_in_both struct_1 struct_2
  = (Checking <$> search_dic_keys (property struct_2) "pattern",
     Raise (KeyError "s_m_title")).
Proof.
  intros Hall Htitle. unfold get_overlapping_atoms_in_both.
  rewrite (check_patterns_no_match _ _ _ _ Hall). unfold getitem.
  destruct (search_dic_keys (property struct_2) "pattern") as [|q l];
    destruct (dict_get "s_m_title" (property struct_1)) as [t1|],
      (dict_get "s_m_title" (property struct_2)) as [t2|];
    try (by destruct Htitle);
    unfold bind, try_except, read_local, ret, raise, print; simpl;
    by rewrite ?app_nil_r.
Qed.
End more_common_atoms.

(** ** The atoms of the merged structure, one by one *)

Section atoms_one_by_one.
Context {coord : Type}.
Implicit Types st merge : @Structure coord.
Implicit Types l : list (@Atom coord).

Lemma delete_from_app (del : list Z) (i : Z) l1 l2 :
  delete_from del i (l1 ++ l2)
  = delete_from del i l1 ++ delete_from del (i + Z.of_nat (length l1)) l2.
Proof.
  revert i. induction l1 as [|a l1 IH]; intros i.
  - simpl. by rewrite Z.add_0_r.
  - cbn [app delete_from length]. rewrite IH.
    replace (i + 1 + Z.of_nat (length l1)) with (i + Z.of_nat (S (length l1))) by lia.
    by destruct (decide (i ∈ del)).
Qed.

Lemma delete_from_outside (del : list Z) (i : Z) l :
  Forall (λ d, d < i ∨ i + Z.of_nat (length l) ≤ d) del →
  delete_from del i l = l.
Proof.
  revert i. induction l as [|a l IH]; intros i Hdel; [done|].
  cbn [delete_from]. rewrite decide_False.
  - f_equal. apply IH. eapply Forall_impl; [exact Hdel|].
    intros d. cbn [length]. lia.
  - intros Hi. rewrite Forall_forall in Hdel. specialize (Hdel i Hi).
    cbn [length] in Hdel. lia.
Qed.

Lemma delete_from_shift (n : Z) (del : list Z) (i : Z) l :
  delete_from ((λ x, x + n) <$> del) (i + n) l = delete_from del i l.
Proof.
  revert i. induction l as [|a l IH]; intros i; [done|].
  cbn [delete_from]. replace (i + n + 1) with (i + 1 + n) by lia. rewrite IH.
  destruct (decide (i ∈ del)) as [Hi|Hi].
  - rewrite decide_True; [done|]. apply list_elem_of_fmap. eauto.
  - rewrite decide_False; [done|].
    intros (x & Hx & Hin)%list_elem_of_fmap. by replace i with x in Hi by lia.
Qed.

(** Where an atom that survives a deletion stands afterwards. *)
Lemma delete_from_lookup (del : list Z) (i0 : Z) l (k : nat) :
  i0 + Z.of_nat k ∉ del →
  delete_from del i0 l !! length (filter (λ j, j ∉ del) (seqZ i0 (Z.of_nat k)))
  = l !! k.
Proof.
  revert i0 k. induction l as [|a l IH]; intros i0 k Hk.
  - by rewrite !lookup_nil.
  - destruct k as [|k].
    + simpl. rewrite Z.add_0_r in Hk. by rewrite decide_False.
    + rewrite seqZ_cons by lia.
      replace (Z.pred (Z.of_nat (S k))) with (Z.of_nat k) by lia.
      replace (Z.succ i0) with (i0 + 1) by lia.
      rewrite filter_cons. cbn [delete_from].
      destruct (decide (i0 ∈ del)) as [Hi|Hi].
      * rewrite decide_False by tauto. apply IH.
        by replace (i0 + 1 + Z.of_nat k) with (i0 + Z.of_nat (S k)) by lia.
      * rewrite decide_True by done. simpl. apply IH.
        by replace (i0 + 1 + Z.of_nat k) with (i0 + Z.of_nat (S k)) by lia.
Qed.

(** The atoms that survive below an index, against the count of [renumber]. *)
Lemma survivors_below (del : list Z) (i : Z) :
  Forall (λ d, 1 ≤ d) del → 1 ≤ i →
  Z.of_nat (length (filter (λ j, j ∉ del) (seqZ 1 (i - 1)))) = renumber del i - 1.
Proof.
  intros Hdel Hi. unfold renumber, count.
  pose proof (filter_complement_length (λ j, j ∈ del) (seqZ 1 (i - 1))) as Hsum.
  rewrite length_seqZ in Hsum.
  assert (filter (λ j, j ∈ del) (seqZ 1 (i - 1))
          ≡ₚ filter (λ j, (j <? i) = true) (remove_dups del)) as Hperm.
  { apply NoDup_Permutation.
    - apply NoDup_filter, NoDup_seqZ.
    - apply NoDup_filter, NoDup_remove_dups.
    - intros d. rewrite !list_elem_of_filter, elem_of_seqZ, elem_of_remove_dups, Z.ltb_lt.
      split; [intros [? ?]; split; [lia|done]|].
      intros [? Hd]. split; [done|].
      rewrite Forall_forall in Hdel. specialize (Hdel d Hd). lia. }
  rewrite Hperm in Hsum. unfold not in *. lia.
Qed.

Lemma atom_at_deleted (del : list Z) (atoms : list (@Atom coord)) st st' (i : Z) :
  atom st = atoms → atom st' = delete_from del 1 atoms →
  Forall (λ d, 1 ≤ d) del → 1 ≤ i → i ∉ del →
  atom_at st' (renumber del i) = atom_at st i.
Proof.
  intros Hst Hst' Hdel Hi Hnot. unfold atom_at.
  pose proof (survivors_below del i Hdel Hi) as Hpos.
  rewrite !decide_True by lia. rewrite Hst, Hst'.
  replace (Z.to_nat (renumber del i - 1))
    with (length (filter (λ j, j ∉ del) (seqZ 1 (Z.of_nat (Z.to_nat (i - 1)))))).
  - apply delete_from_lookup. by replace (1 + Z.of_nat (Z.to_nat (i - 1))) with i by lia.
  - rewrite Z2Nat.id by lia. lia.
Qed.

(** The atoms of the structure a merge returns, from the run itself. *)
Lemma merged_atoms_deleted (A B merged : @Structure coord) (match_1 match_2 : list Z) :
  returns (merge_structures_from_matching_atoms A match_1 B match_2) merged →
  atom merged
  = delete_from ((λ x, x + len_atom A) <$> match_2) 1 (atom A ++ atom B).
Proof.
  unfold merge_structures_from_matching_atoms.
  intros (cs2 & [-> Hcs2]%atom_items_returns & Hrun)%returns_bind.
  apply returns_bind in Hrun as (cs1 & _ & Hrun).
  apply returns_bind in Hrun as (merge1 & Hatom1%reconcile_bonds_atom & Hrun).
  apply returns_bind in Hrun as (merge2 & Hatom2%add_rca4_atom & Hrun).
  apply returns_bind in Hrun as (d1 & _ & Hrun).
  apply returns_bind in Hrun as (d2 & _ & <-%returns_ret).
  simpl. rewrite Hatom2. simpl. by rewrite Hatom1.
Qed.

(** X8. The atoms of the merged structure are the atoms of the first
    structure, in order, followed by the atoms of the second structure whose
    index is not in [match_2], in order. *)
Theorem merged_atoms (A B merged : @Structure coord) (match_1 match_2 : list Z) :
  valid_match B match_2 →
  returns (merge_structures_from_matching_atoms A match_1 B match_2) merged →
  atom merged = atom A ++ delete_from match_2 1 (atom B).
Proof.
  intros Hvalid Hrun. rewrite (merged_atoms_deleted _ _ _ _ _ Hrun).
  rewrite delete_from_app, delete_from_outside.
  - f_equal. apply (delete_from_shift (len_atom A)).
  - apply Forall_fmap. eapply Forall_impl; [exact Hvalid|].
    intros x. unfold len_atom. simpl. lia.
Qed.

(** X9. The RCA4 translation names the right atoms of the merged structure.
    For an atom of the second structure that is not common, the translated
    index names that very atom in the merged structure; for the common atom
    [match_2[i]], the translated index is [match_1[i]] and names the atom the
    first structure has there. *)
Theorem translated_index_names_the_atom (A B merged : @Structure coord)
    (match_1 match_2 : list Z) :
  valid_match A match_1 → valid_match B match_2 → NoDup match_2 →
  returns (merge_structures_from_matching_atoms A match_1 B match_2) merged →
  (∀ x a, x ∉ match_2 → atom_at B x = Some a →
     ∃ y, translate_index (len_atom A) match_1 match_2 x = ret y
          ∧ atom_at merged y = Some a)
  ∧ (∀ i x y, match_2 !! i = Some x → match_1 !! i = Some y →
       translate_index (len_atom A) match_1 match_2 x = ret y
       ∧ atom_at merged y = atom_at A y
       ∧ is_Some (atom_at A y)).
Proof.
  intros Hvalid1 Hvalid2 Hnd Hrun.
  pose proof (merged_atoms_deleted _ _ _ _ _ Hrun) as Hatoms.
  assert (Forall (λ d, len_atom A < d) ((λ x, x + len_atom A) <$> match_2)) as Habove.
  { apply Forall_fmap. eapply Forall_impl; [exact Hvalid2|]. intros x. simpl. lia. }
  assert (Forall (λ d, 1 ≤ d) ((λ x, x + len_atom A) <$> match_2)) as Hdel.
  { eapply Forall_impl; [exact Habove|]. intros x. unfold len_atom. lia. }
  split.
  - intros x a Hx Ha. eexists. split.
    { unfold translate_index. rewrite decide_False by done. reflexivity. }
    assert (1 ≤ x) as Hx1 by (unfold atom_at in Ha; by case_decide).
    assert (NoDup ((λ x, x + len_atom A) <$> match_2)) as Hnd2.
    { apply NoDup_fmap_2; [|done]. intros u v Huv. lia. }
    rewrite <-(remove_dups_NoDup _ Hnd2).
    fold (renumber ((λ x, x + len_atom A) <$> match_2) (x + len_atom A)).
    rewrite (atom_at_deleted _ _ (structure_merge A B) merged _ eq_refl Hatoms Hdel).
    + rewrite <-Ha. unfold atom_at, len_atom. rewrite !decide_True by lia. simpl.
      rewrite lookup_app_r by lia. f_equal. lia.
    + unfold len_atom. lia.
    + intros (x' & Hx' & Hin)%list_elem_of_fmap. by replace x with x' in Hx by lia.
  - intros i x y Hi2 Hi1.
    assert (1 ≤ y ≤ len_atom A) as Hy.
    { unfold valid_match in Hvalid1. rewrite Forall_forall in Hvalid1.
      apply Hvalid1. by eapply list_elem_of_lookup_2. }
    split_and!.
    + unfold translate_index. rewrite decide_True by (by eapply list_elem_of_lookup_2).
      rewrite (index_NoDup _ _ _ Hnd Hi2). unfold list_item. by rewrite Hi1.
    + unfold atom_at. rewrite !decide_True by lia. rewrite Hatoms.
      rewrite delete_from_app, delete_from_outside.
      * unfold len_atom in Hy. by rewrite lookup_app_l by lia.
      * eapply Forall_impl; [exact Habove|]. intros d. unfold len_atom. lia.
    + unfold atom_at. rewrite decide_True by lia. apply lookup_lt_is_Some.
      unfold len_atom in Hy. lia.
Qed.
End atoms_one_by_one.

(** ** The bonds of the merged structure *)

Lemma for_each_returns_split {A S} (l : list A) (body : A → S → R S) (s s' : S) (x : A) :
  returns (for_each l body s) s' → x ∈ l →
  ∃ l1 l2 sa sb,
    l = l1 ++ x :: l2
    ∧ returns (for_each l1 body s) sa
    ∧ returns (body x sa) sb
    ∧ returns (for_each l2 body sb) s'.
Proof.
  intros Hrun (l1 & l2 & ->)%list_elem_of_split.
  rewrite for_each_app in Hrun. apply returns_bind in Hrun as (sa & Hl1 & Hrun).
  simpl in Hrun. apply returns_bind in Hrun as (sb & Hx & Hl2).
  by exists l1, l2, sa, sb.
Qed.

Lemma find_bond_Some (a b : Z) (l : list Bond) (q : nat) :
  find_bond a b l = Some q → ∃ bd, l !! q = Some bd ∧ joins a b bd = true.
Proof.
  revert q. induction l as [|bd l IH]; intros q; simpl; [done|].
  destruct (joins a b bd) eqn:Hj.
  - intros [= <-]. by exists bd.
  - destruct (find_bond a b l) as [q'|]; [|done]. simpl. intros [= <-].
    by apply IH.
Qed.

Lemma fmap_alter_id {A B} (g : A → B) (f : A → A) (p : nat) (l : list A) :
  (∀ x, g (f x) = g x) → g <$> alter f p l = g <$> l.
Proof.
  intros Hgf. apply list_eq. intros i. rewrite !list_lookup_fmap.
  destruct (decide (p = i)) as [->|Hne].
  - rewrite list_lookup_alter_eq. destruct (l !! i); simpl; [|done]. by rewrite Hgf.
  - by rewrite list_lookup_alter_ne.
Qed.

Lemma filter_lookup_prefix {A} (P : A → Prop) `{!∀ x, Decision (P x)} (l : list A) (p : nat) :
  (∀ q x, (q ≤ p)%nat → l !! q = Some x → P x) →
  filter P l !! p = l !! p.
Proof.
  revert p. induction l as [|a l IH]; intros p Hall; [done|].
  rewrite filter_cons, decide_True by (apply (Hall 0%nat); [lia|done]).
  destruct p as [|p]; [done|]. simpl. apply IH.
  intros q x Hq Hx. apply (Hall (S q)); [lia|done].
Qed.

Lemma renumber_below (del : list Z) (i : Z) :
  Forall (λ d, i ≤ d) del → renumber del i = i.
Proof.
  intros Hdel. unfold renumber, count.
  assert (filter (λ j, (j <? i) = true) (remove_dups del) = []) as ->; [|simpl; lia].
  apply elem_of_nil_inv. intros d [Hlt Hd]%list_elem_of_filter.
  apply (proj1 (elem_of_remove_dups _ _)) in Hd. rewrite Forall_forall in Hdel. specialize (Hdel d Hd). apply Z.ltb_lt in Hlt. lia.
Qed.

Section skeletons.
Context {coord : Type}.
Implicit Types st merge : @Structure coord.

Lemma copy_property_skeleton target kv merge merge' :
  returns (copy_property target kv merge) merge' →
  skeleton <$> bond merge' = skeleton <$> bond merge.
Proof.
  unfold copy_property. destruct kv as [k v], target as [p|]; [|by intros ?%returns_raise].
  destruct (bond merge !! p); [|by intros ?%returns_raise].
  case_match; intros <-%returns_ret; [|done]. simpl. by apply fmap_alter_id.
Qed.

Lemma copy_properties_skeleton target items merge merge' :
  returns (for_each items (copy_property target) merge) merge' →
  skeleton <$> bond merge' = skeleton <$> bond merge.
Proof.
  apply (for_each_returns_ind (λ m, skeleton <$> bond m = skeleton <$> bond merge));
    [done|].
  intros kv m1 m2 _ <-. apply copy_property_skeleton.
Qed.

Lemma update_rca4_skeleton rca4 merge merge' :
  returns (update_rca4 rca4 merge) merge' →
  skeleton <$> bond merge' = skeleton <$> bond merge.
Proof.
  unfold update_rca4.
  intros (a1 & _ & (a2 & _ & Hrest)%returns_bind)%returns_bind.
  destruct (getBond merge a1 a2) as [q|]; [|by apply returns_raise in Hrest].
  destruct (bond merge !! q) as [bd|]; [|by apply returns_raise in Hrest].
  apply returns_bind in Hrest as (? & _ & Hrest).
  apply returns_bind in Hrest as (? & _ & Hrest).
  apply returns_bind in Hrest as (r1 & _ & Hrest).
  apply returns_bind in Hrest as (r2 & _ & Hrest).
  apply returns_bind in Hrest as (? & _ & Hrest).
  apply returns_bind in Hrest as (? & _ & Hrest).
  apply returns_ret in Hrest as <-. simpl. by apply fmap_alter_id.
Qed.

Lemma add_rca4_skeleton merge struct_1 match_1 struct_2 match_2 merge' :
  returns (add_rca4 merge struct_1 match_1 struct_2 match_2) merge' →
  skeleton <$> bond merge' = skeleton <$> bond merge.
Proof.
  unfold add_rca4.
  intros (rca4s & _ & (new_rca4s & _ & Hrest)%returns_bind)%returns_bind.
  revert Hrest.
  apply (for_each_returns_ind (λ m, skeleton <$> bond m = skeleton <$> bond merge));
    [done|].
  intros rca4 m1 m2 _ <-. apply update_rca4_skeleton.
Qed.

(** The structure a merge returns, from the run itself: the atoms and the
    bonds that the loop over the common atoms leaves, after the deletion. *)
Lemma merged_bonds_deleted (A B merged : @Structure coord) (match_1 match_2 : list Z) :
  returns (merge_structures_from_matching_atoms A match_1 B match_2) merged →
  ∃ merge1,
    returns (reconcile_bonds match_1 ((λ x, x + len_atom A) <$> match_2)
               (structure_merge A B)) merge1
    ∧ Forall (λ x, 1 ≤ x ≤ len_atom A + len_atom B) ((λ x, x + len_atom A) <$> match_2)
    ∧ Forall (λ x, 1 ≤ x ≤ len_atom A + len_atom B) match_1
    ∧ atom merged
      = atom (deleteAtoms merge1 ((λ x, x + len_atom A) <$> match_2))
    ∧ skeleton <$> bond merged
      = skeleton <$> bond (deleteAtoms merge1 ((λ x, x + len_atom A) <$> match_2)).
Proof.
  unfold merge_structures_from_matching_atoms.
  intros (cs2 & [-> Hcs2]%atom_items_returns & Hrun)%returns_bind.
  apply returns_bind in Hrun as (cs1 & [-> Hcs1]%atom_items_returns & Hrun).
  apply returns_bind in Hrun as (merge1 & Hloop & Hrun).
  apply returns_bind in Hrun as (merge2 & Hadd & Hrun).
  apply returns_bind in Hrun as (d1 & _ & Hrun).
  apply returns_bind in Hrun as (d2 & _ & <-%returns_ret).
  exists merge1. unfold len_atom in *. simpl in Hcs1, Hcs2.
  rewrite length_app in Hcs1, Hcs2.
  split_and!; [done| | | |].
  - eapply Forall_impl; [exact Hcs2|]. intros x. simpl. lia.
  - eapply Forall_impl; [exact Hcs1|]. intros x. simpl. lia.
  - simpl. by rewrite (add_rca4_atom _ _ _ _ _ _ Hadd).
  - simpl. by rewrite (add_rca4_skeleton _ _ _ _ _ _ Hadd).
Qed.
End skeletons.

Section well_formedness.
Context {coord : Type}.
Implicit Types st merge : @Structure coord.

Lemma well_formed_skeleton st st' :
  length (atom st') = length (atom st) →
  skeleton <$> bond st' = skeleton <$> bond st →
  well_formed st → well_formed st'.
Proof.
  unfold well_formed, len_atom. intros -> Hbonds Hwf.
  apply (Forall_fmap skeleton
           (λ s, 1 ≤ s.1.1 ≤ Z.of_nat (length (atom st))
                 ∧ 1 ≤ s.1.2 ≤ Z.of_nat (length (atom st)))).
  rewrite Hbonds. by apply Forall_fmap.
Qed.

Lemma addBond_well_formed merge (a b o : Z) :
  1 ≤ a ≤ len_atom merge → 1 ≤ b ≤ len_atom merge →
  well_formed merge → well_formed (addBond merge a b o).
Proof.
  intros Ha Hb Hwf. unfold addBond, well_formed, len_atom in *.
  destruct (getBond merge a b) as [q|]; simpl.
  - apply Forall_alter; [done|]. by intros bd _.
  - apply Forall_app. split; [done|]. by constructor.
Qed.

Lemma reconcile_bond_well_formed (cs1 cs2 : list Z) (c2 : Z) (p : nat) merge merge' :
  Forall (λ x, 1 ≤ x ≤ len_atom merge) cs1 →
  well_formed merge →
  returns (reconcile_bond cs1 cs2 c2 p merge) merge' →
  well_formed merge'.
Proof.
  intros Hcs1 Hwf. unfold reconcile_bond.
  destruct (bond merge !! p) as [mb|] eqn:Hmb; [|by intros ?%returns_raise].
  intros (a1 & (i & _ & Hi)%counterpart_returns & Hrun)%returns_bind.
  case_bool_decide.
  - apply returns_bind in Hrun as (a2 & _ & Hrun).
    eapply well_formed_skeleton; [| |exact Hwf].
    + by rewrite (copy_properties_atom _ _ _ _ Hrun).
    + by apply copy_properties_skeleton in Hrun.
  - eapply (well_formed_skeleton (addBond merge a1 (other_end c2 mb) (order mb))).
    + by rewrite (copy_properties_atom _ _ _ _ Hrun).
    + by apply copy_properties_skeleton in Hrun.
    + apply addBond_well_formed; [| |done].
      * rewrite Forall_forall in Hcs1. apply Hcs1. by eapply list_elem_of_lookup_2.
      * unfold well_formed in Hwf. rewrite Forall_forall in Hwf.
        apply list_elem_of_lookup_2 in Hmb. specialize (Hwf mb Hmb).
        unfold other_end. case_match; lia.
Qed.

Lemma reconcile_bonds_well_formed (cs1 cs2 : list Z) merge merge' :
  Forall (λ x, 1 ≤ x ≤ len_atom merge) cs1 →
  well_formed merge →
  returns (reconcile_bonds cs1 cs2 merge) merge' →
  well_formed merge'.
Proof.
  intros Hcs1 Hwf Hrun.
  enough (atom merge' = atom merge ∧ well_formed merge') as [_ ?] by done.
  revert Hrun.
  apply (for_each_returns_ind (λ m, atom m = atom merge ∧ well_formed m)); [done|].
  intros [c1 c2] m1 m2 _ [Hatom1 Hwf1].
  apply (for_each_returns_ind (λ m, atom m = atom merge ∧ well_formed m)); [done|].
  intros p m3 m4 _ [Hatom3 Hwf3] Hstep. split.
  - by rewrite (reconcile_bond_atom _ _ _ _ _ _ Hstep).
  - eapply reconcile_bond_well_formed; [|exact Hwf3|exact Hstep].
    unfold len_atom. by rewrite Hatom3.
Qed.

(** The index of an atom that survives a deletion is an index of the
    structure that is left. *)
Lemma renumber_in_range (del : list Z) (atoms : list (@Atom coord)) (i : Z) :
  Forall (λ d, 1 ≤ d) del →
  1 ≤ i ≤ Z.of_nat (length atoms) → i ∉ del →
  1 ≤ renumber del i ≤ Z.of_nat (length (delete_from del 1 atoms)).
Proof.
  intros Hdel Hi Hnot.
  pose proof (survivors_below del i Hdel (proj1 Hi)) as Hbelow.
  rewrite delete_from_length.
  replace (Z.of_nat (length atoms)) with ((i - 1) + (Z.of_nat (length atoms) - (i - 1)))
    by lia.
  rewrite seqZ_app by lia. rewrite filter_app, length_app.
  replace (1 + (i - 1)) with i by lia.
  rewrite (seqZ_cons i) by lia. rewrite filter_cons, decide_True by done.
  simpl. lia.
Qed.

Lemma deleteAtoms_well_formed merge (del : list Z) :
  Forall (λ d, 1 ≤ d) del →
  well_formed merge → well_formed (deleteAtoms merge del).
Proof.
  intros Hdel Hwf. unfold well_formed, len_atom in *. simpl.
  apply Forall_fmap, Forall_forall. intros bd [[H1 H2] Hbd]%list_elem_of_filter.
  rewrite Forall_forall in Hwf. specialize (Hwf bd Hbd). simpl.
  split; apply renumber_in_range; tauto.
Qed.

(** X10. Merging keeps structures well formed: when every bond of the two
    structures joins atoms of its structure, every bond of the merged structure
    joins atoms of the merged structure. *)
Theorem merge_keeps_well_formed (A B merged : @Structure coord) (match_1 match_2 : list Z) :
  well_formed A → well_formed B →
  returns (merge_structures_from_matching_atoms A match_1 B match_2) merged →
  well_formed merged.
Proof.
  intros HA HB Hrun.
  destruct (merged_bonds_deleted _ _ _ _ _ Hrun)
    as (merge1 & Hloop & Hcs2 & Hcs1 & Hatoms & Hbonds).
  eapply well_formed_skeleton; [by rewrite Hatoms|exact Hbonds|].
  apply deleteAtoms_well_formed.
  { eapply Forall_impl; [exact Hcs2|]. intros x. simpl. lia. }
  eapply reconcile_bonds_well_formed; [| |exact Hloop].
  - eapply Forall_impl; [exact Hcs1|]. intros x. unfold len_atom. simpl.
    rewrite length_app. lia.
  - unfold well_formed, len_atom in *. simpl. rewrite length_app.
    apply Forall_app. split.
    + eapply Forall_impl; [exact HA|]. intros bd. simpl. lia.
    + apply Forall_fmap. eapply Forall_impl; [exact HB|]. intros bd. simpl.
      unfold len_atom. lia.
Qed.
End well_formedness.

Section kept_ends.
Context {coord : Type}.
Implicit Types m merge : @Structure coord.

Lemma ends_kept_refl m : ends_kept m m.
Proof. intros q bd Hq. by exists bd. Qed.

Lemma ends_kept_trans m1 m2 m3 : ends_kept m1 m2 → ends_kept m2 m3 → ends_kept m1 m3.
Proof.
  intros H12 H23 q bd Hq. destruct (H12 q bd Hq) as (bd2 & Hq2 & ? & ?).
  destruct (H23 q bd2 Hq2) as (bd3 & Hq3 & ? & ?). exists bd3.
  split_and!; congruence.
Qed.

Lemma ends_kept_skeleton m m' :
  skeleton <$> bond m' = skeleton <$> bond m → ends_kept m m'.
Proof.
  intros Hbonds q bd Hq.
  assert ((skeleton <$> bond m') !! q = Some (skeleton bd)) as Hq'
    by (by rewrite Hbonds, list_lookup_fmap, Hq).
  apply list_lookup_fmap_Some in Hq' as (bd' & [= ? ? ?] & Hbd').
  by exists bd'.
Qed.

Lemma ends_kept_addBond m (a b o : Z) : ends_kept m (addBond m a b o).
Proof.
  intros q bd Hq. unfold addBond. destruct (getBond m a b) as [p|]; simpl.
  - destruct (decide (p = q)) as [->|Hne].
    + rewrite list_lookup_alter_eq, Hq. by eexists.
    + rewrite list_lookup_alter_ne by done. by exists bd.
  - exists bd. split; [|done]. by apply lookup_app_l_Some.
Qed.

Lemma has_bond_addBond m (a b o : Z) : has_bond (addBond m a b o) a b.
Proof.
  unfold has_bond, addBond, getBond. destruct (find_bond a b (bond m)) as [p|] eqn:Hp; simpl.
  - apply find_bond_Some in Hp as (bd & Hbd & Hj). exists p. eexists. split.
    + by rewrite list_lookup_alter_eq, Hbd.
    + done.
  - exists (length (bond m)). eexists. split.
    + rewrite lookup_app_r by lia. by rewrite Nat.sub_diag.
    + unfold joins. simpl. by rewrite !Z.eqb_refl.
Qed.

Lemma has_bond_kept m m' (a b : Z) : ends_kept m m' → has_bond m a b → has_bond m' a b.
Proof.
  intros Hkept (q & bd & Hq & Hj). destruct (Hkept q bd Hq) as (bd' & Hq' & H1 & H2).
  exists q, bd'. split; [done|]. unfold joins in *. by rewrite H1, H2.
Qed.

Lemma has_bond_getBond m (a b : Z) : has_bond m a b → is_Some (getBond m a b).
Proof.
  intros (q & bd & Hq & Hj). unfold getBond.
  destruct (find_bond a b (bond m)) as [p|] eqn:Hp; [done|].
  rewrite find_bond_None, Forall_lookup in Hp. specialize (Hp q bd Hq). congruence.
Qed.

Lemma reconcile_bond_ends_kept (cs1 cs2 : list Z) (c2 : Z) (p : nat) m m' :
  returns (reconcile_bond cs1 cs2 c2 p m) m' → ends_kept m m'.
Proof.
  unfold reconcile_bond. destruct (bond m !! p) as [mb|]; [|by intros ?%returns_raise].
  intros (a1 & _ & Hrun)%returns_bind. case_bool_decide.
  - apply returns_bind in Hrun as (a2 & _ & Hrun).
    by apply copy_properties_skeleton, ends_kept_skeleton in Hrun.
  - eapply ends_kept_trans; [apply ends_kept_addBond|].
    by apply copy_properties_skeleton, ends_kept_skeleton in Hrun.
Qed.

Lemma reconcile_bond_loop_ends_kept (cs1 cs2 : list Z) (c2 : Z) (ps : list nat) m m' :
  returns (for_each ps (reconcile_bond cs1 cs2 c2) m) m' → ends_kept m m'.
Proof.
  apply (for_each_returns_ind (ends_kept m)); [apply ends_kept_refl|].
  intros p m1 m2 _ H1 Hstep. eapply ends_kept_trans; [exact H1|].
  by eapply reconcile_bond_ends_kept.
Qed.

Lemma reconcile_bonds_loop_ends_kept (cs1 cs2 : list Z) (pairs : list (Z * Z)) m m' :
  returns (for_each pairs
             (λ '(common_atom_1, common_atom_2) merge,
                for_each (bonds_of merge common_atom_2)
                  (reconcile_bond cs1 cs2 common_atom_2) merge) m) m' →
  ends_kept m m'.
Proof.
  apply (for_each_returns_ind (ends_kept m)); [apply ends_kept_refl|].
  intros [c1 c2] m1 m2 _ H1 Hstep. eapply ends_kept_trans; [exact H1|].
  by eapply reconcile_bond_loop_ends_kept.
Qed.
End kept_ends.

Lemma renumber_NoDup (del : list Z) (i : Z) :
  NoDup del → renumber del i = i - count (λ j, j <? i) del.
Proof. intros Hdel. unfold renumber. by rewrite remove_dups_NoDup. Qed.

Lemma deleteAtoms_elem {coord : Type} (merge : @Structure coord) (del : list Z)
    (bc : Bond) :
  bc ∈ bond merge → atom1 bc ∉ del → atom2 bc ∉ del →
  ∃ b', b' ∈ bond (deleteAtoms merge del)
        ∧ skeleton b' = (renumber del (atom1 bc), renumber del (atom2 bc), order bc).
Proof.
  intros Hbc H1 H2.
  exists {| atom1 := renumber del (atom1 bc); atom2 := renumber del (atom2 bc);
            order := order bc; bproperty := bproperty bc |}.
  split; [|reflexivity]. simpl.
  apply list_elem_of_fmap. exists bc. split; [done|].
  apply list_elem_of_filter. by split.
Qed.

Lemma skeleton_elem {coord : Type} (m m' : @Structure coord) (b : Bond) :
  skeleton <$> bond m' = skeleton <$> bond m →
  b ∈ bond m → ∃ b', b' ∈ bond m' ∧ skeleton b' = skeleton b.
Proof.
  intros Hbonds Hb.
  assert (skeleton b ∈ skeleton <$> bond m') as Hin.
  { rewrite Hbonds. apply list_elem_of_fmap. by exists b. }
  apply list_elem_of_fmap in Hin as (b' & Hsk & Hb'). by exists b'.
Qed.

Section merged_bonds.
Context {coord : Type}.
Variables struct_1 struct_2 : @Structure coord.
Variables match_1 match_2 : list Z.
Hypothesis wf_1 : well_formed struct_1.
Hypothesis wf_2 : well_formed struct_2.
Hypothesis valid_1 : valid_match struct_1 match_1.
Hypothesis valid_2 : valid_match struct_2 match_2.

#[local] Abbreviation n := (len_atom struct_1).
#[local] Abbreviation common_2 := ((λ x, x + len_atom struct_1) <$> match_2).
#[local] Abbreviation union := (bond (structure_merge struct_1 struct_2)).
#[local] Abbreviation reconciling := (reconciling_from struct_1 struct_2 match_2).
#[local] Abbreviation kept := (union_kept struct_1 struct_2).

Lemma union_kept_skeleton (m m' : @Structure coord) :
  skeleton <$> bond m' = skeleton <$> bond m → kept m → kept m'.
Proof.
  intros Hbonds Hkept p b0 Hp. destruct (Hkept p b0 Hp) as (bc & Hbc & Hsk).
  assert ((skeleton <$> bond m') !! p = Some (skeleton bc)) as Hp'
    by (by rewrite Hbonds, list_lookup_fmap, Hbc).
  apply list_lookup_fmap_Some in Hp' as (bc' & Hsk' & Hbc').
  exists bc'. split; [done|]. congruence.
Qed.

(** A bond from an atom of the first structure to an atom of the second is
    no bond of the union, so that adding it leaves the union as it is. *)
Lemma addBond_union_kept (m : @Structure coord) (a b o : Z) :
  a ≤ n → n < b → reconciling m → kept m → kept (addBond m a b o).
Proof.
  intros Ha Hb [Hunion _] Hkept p b0 Hp.
  destruct (Hkept p b0 Hp) as (bc & Hbc & Hsk).
  unfold addBond, getBond. destruct (find_bond a b (bond m)) as [q|] eqn:Hq; simpl.
  - destruct (decide (q = p)) as [->|Hne].
    + exfalso. apply find_bond_Some in Hq as (bd & Hbd & Hj).
      assert (bd = bc) as -> by congruence.
      injection Hsk as H1 H2 _.
      unfold joins in Hj. rewrite H1, H2 in Hj.
      destruct (union_lookup struct_1 struct_2 wf_1 wf_2 p b0 Hp)
        as [(_ & ? & ?)|(? & _ & _ & ? & ?)];
        apply orb_true_iff in Hj as [Hj|Hj];
        apply andb_true_iff in Hj as [?%Z.eqb_eq ?%Z.eqb_eq]; lia.
    + rewrite list_lookup_alter_ne by done. by exists bc.
  - exists bc. split; [|done]. by apply lookup_app_l_Some.
Qed.

Lemma reconcile_bond_union_kept (m m' : @Structure coord) (c2 : Z) (p : nat) (b0 : Bond) :
  reconciling m → kept m →
  union !! p = Some b0 → n < atom1 b0 → n < atom2 b0 →
  returns (reconcile_bond match_1 common_2 c2 p m) m' →
  kept m'.
Proof.
  intros Hrec Hkept Hb0 Ha1 Ha2. unfold reconcile_bond.
  destruct (Hkept p b0 Hb0) as (bc & -> & [= He1 He2 _]).
  intros (a1 & (i & _ & Hi)%counterpart_returns & Hrun)%returns_bind.
  case_bool_decide as Hcommon.
  - apply returns_bind in Hrun as (a2 & _ & Hrun).
    eapply union_kept_skeleton; [|exact Hkept]. by eapply copy_properties_skeleton.
  - eapply union_kept_skeleton; [by eapply copy_properties_skeleton|].
    apply addBond_union_kept; [| |done|done].
    + apply list_elem_of_lookup_2 in Hi.
      unfold valid_match in valid_1. rewrite Forall_forall in valid_1.
      specialize (valid_1 a1 Hi). lia.
    + unfold other_end. case_match; lia.
Qed.

(** The loop over the common atoms leaves the bonds of the union in place. *)
Lemma reconcile_bonds_union_kept (merge1 : @Structure coord) :
  returns (reconcile_bonds match_1 common_2 (structure_merge struct_1 struct_2)) merge1 →
  reconciling merge1 ∧ kept merge1.
Proof.
  unfold reconcile_bonds.
  apply (for_each_returns_ind (λ m, reconciling m ∧ kept m)).
  - split; [apply reconciling_union|]. intros p b0 Hp. by exists b0.
  - intros [c1 c2] m1 m2 Hpair [Hrec1 Hkept1].
    pose proof (elem_of_zip_r _ _ _ _ Hpair) as Hc2.
    apply (for_each_returns_ind (λ m, reconciling m ∧ kept m)); [done|].
    intros p m3 m4 Hp [Hrec3 Hkept3] Hstep. split.
    + exact (reconcile_bond_step struct_1 struct_2 match_1 match_2 wf_1 wf_2 valid_1
               valid_2 m1 m3 m4 c2 p Hc2 Hrec1 Hp Hrec3 Hstep).
    + apply elem_of_bonds_of in Hp as (bd & Hbd & Hinc).
      destruct (incident_is_shifted struct_1 struct_2 match_2 wf_1 wf_2 valid_2
                  m1 c2 p bd Hrec1 Hc2 Hbd Hinc) as (b0 & Hb0 & ? & ?).
      by eapply reconcile_bond_union_kept.
Qed.

Lemma common_2_all_above : Forall (λ d, n < d) common_2.
Proof.
  apply Forall_forall. intros d Hd.
  exact (common_2_above struct_1 struct_2 match_2 valid_2 d Hd).
Qed.

(** X11. The bonds of the first structure are bonds of the merged structure,
    at the same place in the bond table, between the same atom indices and with
    the same order. *)
Theorem first_structure_bonds_kept (merged : @Structure coord) (p : nat) (b : Bond) :
  returns (merge_structures_from_matching_atoms struct_1 match_1 struct_2 match_2) merged →
  bond struct_1 !! p = Some b →
  ∃ b', bond merged !! p = Some b'
        ∧ atom1 b' = atom1 b ∧ atom2 b' = atom2 b ∧ order b' = order b.
Proof.
  intros Hrun Hb.
  destruct (merged_bonds_deleted _ _ _ _ _ Hrun)
    as (merge1 & Hloop & _ & _ & _ & Hbonds).
  destruct (reconcile_bonds_union_kept merge1 Hloop) as [_ Hkept].
  pose proof common_2_all_above as Habove.
  (* the bonds of the first structure pass the deletion *)
  assert (∀ q x, (q ≤ p)%nat → bond merge1 !! q = Some x →
            atom1 x ≤ n ∧ atom2 x ≤ n) as Hfirst.
  { intros q x Hq Hx.
    destruct (lookup_lt_is_Some_2 (bond struct_1) q) as [b1 Hb1].
    { apply lookup_lt_Some in Hb. lia. }
    assert (union !! q = Some b1) as Hu by (by apply lookup_app_l_Some).
    destruct (Hkept q b1 Hu) as (bc & Hbc & [= H1 H2 _]).
    assert (bc = x) as -> by congruence.
    unfold well_formed in wf_1. rewrite Forall_forall in wf_1.
    specialize (wf_1 b1 (list_elem_of_lookup_2 _ _ _ Hb1)). lia. }
  destruct (Hkept p b (lookup_app_l_Some _ _ _ _ Hb)) as (bc & Hbc & [= H1 H2 H3]).
  assert (bond (deleteAtoms merge1 common_2) !! p
          = Some {| atom1 := renumber common_2 (atom1 bc);
                    atom2 := renumber common_2 (atom2 bc);
                    order := order bc; bproperty := bproperty bc |}) as Hdel.
  { simpl. rewrite list_lookup_fmap, filter_lookup_prefix, Hbc; [done|].
    intros q x Hq Hx. destruct (Hfirst q x Hq Hx) as [? ?].
    rewrite Forall_forall in Habove.
    split; intros Hin; specialize (Habove _ Hin); lia. }
  assert ((skeleton <$> bond merged) !! p
          = Some (renumber common_2 (atom1 bc), renumber common_2 (atom2 bc), order bc))
    as Hp by (by rewrite Hbonds, list_lookup_fmap, Hdel).
  apply list_lookup_fmap_Some in Hp as (b' & [= E1 E2 E3] & Hb').
  destruct (Hfirst p bc (le_n _) Hbc) as [? ?].
  rewrite !renumber_below in E1, E2
    by (eapply Forall_impl; [exact Habove|]; intros d; simpl; lia).
  exists b'. split_and!; congruence.
Qed.
Lemma reconcile_bond_kept_step (listed m3 m4 : @Structure coord) (c2 : Z) (p : nat) :
  c2 ∈ common_2 → reconciling listed → p ∈ bonds_of listed c2 →
  reconciling m3 ∧ kept m3 →
  returns (reconcile_bond match_1 common_2 c2 p m3) m4 →
  reconciling m4 ∧ kept m4.
Proof.
  intros Hc2 Hrec1 Hp [Hrec3 Hkept3] Hstep. split.
  - exact (reconcile_bond_step struct_1 struct_2 match_1 match_2 wf_1 wf_2 valid_1
             valid_2 listed m3 m4 c2 p Hc2 Hrec1 Hp Hrec3 Hstep).
  - apply elem_of_bonds_of in Hp as (bd & Hbd & Hinc).
    destruct (incident_is_shifted struct_1 struct_2 match_2 wf_1 wf_2 valid_2
                listed c2 p bd Hrec1 Hc2 Hbd Hinc) as (b0 & Hb0 & ? & ?).
    by eapply reconcile_bond_union_kept.
Qed.

Lemma reconcile_bonds_kept_step (m1 m2 : @Structure coord) (c1 c2 : Z) :
  (c1, c2) ∈ zip match_1 common_2 →
  reconciling m1 ∧ kept m1 →
  returns (for_each (bonds_of m1 c2) (reconcile_bond match_1 common_2 c2) m1) m2 →
  reconciling m2 ∧ kept m2.
Proof.
  intros Hc2%elem_of_zip_r [Hrec1 Hkept1].
  apply (for_each_returns_ind (λ m, reconciling m ∧ kept m)); [done|].
  intros p m3 m4 Hp. by apply (reconcile_bond_kept_step m1).
Qed.

(** X12. A bond of the second structure between two atoms that are not
    common is carried over to the merged structure with its order, between the
    indices the RCA4 translation gives to its two atoms. *)
Theorem free_bonds_carried_over (merged : @Structure coord) (b : Bond) :
  NoDup match_2 →
  returns (merge_structures_from_matching_atoms struct_1 match_1 struct_2 match_2) merged →
  b ∈ bond struct_2 → atom1 b ∉ match_2 → atom2 b ∉ match_2 →
  ∃ b' y1 y2,
    b' ∈ bond merged
    ∧ translate_index n match_1 match_2 (atom1 b) = ret y1
    ∧ translate_index n match_1 match_2 (atom2 b) = ret y2
    ∧ atom1 b' = y1 ∧ atom2 b' = y2 ∧ order b' = order b.
Proof.
  intros Hnd Hrun Hb Hfree1 Hfree2.
  destruct (merged_bonds_deleted _ _ _ _ _ Hrun)
    as (merge1 & Hloop & _ & _ & _ & Hbonds).
  destruct (reconcile_bonds_union_kept merge1 Hloop) as [_ Hkept].
  assert (NoDup common_2) as Hnd2.
  { apply NoDup_fmap_2; [|done]. intros u v Huv. lia. }
  assert (∀ x, x ∉ match_2 → x + n ∉ common_2) as Hshift.
  { intros x Hx (x' & Hx' & Hin)%list_elem_of_fmap. by replace x with x' in Hx by lia. }
  apply list_elem_of_lookup_1 in Hb as [k Hk].
  assert (union !! (length (bond struct_1) + k)%nat = Some (shift_bond n b)) as Hu.
  { simpl. rewrite lookup_app_r by lia.
    replace (length (bond struct_1) + k - length (bond struct_1))%nat with k by lia.
    by rewrite list_lookup_fmap, Hk. }
  destruct (Hkept _ _ Hu) as (bc & Hbc & [= H1 H2 H3]). simpl in H1, H2, H3.
  destruct (deleteAtoms_elem merge1 common_2 bc (list_elem_of_lookup_2 _ _ _ Hbc))
    as (b1 & Hb1 & Hsk1).
  { rewrite H1. by apply Hshift. }
  { rewrite H2. by apply Hshift. }
  destruct (skeleton_elem _ merged b1 Hbonds Hb1) as (b' & Hb' & Hsk').
  rewrite Hsk1, H1, H2, H3 in Hsk'. injection Hsk' as E1 E2 E3.
  exists b', (atom1 b'), (atom2 b'). split_and!; [done| | |done..].
  - unfold translate_index. rewrite decide_False by done.
    by rewrite E1, renumber_NoDup.
  - unfold translate_index. rewrite decide_False by done.
    by rewrite E2, renumber_NoDup.
Qed.

(** X13. A bond of the second structure between the common atom
    [match_2[i]] and an atom [y] that is not common gives the merged structure a
    bond between [match_1[i]] and the index the RCA4 translation gives to
    [y]. *)
Theorem cross_bond_created (merged : @Structure coord) (b : Bond) (i : nat)
    (c y a1 : Z) :
  NoDup match_2 →
  returns (merge_structures_from_matching_atoms struct_1 match_1 struct_2 match_2) merged →
  b ∈ bond struct_2 →
  (c = atom1 b ∧ y = atom2 b) ∨ (c = atom2 b ∧ y = atom1 b) →
  match_2 !! i = Some c → y ∉ match_2 → match_1 !! i = Some a1 →
  ∃ y', translate_index n match_1 match_2 y = ret y'
        ∧ is_Some (getBond merged a1 y').
Proof.
  intros Hnd Hrun Hb Hends Hi2 Hy Hi1.
  destruct (merged_bonds_deleted _ _ _ _ _ Hrun)
    as (merge1 & Hloop & _ & _ & _ & Hbonds).
  assert (NoDup common_2) as Hnd2.
  { apply NoDup_fmap_2; [|done]. intros u v Huv. lia. }
  assert (y + n ∉ common_2) as Hfree.
  { intros (x' & Hx' & Hin)%list_elem_of_fmap. by replace y with x' in Hy by lia. }
  pose proof common_2_all_above as Habove.
  assert (1 ≤ a1 ≤ n) as Ha1.
  { unfold valid_match in valid_1. rewrite Forall_forall in valid_1.
    apply valid_1. by eapply list_elem_of_lookup_2. }
  exists (renumber common_2 (y + n)). split.
  { unfold translate_index. rewrite decide_False by done. by rewrite renumber_NoDup. }
  (* the iteration of the outer loop for the common atom [c] *)
  set (c2 := c + n).
  assert (common_2 !! i = Some c2) as Hi by (by rewrite list_lookup_fmap, Hi2).
  assert (c2 ∈ common_2) as Hc2 by (by eapply list_elem_of_lookup_2).
  assert ((a1, c2) ∈ zip match_1 common_2) as Hpair.
  { apply (list_elem_of_lookup_2 _ i). by apply lookup_zip_Some. }
  unfold reconcile_bonds in Hloop.
  destruct (for_each_returns_split _ _ _ _ _ Hloop Hpair)
    as (l1 & l2 & m_a & m_z & Hl & Hbefore & Hinner & Hafter).
  assert (reconciling m_a ∧ kept m_a) as [Hrec_a Hkept_a].
  { revert Hbefore. apply (for_each_returns_ind (λ m, reconciling m ∧ kept m)).
    - split; [apply reconciling_union|]. intros p b0 Hp. by exists b0.
    - intros [c1' c2'] m1 m2 Hin. apply (reconcile_bonds_kept_step m1 m2 c1' c2').
      rewrite Hl. apply elem_of_app. by left. }
  (* the bond [b] in the working structure *)
  apply list_elem_of_lookup_1 in Hb as [k Hk].
  set (p := (length (bond struct_1) + k)%nat).
  assert (union !! p = Some (shift_bond n b)) as Hu.
  { simpl. rewrite lookup_app_r by lia.
    replace (p - length (bond struct_1))%nat with k by lia.
    by rewrite list_lookup_fmap, Hk. }
  assert (p ∈ bonds_of m_a c2) as Hp_in.
  { apply elem_of_bonds_of. destruct (Hkept_a p _ Hu) as (bc & Hbc & [= H1 H2 _]).
    exists bc. split; [done|]. simpl in H1, H2. unfold c2.
    destruct Hends as [[-> ->]|[-> ->]]; [left|right]; done. }
  destruct (for_each_returns_split _ _ _ _ _ Hinner Hp_in)
    as (ps1 & ps2 & m_b & m_c & Hps & Hbefore_p & Hbond & Hafter_p).
  assert (reconciling m_b ∧ kept m_b) as [Hrec_b Hkept_b].
  { revert Hbefore_p. apply (for_each_returns_ind (λ m, reconciling m ∧ kept m)); [done|].
    intros q m1 m2 Hq. apply (reconcile_bond_kept_step m_a); [done..|].
    rewrite Hps. apply elem_of_app. by left. }
  (* its iteration adds the bond from [a1] *)
  assert (has_bond m_c a1 (y + n)) as Hadded.
  { revert Hbond. unfold reconcile_bond.
    destruct (Hkept_b p _ Hu) as (bc & -> & [= H1 H2 H3]). simpl in H1, H2, H3.
    assert (other_end c2 bc = y + n) as ->.
    { unfold other_end, c2. rewrite H1, H2.
      destruct Hends as [[-> ->]|[-> ->]].
      - by rewrite Z.eqb_refl.
      - destruct (Z.eqb_spec (atom1 b + n) (atom2 b + n)) as [Heq|]; [|done].
        destruct Hy. replace (atom1 b) with (atom2 b) by lia.
        by eapply list_elem_of_lookup_2. }
    unfold counterpart. rewrite (index_NoDup _ _ _ Hnd2 Hi).
    unfold list_item. rewrite Hi1, bind_ret_l.
    rewrite bool_decide_eq_false_2 by done.
    intros Hcopy%copy_properties_skeleton%ends_kept_skeleton.
    eapply has_bond_kept; [exact Hcopy|]. apply has_bond_addBond. }
  assert (has_bond merge1 a1 (y + n)) as (q & bd & Hq & Hj).
  { eapply has_bond_kept; [|exact Hadded].
    eapply ends_kept_trans; [by eapply reconcile_bond_loop_ends_kept|].
    by eapply reconcile_bonds_loop_ends_kept. }
  (* the bond survives the deletion *)
  assert (atom1 bd = a1 ∧ atom2 bd = y + n ∨ atom1 bd = y + n ∧ atom2 bd = a1) as Hbd.
  { unfold joins in Hj. apply orb_true_iff in Hj as [Hj|Hj];
      apply andb_true_iff in Hj as [?%Z.eqb_eq ?%Z.eqb_eq]; [by left|by right]. }
  assert (a1 ∉ common_2) as Ha1_free.
  { intros Hin. rewrite Forall_forall in Habove. specialize (Habove _ Hin). lia. }
  assert (renumber common_2 a1 = a1) as Hren.
  { apply renumber_below. eapply Forall_impl; [exact Habove|]. intros d. simpl. lia. }
  destruct (deleteAtoms_elem merge1 common_2 bd (list_elem_of_lookup_2 _ _ _ Hq))
    as (b1 & Hb1 & Hsk1).
  { by destruct Hbd as [[-> _]|[-> _]]. }
  { by destruct Hbd as [[_ ->]|[_ ->]]. }
  destruct (skeleton_elem _ merged b1 Hbonds Hb1) as (b' & Hb' & Hsk').
  rewrite Hsk1 in Hsk'. injection Hsk' as E1 E2 _.
  apply has_bond_getBond. apply list_elem_of_lookup_1 in Hb' as [q' Hq'].
  exists q', b'. split; [done|]. unfold joins. rewrite E1, E2.
  destruct Hbd as [[-> ->]|[-> ->]]; rewrite Hren, !Z.eqb_refl; simpl;
    by rewrite ?orb_true_r.
Qed.
End merged_bonds.

(** ** The order of the translated indices *)

(** The entries of a list without repetition that lie strictly between two
    integers are fewer than the integers between them. *)
Lemma count_between (l : list Z) (a b : Z) :
  NoDup l → a ∉ l → a < b →
  count (λ j, j <? b) l - count (λ j, j <? a) l ≤ b - a - 1.
Proof.
  intros Hnd Ha Hab. unfold count.
  pose proof (filter_complement_length (λ j, (j <? a) = true)
                (filter (λ j, (j <? b) = true) l)) as Hsum.
  rewrite list_filter_filter in Hsum.
  rewrite (list_filter_iff (λ j, (j <? a) = true ∧ (j <? b) = true)
             (λ j, (j <? a) = true)) in Hsum
    by (intros j; rewrite !Z.ltb_lt; lia).
  assert (length (filter (λ j : Z, ¬ (j <? a)%Z = true)
                    (filter (λ j : Z, (j <? b)%Z = true) l))
          ≤ length (seqZ (a + 1)%Z (b - a - 1)%Z))%nat as Hle.
  { apply submseteq_length, NoDup_submseteq.
    - by do 2 apply NoDup_filter.
    - intros j [Hja [Hjb Hj]%list_elem_of_filter]%list_elem_of_filter.
      rewrite Z.ltb_lt in Hja, Hjb. apply elem_of_seqZ.
      assert (j ≠ a) by (by intros ->). lia. }
  rewrite length_seqZ in Hle. lia.
Qed.

(** X14. The RCA4 translation keeps the order of the atoms of the second
    structure that are not common, so it never gives two of them the same
    index. *)
Theorem translate_index_increasing (num_atoms : Z) (match_1 match_2 : list Z) (x y : Z) :
  NoDup match_2 → x ∉ match_2 → y ∉ match_2 → x < y →
  ∃ x' y',
    translate_index num_atoms match_1 match_2 x = ret x'
    ∧ translate_index num_atoms match_1 match_2 y = ret y'
    ∧ x' < y'.
Proof.
  intros Hnd Hx Hy Hxy. unfold translate_index. rewrite !decide_False by done.
  eexists _, _. split_and!; [done..|].
  pose proof (count_between ((λ x, x + num_atoms) <$> match_2)
                (x + num_atoms) (y + num_atoms)) as Hcount.
  assert (NoDup ((λ x, x + num_atoms) <$> match_2)) as Hnd2.
  { apply NoDup_fmap_2; [|done]. intros u v Huv. lia. }
  assert (x + num_atoms ∉ (λ x, x + num_atoms) <$> match_2) as Hx2.
  { intros (x' & Hx' & Hin)%list_elem_of_fmap. by replace x with x' in Hx by lia. }
  specialize (Hcount Hnd2 Hx2). lia.
Qed.

(** ** Merging two groups of structures *)

Section many_structures.
Context {coord : Type} {tk : Toolkit coord}.
Implicit Types h : list (@Structure coord).

(** X15. A run of [merge_many_structures] that ends without an exception
    yields new objects only, numbered consecutively from the end of the store;
    it leaves every structure that is not in the second group as it was, and
    every structure of the store keeps its atoms and their types, its bonds and
    its annotations. *)
Theorem merge_many_structures_frame (structures_1 structures_2 : list nat)
    h (out : list nat) h' :
  returns (merge_many_structures structures_1 structures_2 h) (out, h') →
  out = seq (length h) (length out)
  ∧ length h' = (length h + length out)%nat
  ∧ (∀ r st, r ∉ structures_2 → h !! r = Some st → h' !! r = Some st)
  ∧ (∀ r st, h !! r = Some st → ∃ st', h' !! r = Some st' ∧ same_graph st st').
Proof.
  unfold merge_many_structures.
  apply (for_each_returns_ind
           (λ s : list nat * list (@Structure coord),
              s.1 = seq (length h) (length s.1)
              ∧ length s.2 = (length h + length s.1)%nat
              ∧ (∀ r st, r ∉ structures_2 → h !! r = Some st → s.2 !! r = Some st)
              ∧ (∀ r st, h !! r = Some st →
                   ∃ st', s.2 !! r = Some st' ∧ same_graph st st'))).
  { simpl. split_and!; [done|lia|done|]. intros r st Hr. exists st.
    split; [done|apply same_graph_refl]. }
  intros structure_1 s1 s2 _ Hs1.
  apply (for_each_returns_ind
           (λ s : list nat * list (@Structure coord),
              s.1 = seq (length h) (length s.1)
              ∧ length s.2 = (length h + length s.1)%nat
              ∧ (∀ r st, r ∉ structures_2 → h !! r = Some st → s.2 !! r = Some st)
              ∧ (∀ r st, h !! r = Some st →
                   ∃ st', s.2 !! r = Some st' ∧ same_graph st st'))); [done|].
  intros structure_2 [o3 h3] s4 Hin (Hout & Hlen & Hframe & Hgraph).
  intros ([o h4] & Hmerge & <-%returns_ret)%returns_bind. simpl in *.
  apply merge_returns_invariant in Hmerge as (Ho & Hlen4 & Hframe4 & Hsecond4).
  split_and!.
  - rewrite length_app, seq_app, <-Hout. f_equal. by rewrite <-Hlen.
  - rewrite length_app. lia.
  - intros r st Hr Hst. apply Hframe4; [|by apply Hframe]. by intros ->.
  - intros r st Hst. destruct (Hgraph r st Hst) as (st3 & Hst3 & Hg3).
    destruct (decide (r = structure_2)) as [->|Hne].
    + destruct (Hsecond4 st3 Hst3) as (st4 & Hst4 & Hg4).
      exists st4. split; [done|]. by eapply same_graph_trans.
    + exists st3. split; [|done]. by apply Hframe4.
Qed.
End many_structures.

(** ** These properties on the sample fragments *)

Lemma overlapping_atoms_of_first_match_on_sample :
  [[2]; [3]] ≠ []
  ∧ ∃ before pattern after,
      search_dic_keys (property fragment_B) "pattern" = before ++ pattern :: after
      ∧ Forall (λ q, matches_of (tk := sample_toolkit) fragment_A q = []) before
      ∧ [[2]; [3]] = matches_of (tk := sample_toolkit) fragment_A pattern
      ∧ [[1]; [3]; [4]] = matches_of (tk := sample_toolkit) fragment_B pattern.
Proof.
  apply (overlapping_atoms_of_first_match (tk := sample_toolkit) fragment_A fragment_B).
  vm_compute. reflexivity.
Defined.

Lemma merge_without_match_in_second_on_sample :
  merge (tk := sample_toolkit) 0%nat 1%nat [fragment_A; fragment_C]
  = ([Checking (VStr "Zn"); Checking (VStr "Rh")], Ok ([], [fragment_A; fragment_C])).
Proof.
  apply (merge_without_match_in_second (tk := sample_toolkit) 0%nat 1%nat
           [fragment_A; fragment_C] fragment_A fragment_C [VStr "Zn"] [VStr "P"]
           (VStr "Rh")).
  - reflexivity.
  - reflexivity.
  - reflexivity.
  - constructor; [reflexivity|constructor].
  - vm_compute. discriminate.
  - reflexivity.
Defined.

Lemma missing_title_hides_the_diagnostic_on_sample :
  get_overlapping_atoms_in_both (tk := sample_toolkit) fragment_A fragment_untitled
  = ([Checking (VStr "Zn")], Raise (KeyError "s_m_title")).
Proof.
  apply (missing_title_hides_the_diagnostic (tk := sample_toolkit)
           fragment_A fragment_untitled).
  - constructor; [reflexivity|constructor].
  - right. reflexivity.
Defined.

Lemma merged_atoms_on_sample :
  ∃ merged,
    returns (merge_structures_from_matching_atoms fragment_A [2] fragment_B [1]) merged
    ∧ atom merged = atom fragment_A ++ drop 1 (atom fragment_B).
Proof.
  eexists. split; [vm_compute; reflexivity|].
  apply (merged_atoms fragment_A fragment_B _ [2] [1]).
  - unfold valid_match. compute_done.
  - vm_compute. reflexivity.
Defined.

Lemma translated_index_on_sample :
  ∃ merged y,
    returns (merge_structures_from_matching_atoms fragment_A [2] fragment_B [1]) merged
    ∧ translate_index 3 [2] [1] 4 = ret y
    ∧ atom_at merged y = Some {| atom_type_name := "P"; xyz := (2, -1, 5) |}.
Proof.
  eexists.
  destruct (proj1 (translated_index_names_the_atom fragment_A fragment_B _ [2] [1]
                     ltac:(unfold valid_match; compute_done)
                     ltac:(unfold valid_match; compute_done)
                     (NoDup_singleton 1)
                     ltac:(vm_compute; reflexivity))
              4 {| atom_type_name := "P"; xyz := (2, -1, 5) |}
              ltac:(intros [=]%list_elem_of_singleton) eq_refl)
    as (y & Hy & Hatom).
  exists y. split_and!; [vm_compute; reflexivity|exact Hy|exact Hatom].
Defined.

Lemma merge_keeps_well_formed_on_sample :
  ∃ merged,
    returns (merge_structures_from_matching_atoms fragment_A [2] fragment_B [1]) merged
    ∧ well_formed merged.
Proof.
  eexists. split; [vm_compute; reflexivity|].
  apply (merge_keeps_well_formed fragment_A fragment_B _ [2] [1]).
  - unfold well_formed. compute_done.
  - unfold well_formed. compute_done.
  - vm_compute. reflexivity.
Defined.

Lemma first_structure_bonds_kept_on_sample :
  ∃ merged b',
    returns (merge_structures_from_matching_atoms fragment_A [2] fragment_B [1]) merged
    ∧ bond merged !! 1%nat = Some b'
    ∧ atom1 b' = 1 ∧ atom2 b' = 3 ∧ order b' = 1.
Proof.
  eexists.
  destruct (first_structure_bonds_kept fragment_A fragment_B [2] [1]
              ltac:(unfold well_formed; compute_done)
              ltac:(unfold well_formed; compute_done)
              ltac:(unfold valid_match; compute_done)
              ltac:(unfold valid_match; compute_done)
              _ 1%nat {| atom1 := 1; atom2 := 3; order := 1; bproperty := no_rca4 |}
              ltac:(vm_compute; reflexivity) eq_refl)
    as (b' & Hb' & H1 & H2 & H3).
  exists b'. split_and!; [vm_compute; reflexivity|done..].
Defined.

Lemma free_bonds_carried_over_on_sample :
  ∃ merged b',
    returns (merge_structures_from_matching_atoms fragment_A [2] fragment_B [1]) merged
    ∧ b' ∈ bond merged
    ∧ atom1 b' = 4 ∧ atom2 b' = 6 ∧ order b' = 2.
Proof.
  eexists.
  destruct (free_bonds_carried_over fragment_A fragment_B [2] [1]
              ltac:(unfold well_formed; compute_done)
              ltac:(unfold well_formed; compute_done)
              ltac:(unfold valid_match; compute_done)
              ltac:(unfold valid_match; compute_done)
              _ {| atom1 := 2; atom2 := 4; order := 2; bproperty := no_rca4 |}
              (NoDup_singleton 1)
              ltac:(vm_compute; reflexivity)
              (list_elem_of_further _ _ _ (list_elem_of_further _ _ _
                 (list_elem_of_here _ _)))
              ltac:(intros [=]%list_elem_of_singleton)
              ltac:(intros [=]%list_elem_of_singleton))
    as (b' & y1 & y2 & Hb' & Hy1 & Hy2 & H1 & H2 & H3).
  exists b'. split_and!; [vm_compute; reflexivity|done| | |done].
  - vm_compute in Hy1. congruence.
  - vm_compute in Hy2. congruence.
Defined.

Lemma cross_bond_created_on_sample :
  ∃ merged y',
    returns (merge_structures_from_matching_atoms fragment_A [2] fragment_B [1]) merged
    ∧ translate_index 3 [2] [1] 2 = ret y'
    ∧ is_Some (getBond merged 2 y').
Proof.
  eexists.
  destruct (cross_bond_created fragment_A fragment_B [2] [1]
              ltac:(unfold well_formed; compute_done)
              ltac:(unfold well_formed; compute_done)
              ltac:(unfold valid_match; compute_done)
              ltac:(unfold valid_match; compute_done)
              _ {| atom1 := 1; atom2 := 2; order := 1;
                   bproperty := [("i_cs_rca4_1", VInt 3); ("i_cs_rca4_2", VInt 4)] |}
              0%nat 1 2 2
              (NoDup_singleton 1)
              ltac:(vm_compute; reflexivity)
              (list_elem_of_here _ _)
              ltac:(by left) eq_refl
              ltac:(intros [=]%list_elem_of_singleton) eq_refl)
    as (y' & Hy & Hbond).
  exists y'. split_and!; [vm_compute; reflexivity|exact Hy|exact Hbond].
Defined.

Lemma translate_index_increasing_on_sample :
  ∃ x' y',
    translate_index 3 [2; 3] [1; 3] 2 = ret x'
    ∧ translate_index 3 [2; 3] [1; 3] 4 = ret y'
    ∧ x' < y'.
Proof.
  apply (translate_index_increasing 3 [2; 3] [1; 3] 2 4).
  - compute_done.
  - compute_done.
  - compute_done.
  - lia.
Defined.

Lemma merge_many_structures_frame_on_sample :
  ∃ out h',
    returns (merge_many_structures (tk := sample_toolkit) [0%nat] [1%nat] sample_store)
      (out, h')
    ∧ out = seq 2 (length out)
    ∧ h' !! 0%nat = Some fragment_A.
Proof.
  eexists _, _. split; [vm_compute; reflexivity|].
  destruct (merge_many_structures_frame (tk := sample_toolkit) [0%nat] [1%nat]
              sample_store _ _ ltac:(vm_compute; reflexivity))
    as (Hout & _ & Hframe & _).
  split; [exact Hout|]. apply Hframe; [|reflexivity].
  intros [=]%list_elem_of_singleton.
Defined.

(** ** Matches out of range *)

Section match_bounds.
Context {coord : Type}.
Implicit Types st merge : @Structure coord.

Lemma atom_items_raise st (l : list Z) :
  Exists (λ x, ¬ 1 ≤ x ≤ len_atom st) l →
  comprehension (atom_item st) l = raise IndexError.
Proof.
  induction l as [|x l IH]; [by intros ?%Exists_nil|].
  intros Hex. simpl. unfold atom_item at 1. case_bool_decide as Hx.
  - rewrite bind_ret_l, IH; [done|].
    apply Exists_cons in Hex as [?|?]; [done|done].
  - done.
Qed.

Lemma atom_items_ret st (l : list Z) :
  Forall (λ x, 1 ≤ x ≤ len_atom st) l →
  comprehension (atom_item st) l = ret l.
Proof.
  induction 1 as [|x l Hx _ IH]; [done|]. simpl.
  unfold atom_item at 1. rewrite bool_decide_eq_true_2 by done.
  by rewrite bind_ret_l, IH, bind_ret_l.
Qed.

(** X16. A match that names no atom of the union is refused before anything
    is merged: when [match_2] has an index [x] for which [x + len(struct_1.atom)]
    is no atom index of the union, or [match_1] has an index that is no atom
    index of the union, [merge_structures_from_matching_atoms] raises
    [IndexError] and has printed nothing.  The bound is the atom count of the
    union, not that of the structure the match comes from. *)
Theorem match_out_of_range (A B : @Structure coord) (match_1 match_2 : list Z) :
  Exists (λ x, ¬ 1 - len_atom A ≤ x ≤ len_atom B) match_2
  ∨ Exists (λ x, ¬ 1 ≤ x ≤ len_atom A + len_atom B) match_1 →
  merge_structures_from_matching_atoms A match_1 B match_2 = raise IndexError.
Proof.
  intros Hout. unfold merge_structures_from_matching_atoms.
  set (union := structure_merge A B).
  assert (len_atom union = len_atom A + len_atom B) as Hlen.
  { unfold len_atom. simpl. rewrite length_app. lia. }
  destruct (decide (Forall (λ x, 1 ≤ x ≤ len_atom union)
                      ((λ x, x + len_atom A) <$> match_2))) as [Hcs2|Hcs2].
  - rewrite (atom_items_ret _ _ Hcs2), bind_ret_l.
    destruct Hout as [Hout|Hout].
    + exfalso. apply Exists_exists in Hout as (x & Hx & Hnot). apply Hnot.
      rewrite Forall_fmap, Forall_forall in Hcs2. specialize (Hcs2 x Hx).
      simpl in Hcs2. lia.
    + rewrite atom_items_raise; [done|].
      eapply Exists_impl; [exact Hout|]. intros x. simpl. lia.
  - apply not_Forall_Exists in Hcs2; [|apply _].
    by rewrite (atom_items_raise _ _ Hcs2).
Qed.
End match_bounds.

(** ** An enantiomer without a title *)

Section enantiomer_errors.
Context {coord : Type} {tk : Toolkit coord}.

(** X17. On a structure whose [b_cs_both_enantiomers] is true and that has
    no [s_m_title], [load_enantiomers] raises the [KeyError] of the title, which
    it looks up before it copies the structure. *)
Theorem enantiomer_without_title (structure : nat) (h : list (@Structure coord)) st v :
  h !! structure = Some st →
  dict_get "b_cs_both_enantiomers" (property st) = Some v → truthy v = true →
  dict_get "s_m_title" (property st) = None →
  load_enantiomers structure h = raise (KeyError "s_m_title").
Proof.
  intros Hst Hflag Hv Htitle. unfold load_enantiomers, deref.
  rewrite Hst, bind_ret_l. unfold dict_get_default. rewrite Hflag, Hv.
  unfold getitem. by rewrite Htitle.
Qed.
End enantiomer_errors.

(** ** What [add_rca4] writes *)

Section rca4_update.
Context {coord : Type}.
Implicit Types st merge : @Structure coord.

Lemma collect_rca4_cases st (bd : Bond) (acc rca4s : list (list Value)) :
  returns (collect_rca4 st bd acc) rca4s →
  (rca4s = acc
   ∧ ∃ v1, dict_get "i_cs_rca4_1" (bproperty bd) = Some v1 ∧ truthy v1 = false)
  ∨ ∃ rca4, rca4s = acc ++ [rca4] ∧ rca4_of bd rca4.
Proof.
  unfold collect_rca4, getitem.
  destruct (dict_get "i_cs_rca4_1" (bproperty bd)) as [v1|] eqn:Hv1.
  - rewrite !bind_ret_l. unfold try_except, ret at 1. rewrite bind_ret_l.
    destruct (truthy v1) eqn:Ht.
    + destruct (dict_get "i_cs_rca4_2" (bproperty bd)) as [v2|] eqn:Hv2.
      * rewrite !bind_ret_l. intros <-%returns_ret. right. eexists. split; [done|].
        by exists v1, v2.
      * rewrite bind_raise. by intros ?%returns_raise.
    + intros <-%returns_ret. left. split; [done|]. by exists v1.
  - intros (? & Htry & _)%returns_bind. revert Htry.
    unfold try_except. rewrite bind_raise. simpl.
    destruct (dict_get "s_m_title" (property st)); by intros [=].
Qed.

Lemma collect_rca4s_cases st (bonds : list Bond) (acc rca4s : list (list Value)) :
  returns (for_each bonds (collect_rca4 st) acc) rca4s →
  ∃ new,
    rca4s = acc ++ new
    ∧ Forall (λ rca4, ∃ bd, bd ∈ bonds ∧ rca4_of bd rca4) new
    ∧ (∀ bd v1, bd ∈ bonds →
         dict_get "i_cs_rca4_1" (bproperty bd) = Some v1 → truthy v1 = true →
         ∃ rca4, rca4 ∈ new ∧ rca4_of bd rca4).
Proof.
  revert acc. induction bonds as [|bd bonds IH]; intros acc; simpl.
  - intros <-%returns_ret. exists []. rewrite app_nil_r. split_and!; [done|constructor|].
    by intros bd v1 ?%elem_of_nil.
  - intros (acc1 & Hone & Hrest)%returns_bind.
    destruct (IH _ Hrest) as (new & -> & Hall & Hcover).
    apply collect_rca4_cases in Hone as [[-> (w & Hw & Hfalse)]|(rca4 & -> & Htuple)].
    + exists new. split_and!; [done| |].
      * eapply Forall_impl; [exact Hall|]. intros r (bd' & Hin & Hr).
        exists bd'. split; [by apply list_elem_of_further|done].
      * intros bd' v1 [->|Hin]%elem_of_cons Hv1 Ht; [congruence|]. by eapply Hcover.
    + exists (rca4 :: new). split_and!; [by rewrite <-app_assoc| |].
      * constructor; [exists bd; split; [apply list_elem_of_here|done]|].
        eapply Forall_impl; [exact Hall|]. intros r (bd' & Hin & Hr).
        exists bd'. split; [by apply list_elem_of_further|done].
      * intros bd' v1 [->|Hin]%elem_of_cons Hv1 Ht.
        -- exists rca4. split; [apply list_elem_of_here|done].
        -- destruct (Hcover bd' v1 Hin Hv1 Ht) as (r & Hr & Htup).
           exists r. split; [by apply list_elem_of_further|done].
Qed.

Lemma translate_rca4_tuple (n : Z) (m1 m2 : list Z) (bd : Bond) (rca4 : list Value)
    (new_rca4 : list Z) :
  rca4_of bd rca4 →
  returns (comprehension (translate_value n m1 m2) rca4) new_rca4 →
  ∃ r1 a1 a2 r2, new_rca4 = [r1; a1; a2; r2] ∧ new_rca4_of n m1 m2 bd r1 a1 a2 r2.
Proof.
  intros (v1 & v2 & Hv1 & Ht & Hv2 & ->) Hall%comprehension_returns.
  apply Forall2_cons_inv_l in Hall as (r1 & l1 & Hr1 & Hall & ->).
  apply Forall2_cons_inv_l in Hall as (a1 & l2 & Ha1 & Hall & ->).
  apply Forall2_cons_inv_l in Hall as (a2 & l3 & Ha2 & Hall & ->).
  apply Forall2_cons_inv_l in Hall as (r2 & l4 & Hr2 & ->%Forall2_nil_inv_l & ->).
  exists r1, a1, a2, r2. split; [done|]. exists v1, v2.
  assert (∀ (m : R Z) y, returns m y → m.1 = [] → m = ret y) as Hret.
  { intros [out r] y. unfold returns. simpl. by intros -> ->. }
  assert (∀ v, (translate_value n m1 m2 v).1 = []) as Hsilent.
  { intros v. unfold translate_value, translate_index, list_item.
    destruct (as_int v) as [x|]; [|done]. case_decide; [|done].
    destruct (index x m2) as [i|]; [|done]. by destruct (m1 !! i). }
  split_and!; try done; try (by apply Hret).
  - apply (Hret (translate_value n m1 m2 (VInt (atom1 bd)))); [done|apply Hsilent].
  - apply (Hret (translate_value n m1 m2 (VInt (atom2 bd)))); [done|apply Hsilent].
Qed.

Lemma update_rca4_returns (r1 a1 a2 r2 : Z) merge merge' :
  returns (update_rca4 [r1; a1; a2; r2] merge) merge' →
  ∃ p bd,
    getBond merge a1 a2 = Some p ∧ bond merge !! p = Some bd
    ∧ merge' = set_bproperty merge p
                 (dict_update "i_cs_rca4_2" (VInt r2)
                    (dict_update "i_cs_rca4_1" (VInt r1) (bproperty bd)))
    ∧ 1 ≤ r1 ≤ len_atom merge ∧ 1 ≤ r2 ≤ len_atom merge.
Proof.
  unfold update_rca4, list_item. simpl. rewrite !bind_ret_l.
  destruct (getBond merge a1 a2) as [p|] eqn:Hp; [|by intros ?%returns_raise].
  destruct (bond merge !! p) as [bd|] eqn:Hbd; [|by intros ?%returns_raise].
  intros (? & _ & Hrun)%returns_bind.
  apply returns_bind in Hrun as (? & _ & Hrun). rewrite !bind_ret_l in Hrun.
  apply returns_bind in Hrun as (? & [_ Hr1]%atom_item_returns & Hrun).
  apply returns_bind in Hrun as (? & [_ Hr2]%atom_item_returns & <-%returns_ret).
  unfold len_atom in *. simpl in Hr1, Hr2. exists p, bd. split_and!; try done; lia.
Qed.
Lemma collect_rca4_skip st (bd : Bond) (acc : list (list Value)) v :
  dict_get "i_cs_rca4_1" (bproperty bd) = Some v → truthy v = false →
  collect_rca4 st bd acc = ret acc.
Proof.
  intros Hv Ht. unfold collect_rca4, getitem. rewrite Hv, !bind_ret_l.
  unfold try_except, ret at 1. by rewrite bind_ret_l, Ht.
Qed.

(** X18. When every bond of the second structure has a falsy
    [i_cs_rca4_1] (no bond is annotated), [add_rca4] returns the merged
    structure as it is given, whatever the matches, and prints nothing. *)
Theorem add_rca4_without_annotations merge struct_1 (match_1 : list Z) struct_2
    (match_2 : list Z) :
  Forall (λ bd, ∃ v, dict_get "i_cs_rca4_1" (bproperty bd) = Some v ∧ truthy v = false)
         (bond struct_2) →
  add_rca4 merge struct_1 match_1 struct_2 match_2 = ret merge.
Proof.
  intros Hall. unfold add_rca4.
  assert (for_each (bond struct_2) (collect_rca4 struct_2) [] = ret []) as ->.
  { generalize (@nil (list Value)).
    induction Hall as [|bd bonds (v & Hv & Ht) _ IH]; intros acc; simpl; [done|].
    by rewrite (collect_rca4_skip _ _ _ v Hv Ht), bind_ret_l. }
  by rewrite bind_ret_l.
Qed.

(** The tuples that the last loop of [add_rca4] works on. *)
Lemma add_rca4_tuples merge struct_1 (match_1 : list Z) struct_2 (match_2 : list Z) merge' :
  returns (add_rca4 merge struct_1 match_1 struct_2 match_2) merge' →
  ∃ new_rca4s,
    returns (for_each new_rca4s update_rca4 merge) merge'
    ∧ Forall (λ new_rca4, ∃ bd r1 a1 a2 r2,
                bd ∈ bond struct_2 ∧ new_rca4 = [r1; a1; a2; r2]
                ∧ new_rca4_of (len_atom struct_1) match_1 match_2 bd r1 a1 a2 r2)
        new_rca4s
    ∧ (∀ bd v1, bd ∈ bond struct_2 →
         dict_get "i_cs_rca4_1" (bproperty bd) = Some v1 → truthy v1 = true →
         ∃ r1 a1 a2 r2,
           [r1; a1; a2; r2] ∈ new_rca4s
           ∧ new_rca4_of (len_atom struct_1) match_1 match_2 bd r1 a1 a2 r2).
Proof.
  unfold add_rca4.
  intros (rca4s & Hcollect & (new_rca4s & Htr & Hloop)%returns_bind)%returns_bind.
  exists new_rca4s. split; [done|].
  apply collect_rca4s_cases in Hcollect as (new & -> & Hall & Hcover).
  rewrite app_nil_l in Htr.
  rewrite translate_rca4s_comprehension in Htr.
  apply comprehension_returns in Htr. split.
  - apply Forall_lookup_2. intros i new_rca4 Hi.
    destruct (Forall2_lookup_r _ _ _ _ _ Htr Hi) as (rca4 & Hrca4 & Hone).
    rewrite Forall_lookup in Hall. destruct (Hall i rca4 Hrca4) as (bd & Hbd & Htuple).
    destruct (translate_rca4_tuple _ _ _ _ _ _ Htuple Hone)
      as (r1 & a1 & a2 & r2 & -> & Hnew).
    by exists bd, r1, a1, a2, r2.
  - intros bd v1 Hbd Hv1 Ht.
    destruct (Hcover bd v1 Hbd Hv1 Ht) as (rca4 & [i Hi]%list_elem_of_lookup_1 & Htuple).
    destruct (Forall2_lookup_l _ _ _ _ _ Htr Hi) as (new_rca4 & Hnew & Hone).
    destruct (translate_rca4_tuple _ _ _ _ _ _ Htuple Hone)
      as (r1 & a1 & a2 & r2 & -> & Hof).
    exists r1, a1, a2, r2. split; [by eapply list_elem_of_lookup_2|done].
Qed.

(** X19. A run of [add_rca4] that ends without an exception leaves the
    atoms, the structure-level annotations, and the place, ends and order of
    every bond as they are; a bond keeps all its annotations but
    [i_cs_rca4_1] and [i_cs_rca4_2], and these two change only on a bond that
    joins the translated ends of an annotated bond of the second structure,
    where they become the translated references of that bond, which name atoms
    of the structure.  Every annotated bond of the second structure has such a
    bond in the result. *)
Theorem add_rca4_writes_translations merge struct_1 (match_1 : list Z) struct_2
    (match_2 : list Z) merge' :
  returns (add_rca4 merge struct_1 match_1 struct_2 match_2) merge' →
  atom merge' = atom merge
  ∧ property merge' = property merge
  ∧ Forall2 (rca4_updated merge (bond struct_2) (len_atom struct_1) match_1 match_2)
      (bond merge) (bond merge')
  ∧ (∀ bd v1, bd ∈ bond struct_2 →
       dict_get "i_cs_rca4_1" (bproperty bd) = Some v1 → truthy v1 = true →
       ∃ r1 a1 a2 r2,
         new_rca4_of (len_atom struct_1) match_1 match_2 bd r1 a1 a2 r2
         ∧ is_Some (getBond merge' a1 a2)).
Proof.
  intros Hrun.
  split; [by eapply add_rca4_atom|]. split; [by eapply add_rca4_property|].
  pose proof (add_rca4_skeleton _ _ _ _ _ _ Hrun) as Hskel.
  destruct (add_rca4_tuples _ _ _ _ _ _ Hrun) as (new_rca4s & Hloop & Hall & Hcover).
  split.
  - revert Hloop.
    apply (for_each_returns_ind
             (λ m, atom m = atom merge
                   ∧ Forall2 (rca4_updated merge (bond struct_2) (len_atom struct_1)
                                match_1 match_2) (bond merge) (bond m))).
    { split; [done|]. apply Forall_Forall2_diag, Forall_forall. intros b0 _.
      split_and!; [done|done|by left]. }
    intros new_rca4 m1 m2 Hin [Hatom Hbonds] Hstep.
    rewrite Forall_forall in Hall.
    destruct (Hall _ Hin) as (bd & r1 & a1 & a2 & r2 & Hbd & -> & Hnew).
    apply update_rca4_returns in Hstep
      as (p & bc & Hp & Hbc & -> & Hr1 & Hr2). simpl.
    split; [done|]. apply Forall2_alter_r; [done|].
    intros b0 y _ Hy (Hsk & Hother & _). simpl.
    assert (y = bc) as -> by congruence.
    split_and!; [done| |right].
    + intros k Hk1 Hk2. simpl. rewrite !dict_get_update, !decide_False by done.
      by apply Hother.
    + exists bd, r1, a1, a2, r2. unfold len_atom in Hr1, Hr2. rewrite Hatom in Hr1, Hr2.
      apply find_bond_Some in Hp as (bc' & Hbc' & Hj).
      assert (bc' = bc) as -> by congruence.
      split_and!; try done; try lia; simpl.
      * rewrite dict_get_update, decide_False by done.
        by rewrite dict_get_update, decide_True.
      * by rewrite dict_get_update, decide_True.
  - intros bd v1 Hbd Hv1 Ht.
    destruct (Hcover bd v1 Hbd Hv1 Ht) as (r1 & a1 & a2 & r2 & Hin & Hnew).
    exists r1, a1, a2, r2. split; [done|].
    destruct (for_each_returns_elem
                (λ m, skeleton <$> bond m = skeleton <$> bond merge)
                _ _ _ _ _ eq_refl
                (λ x s1 s2 _ Hs1 Hs, eq_trans (update_rca4_skeleton _ _ _ Hs) Hs1)
                Hloop Hin) as (sa & sb & Hsa & Hstep).
    apply update_rca4_returns in Hstep as (p & bc & Hp & _).
    apply has_bond_getBond.
    apply (has_bond_kept sa); [apply ends_kept_skeleton; congruence|].
    apply find_bond_Some in Hp as (bc' & Hbc' & Hj). by exists p, bc'.
Qed.
End rca4_update.

(** ** The keys that [search_dic_keys] selects *)

Lemma prefix_app (lookup key : string) :
  String.prefix lookup key = true ↔ ∃ post, key = lookup +:+ post.
Proof.
  revert key. induction lookup as [|c lookup IH]; intros key.
  - split; [|by destruct key]. intros _. by exists key.
  - destruct key as [|c' key]; simpl.
    + split; [done|]. by intros (post & [=]).
    + destruct (Ascii.ascii_dec c c') as [->|Hne].
      * rewrite IH. split; intros (post & Hpost); exists post.
        -- by rewrite Hpost.
        -- by injection Hpost.
      * split; [done|]. intros (post & [= ? _]). done.
Qed.

Lemma contains_substring (lookup key : string) :
  contains lookup key = true ↔ ∃ pre post, key = pre +:+ lookup +:+ post.
Proof.
  induction key as [|c key IH].
  - change (contains lookup "") with (String.prefix lookup "" || false).
    rewrite orb_false_r, prefix_app. split.
    + intros (post & Hpost). by exists "", post.
    + intros (pre & post & Hkey). destruct pre; [by exists post|done].
  - change (contains lookup (String c key))
      with (String.prefix lookup (String c key) || contains lookup key).
    rewrite orb_true_iff, prefix_app, IH. split.
    + intros [(post & Hpost)|(pre & post & ->)].
      * by exists "", post.
      * by exists (String c pre), post.
    + intros ([|c' pre] & post & Hkey).
      * left. by exists post.
      * right. injection Hkey as -> ->. by exists pre, post.
Qed.

(** X20. [search_dic_keys] yields the values of the keys that have [lookup]
    as a substring, at any place in the key, in the order of the dictionary;
    with the empty string it yields every value. *)
Theorem search_dic_keys_substring (dic : dict) (lookup : string) :
  (∀ v, v ∈ search_dic_keys dic lookup
        ↔ ∃ key pre post, (key, v) ∈ dic ∧ key = pre +:+ lookup +:+ post)
  ∧ search_dic_keys dic lookup `sublist_of` dic.*2
  ∧ search_dic_keys dic "" = dic.*2.
Proof.
  unfold search_dic_keys. split_and!.
  - intros v. rewrite list_elem_of_fmap. split.
    + intros ([key v'] & -> & [Hc Hin]%list_elem_of_filter). simpl in *.
      apply contains_substring in Hc as (pre & post & Hkey). by exists key, pre, post.
    + intros (key & pre & post & Hin & Hkey). exists (key, v). split; [done|].
      apply list_elem_of_filter. split; [|done]. simpl.
      apply contains_substring. by exists pre, post.
  - apply fmap_sublist, sublist_filter.
  - f_equal. induction dic as [|[k v] dic IH]; [done|].
    rewrite (filter_cons (λ kv : string * Value, contains "" kv.1 = true)).
    rewrite decide_True; [by f_equal|]. simpl. by destruct k.
Qed.

(** ** Groups of files *)

Lemma for_each_ext {A S} (l : list A) (body body' : A → S → R S) (s : S) :
  (∀ x s, body x s = body' x s) → for_each l body s = for_each l body' s.
Proof.
  intros Hext. revert s. induction l as [|x l IH]; intros s; simpl; [done|].
  rewrite Hext. apply bind_ext. intros s1. apply IH.
Qed.

#[local] Abbreviation loading :=
  (Forall (λ line, ∃ title, line = LoadingOtherEnantiomer title)).

Lemma bind_output {A B} (m : R A) (f : A → R B) :
  (∀ a, returns m a → loading (f a).1) → loading m.1 → loading (bind m f).1.
Proof.
  unfold bind, returns. destruct m as [out [a|e]]; simpl; [|done].
  intros Hf Hout. specialize (Hf a eq_refl). destruct (f a) as [out' r]. simpl in *.
  by apply Forall_app.
Qed.

Lemma bind_raises_while_reading_l {A B} (m : R A) (f : A → R B) :
  raises_while_reading m → raises_while_reading (bind m f).
Proof.
  unfold raises_while_reading, raises, bind. destruct m as [out [a|e]]; simpl.
  - by intros [[e [=]] _].
  - intros [_ Hout]. split; [by exists e|done].
Qed.

Lemma bind_raises_while_reading_r {A B} (m : R A) (f : A → R B) :
  loading m.1 → (∀ a, returns m a → raises_while_reading (f a)) →
  raises_while_reading (bind m f).
Proof.
  unfold raises_while_reading, raises, returns, bind.
  destruct m as [out [a|e]]; simpl.
  - intros Hout Hf. destruct (Hf a eq_refl) as [[e He] Hfa].
    destruct (f a) as [out' r]. simpl in *. split; [by exists e|by apply Forall_app].
  - intros Hout _. split; [by exists e|done].
Qed.

Lemma for_each_output {A S} (l : list A) (body : A → S → R S) (s : S) :
  (∀ x s, loading (body x s).1) → loading (for_each l body s).1.
Proof.
  intros Hbody. revert s. induction l as [|x l IH]; intros s; simpl; [constructor|].
  apply bind_output; [|apply Hbody]. intros s1 _. apply IH.
Qed.

Lemma for_each_raises_while_reading {A S} (l : list A) (body : A → S → R S) (s : S)
    (x : A) :
  x ∈ l →
  (∀ s, raises_while_reading (body x s)) →
  (∀ y s, loading (body y s).1) →
  raises_while_reading (for_each l body s).
Proof.
  intros Hx Hfail Hbody. revert s. induction l as [|y l IH]; intros s; simpl.
  - by apply elem_of_nil in Hx.
  - apply elem_of_cons in Hx as [<-|Hx].
    + by apply bind_raises_while_reading_l.
    + apply bind_raises_while_reading_r; [apply Hbody|]. intros s1 _. by apply IH.
Qed.

Section lazy_generators.
Context {coord : Type} {tk : Toolkit coord}.
#[local] Abbreviation ref := nat.
#[local] Abbreviation store := (list (@Structure coord)).
Implicit Types h : store.
Implicit Types l out : list ref.

(** The loop that [list(..)] runs on what is yielded. *)
#[local] Abbreviation collect :=
  (λ (structure : nat) '((l, h) : list nat * list (@Structure coord)),
     ret (l ++ [structure], h)).

(** Collecting what the generator of [merge] yields gives the list and the
    store of [merge]. *)
Lemma merge_generator_collect (struct_1 struct_2 : ref) out h :
  merge_generator struct_1 struct_2 collect (out, h)
  = (r <- merge struct_1 struct_2 h ;; ret (out ++ r.1, r.2)).
Proof.
  unfold merge_generator, merge. rewrite ?bind_assoc.
  apply bind_ext. intros st_1. rewrite ?bind_assoc.
  apply bind_ext. intros st_2. rewrite ?bind_assoc.
  apply bind_ext. intros [match_1s match_2s].
  rewrite (for_each_list_prod match_1s match_2s
             (λ match_1 match_2 '(c, h),
                st_1 <- deref h struct_1 ;;
                comprehension (atom_item st_1) match_1 ;;;
                st_2 <- deref h struct_2 ;;
                comprehension (atom_item st_2) match_2 ;;;
                h <- do_superimpose struct_1 match_1 struct_2 match_2 h ;;
                st_1 <- deref h struct_1 ;;
                st_2 <- deref h struct_2 ;;
                merged <- merge_structures_from_matching_atoms st_1 match_1 st_2 match_2 ;;
                collect (length h) (c, h ++ [merged]))).
  rewrite (for_each_list_prod match_1s match_2s (merge_pair struct_1 struct_2)).
  enough (∀ (pairs : list (list Z * list Z)) h acc,
            for_each pairs
              (λ xy '(c, h),
                 st_1 <- deref h struct_1 ;;
                 comprehension (atom_item st_1) xy.1 ;;;
                 st_2 <- deref h struct_2 ;;
                 comprehension (atom_item st_2) xy.2 ;;;
                 h <- do_superimpose struct_1 xy.1 struct_2 xy.2 h ;;
                 st_1 <- deref h struct_1 ;;
                 st_2 <- deref h struct_2 ;;
                 merged <- merge_structures_from_matching_atoms st_1 xy.1 st_2 xy.2 ;;
                 collect (length h) (c, h ++ [merged]))
              (out ++ acc, h)
            = (r <- for_each pairs (λ xy, merge_pair struct_1 struct_2 xy.1 xy.2) (acc, h) ;;
               ret (out ++ r.1, r.2))) as Hpairs.
  { rewrite <-(app_nil_r out) at 1. apply Hpairs. }
  induction pairs as [|[match_1 match_2] pairs IH]; intros h' acc; simpl.
  - by rewrite bind_ret_l.
  - unfold merge_pair. rewrite ?bind_assoc.
    apply bind_ext. intros s1. rewrite ?bind_assoc.
    apply bind_ext. intros ?. rewrite ?bind_assoc.
    apply bind_ext. intros s2. rewrite ?bind_assoc.
    apply bind_ext. intros ?. rewrite ?bind_assoc.
    apply bind_ext. intros h1. rewrite ?bind_assoc.
    apply bind_ext. intros s1'. rewrite ?bind_assoc.
    apply bind_ext. intros s2'. rewrite ?bind_assoc.
    apply bind_ext. intros merged. rewrite !bind_ret_l.
    rewrite <-app_assoc. apply IH.
Qed.
Lemma to_list_iter l h : to_list (iter l) h = ret (l, h).
Proof.
  unfold to_list, iter.
  enough (∀ acc, for_each l collect (acc, h) = ret (acc ++ l, h)) as Hacc by apply Hacc.
  induction l as [|x l IH]; intros acc; simpl.
  - by rewrite app_nil_r.
  - by rewrite bind_ret_l, IH, <-app_assoc.
Qed.

Lemma to_list_merge_many_structures l1 l2 h :
  to_list (merge_many_structures_generator (iter l1) l2) h
  = merge_many_structures l1 l2 h.
Proof.
  unfold to_list, merge_many_structures_generator, iter, merge_many_structures.
  apply for_each_ext. intros structure_1 s.
  apply for_each_ext. intros structure_2 [out h']. apply merge_generator_collect.
Qed.

Lemma iter_yields_only l0 : yields_only (iter (coord := coord) l0).
Proof.
  intros I yield Hyield l h l' h' Hl. unfold iter.
  apply (for_each_returns_ind (λ s : list nat * store, I s.1)); [done|].
  intros x [l1 h1] [l2 h2] _. apply Hyield.
Qed.

Lemma merge_generator_yields_only (struct_1 struct_2 : ref) :
  yields_only (merge_generator struct_1 struct_2).
Proof.
  intros I yield Hyield l h l' h' Hl. unfold merge_generator.
  intros (st_1 & _ & (st_2 & _ & Hrun)%returns_bind)%returns_bind.
  apply returns_bind in Hrun as ([match_1s match_2s] & _ & Hrun). revert Hrun.
  apply (for_each_returns_ind (λ s : list nat * store, I s.1)); [done|].
  intros match_1 s1 s2 _ Hs1.
  apply (for_each_returns_ind (λ s : list nat * store, I s.1)); [done|].
  intros match_2 [l3 h3] [l4 h4] _ Hl3 Hrun.
  apply returns_bind in Hrun as (? & _ & Hrun).
  apply returns_bind in Hrun as (? & _ & Hrun).
  apply returns_bind in Hrun as (? & _ & Hrun).
  apply returns_bind in Hrun as (? & _ & Hrun).
  apply returns_bind in Hrun as (h5 & _ & Hrun).
  apply returns_bind in Hrun as (? & _ & Hrun).
  apply returns_bind in Hrun as (? & _ & Hrun).
  apply returns_bind in Hrun as (merged & _ & Hrun).
  by eapply Hyield.
Qed.

Lemma merge_many_structures_generator_yields_only (structures_1 : iterable (list nat))
    (structures_2 : list ref) :
  yields_only structures_1 →
  yields_only (merge_many_structures_generator structures_1 structures_2).
Proof.
  intros H1 I yield Hyield l h l' h' Hl. unfold merge_many_structures_generator.
  apply (H1 I); [|done].
  intros structure_1 l1 h1 l2 h2 Hl1.
  apply (for_each_returns_ind (λ s : list nat * store, I s.1)); [done|].
  intros structure_2 [l3 h3] [l4 h4] _ Hl3.
  by apply (merge_generator_yields_only structure_1 structure_2 I yield).
Qed.

Lemma merge_many_structures_generator_nothing (structures_1 : iterable (list nat))
    (structures_2 : list ref) :
  yields_nothing structures_1 ∨ (yields_only structures_1 ∧ structures_2 = []) →
  yields_nothing (merge_many_structures_generator structures_1 structures_2).
Proof.
  intros [H1|[H1 ->]] yield l h l' h'; unfold merge_many_structures_generator.
  - apply H1.
  - apply (H1 (λ l', l' = l)); [|done].
    intros x l1 h1 l2 h2 ->. simpl. by intros [= <- _]%returns_ret.
Qed.

Section reading.
Variable StructureReader : string → list (@Structure coord) * option exn.

(** X22. [merge_many_filenames] on no group raises [IndexError]; on one
    group it returns the structures read, with their enantiomers, and merges
    nothing; on two groups it reads the first group, then the second, and
    returns what [merge_many_structures] yields on the two lists. *)
Theorem merge_many_filenames_small (first second : list string) h :
  merge_many_filenames StructureReader [] h = raise IndexError
  ∧ merge_many_filenames StructureReader [first] h
    = read_structures StructureReader first ([], h)
  ∧ merge_many_filenames StructureReader [first; second] h
    = (r1 <- read_structures StructureReader first ([], h) ;;
       r2 <- read_structures StructureReader second ([], r1.2) ;;
       merge_many_structures r1.1 r2.1 r2.2).
Proof.
  split_and!; [done| |].
  - unfold merge_many_filenames. simpl.
    rewrite <-(bind_ret_r (read_structures StructureReader first ([], h))) at 2.
    apply bind_ext. intros [l h']. rewrite bind_ret_l. simpl. by rewrite to_list_iter.
  - unfold merge_many_filenames. simpl.
    apply bind_ext. intros [l1 h1]. rewrite ?bind_assoc. simpl.
    apply bind_ext. intros [l2 h2]. rewrite !bind_ret_l. simpl.
    apply to_list_merge_many_structures.
Qed.
Lemma read_structures_nothing (filenames : list string) (s s' : list ref * store) :
  Forall (λ filename, (StructureReader filename).1 = []) filenames →
  returns (read_structures StructureReader filenames s) s' → s' = s.
Proof.
  intros Hall. unfold read_structures.
  apply (for_each_returns_ind (λ s', s' = s)); [done|].
  intros filename s1 s2 Hin ->. rewrite Forall_forall in Hall.
  specialize (Hall filename Hin). destruct (StructureReader filename) as [sch_reader failure].
  simpl in Hall. subst sch_reader. simpl. rewrite bind_ret_l.
  destruct failure; [by intros ?%returns_raise|]. by intros <-%returns_ret.
Qed.

(** The loop over the groups after the first one, which carries the iterable
    [structures] and the store. *)
#[local] Abbreviation chain :=
  (λ (filenames : list string)
     '((structures, h) : iterable (list nat) * list (@Structure coord)),
     r <- read_structures StructureReader filenames ([], h) ;;
     let '(new_structures, h) := r in
     ret (merge_many_structures_generator structures new_structures, h)).

Lemma chain_yields_only (groups : list (list string))
    (s s' : iterable (list nat) * store) :
  yields_only s.1 → returns (for_each groups chain s) s' → yields_only s'.1.
Proof.
  intros Hs.
  apply (for_each_returns_ind (A := list string) (S := iterable (list nat) * store)
           (λ s, yields_only s.1)); [done|].
  intros filenames [g1 h1] s2 _ Hg1 ([new h2] & _ & <-%returns_ret)%returns_bind.
  by apply merge_many_structures_generator_yields_only.
Qed.

Lemma chain_yields_nothing (groups : list (list string))
    (s s' : iterable (list nat) * store) :
  yields_nothing s.1 → returns (for_each groups chain s) s' → yields_nothing s'.1.
Proof.
  intros Hs.
  apply (for_each_returns_ind (A := list string) (S := iterable (list nat) * store)
           (λ s, yields_nothing s.1)); [done|].
  intros filenames [g1 h1] s2 _ Hg1 ([new h2] & _ & <-%returns_ret)%returns_bind.
  apply merge_many_structures_generator_nothing. by left.
Qed.

(** X23. When the files of one group, the first or a later one, hold no
    structure, a run of [merge_many_filenames] that ends without an exception
    returns no structure, whatever the other groups hold. *)
Theorem empty_group_gives_nothing (before after : list (list string))
    (filenames : list string) h out h' :
  Forall (λ filename, (StructureReader filename).1 = []) filenames →
  returns (merge_many_filenames StructureReader (before ++ filenames :: after) h)
    (out, h') →
  out = [].
Proof.
  intros Hempty. destruct before as [|first before]; simpl.
  - intros (r & ->%(read_structures_nothing _ _ _ Hempty) & Hrun)%returns_bind.
    apply returns_bind in Hrun as (s & Hchain & Hrun).
    apply chain_yields_nothing in Hchain.
    + by apply Hchain in Hrun.
    + intros yield l h0 l' h0'. by intros [= <- _]%returns_ret.
  - intros (r & _ & Hrun)%returns_bind.
    apply returns_bind in Hrun as (s & Hchain & Hrun).
    rewrite for_each_app in Hchain.
    apply returns_bind in Hchain as ([g1 h1] & Hbefore & Hchain).
    apply chain_yields_only in Hbefore; [|apply iter_yields_only].
    simpl in Hchain. apply returns_bind in Hchain as (s2 & Hgroup & Hafter).
    apply returns_bind in Hgroup
      as (r2 & ->%(read_structures_nothing _ _ _ Hempty) & <-%returns_ret).
    apply chain_yields_nothing in Hafter.
    + by apply Hafter in Hrun.
    + apply merge_many_structures_generator_nothing. by right.
Qed.
Lemma load_enantiomers_output (structure : ref) h :
  loading (load_enantiomers structure h).1.
Proof.
  unfold load_enantiomers, deref, getitem, bind, ret, raise, print.
  destruct (h !! structure) as [st|]; simpl; [|constructor].
  destruct (truthy _); simpl; [|constructor].
  destruct (dict_get "s_m_title" (property st)) as [title|]; simpl; [|constructor].
  rewrite lookup_app_r, Nat.sub_diag by done. simpl.
  constructor; [by eexists|constructor].
Qed.

Lemma read_structures_output (filenames : list string) (s : list ref * store) :
  loading (read_structures StructureReader filenames s).1.
Proof.
  apply for_each_output. intros filename s1.
  destruct (StructureReader filename) as [sch_reader failure].
  apply bind_output.
  - intros s2 _. destruct failure; constructor.
  - apply for_each_output. intros structure [structures h1].
    apply bind_output; [|apply load_enantiomers_output]. intros r _. constructor.
Qed.

Lemma read_structures_fails (filenames : list string) (s : list ref * store)
    (filename : string) sch_reader (e : exn) :
  filename ∈ filenames →
  StructureReader filename = (sch_reader, Some e) →
  raises_while_reading (read_structures StructureReader filenames s).
Proof.
  intros Hin Hfile. unfold read_structures.
  apply (for_each_raises_while_reading _ _ _ filename); [done| |].
  - intros s1. rewrite Hfile. apply bind_raises_while_reading_r.
    + apply for_each_output. intros structure [structures h1].
      apply bind_output; [|apply load_enantiomers_output]. intros r _. constructor.
    + intros s2 _. split; [by exists e|constructor].
  - intros y s1. destruct (StructureReader y) as [reader failure].
    apply bind_output.
    + intros s2 _. destruct failure; constructor.
    + apply for_each_output. intros structure [structures h1].
      apply bind_output; [|apply load_enantiomers_output]. intros r _. constructor.
Qed.

(** X24. All groups are read before anything is merged: when a file of any
    group cannot be read to its end, [merge_many_filenames] raises, and what
    it has printed until then are lines of [load_enantiomers] only, so that no
    pattern has been looked for. *)
Theorem reading_comes_first (list_of_lists : list (list string)) h
    (filenames : list string) (filename : string) sch_reader (e : exn) :
  filenames ∈ list_of_lists → filename ∈ filenames →
  StructureReader filename = (sch_reader, Some e) →
  raises_while_reading (merge_many_filenames StructureReader list_of_lists h).
Proof.
  intros Hgroup Hin Hfile. destruct list_of_lists as [|first rest];
    [by apply elem_of_nil in Hgroup|].
  simpl. apply elem_of_cons in Hgroup as [<-|Hgroup].
  - apply bind_raises_while_reading_l. by eapply read_structures_fails.
  - apply bind_raises_while_reading_r; [apply read_structures_output|].
    intros r _. apply bind_raises_while_reading_l.
    apply (for_each_raises_while_reading _ _ _ filenames); [done| |].
    + intros [g1 h1]. apply bind_raises_while_reading_l.
      by eapply read_structures_fails.
    + intros y [g1 h1]. apply bind_output; [|apply read_structures_output].
      intros [new h2] _. constructor.
Qed.
End reading.
End lazy_generators.

(** ** Chirality labels *)

Lemma string_app_assoc (s1 s2 s3 : string) : (s1 +:+ s2) +:+ s3 = s1 +:+ (s2 +:+ s3).
Proof.
  induction s1 as [|c s1 IH]; [done|].
  change (String c ((s1 +:+ s2) +:+ s3) = String c (s1 +:+ (s2 +:+ s3))).
  by rewrite IH.
Qed.

Lemma string_app_empty (s : string) : s +:+ "" = s.
Proof.
  induction s as [|c s IH]; [done|]. change (String c (s +:+ "") = String c s).
  by rewrite IH.
Qed.

Lemma chirality_string_foldr (chirality_dic : list (Z * string)) (start : string) :
  foldl (λ string '(key, value), string +:+ (pretty key +:+ lower value))
        start chirality_dic
  = start +:+ foldr (λ kv rest, pretty kv.1 +:+ lower kv.2 +:+ rest) "" chirality_dic.
Proof.
  revert start. induction chirality_dic as [|[key value] dic IH]; intros start; simpl.
  - by rewrite string_app_empty.
  - by rewrite IH, !string_app_assoc.
Qed.

Section chirality_labels.
Context {coord : Type} {ch : Chirality coord}.

(** X21. On a structure whose title and entry name are strings,
    [add_chirality] appends the same suffix to both: an underscore, then for
    each chiral atom its index in decimal and its label in lower case; without
    a chiral atom the suffix is the bare underscore.  The structure is changed
    in place: its atoms, its bonds, its other annotations and the other
    structures of the store stay as they are. *)
Theorem add_chirality_suffix (structure : nat) (h : list (@Structure coord)) st
    (title entry_name : string) :
  h !! structure = Some st →
  dict_get "s_m_title" (property st) = Some (VStr title) →
  dict_get "s_m_entry_name" (property st) = Some (VStr entry_name) →
  ∃ st' labels,
    labels = foldr (λ kv rest, pretty kv.1 +:+ lower kv.2 +:+ rest) ""
               (get_chiral_atoms st)
    ∧ add_chirality structure h = ret (structure, <[structure := st']> h)
    ∧ atom st' = atom st
    ∧ bond st' = bond st
    ∧ dict_get "s_m_title" (property st') = Some (VStr (title +:+ "_" +:+ labels))
    ∧ dict_get "s_m_entry_name" (property st')
      = Some (VStr (entry_name +:+ "_" +:+ labels))
    ∧ (∀ k, k ≠ "s_m_title" → k ≠ "s_m_entry_name" →
         dict_get k (property st') = dict_get k (property st)).
Proof.
  intros Hst Htitle Hname. unfold add_chirality, deref, getitem.
  rewrite Hst, bind_ret_l, Htitle, bind_ret_l. simpl. rewrite bind_ret_l. simpl.
  rewrite dict_get_update, decide_False by done. rewrite Hname, bind_ret_l. simpl.
  rewrite bind_ret_l, chirality_string_foldr.
  eexists _, _. split; [reflexivity|]. split; [reflexivity|]. simpl.
  split_and!; [done|done| | |].
  - rewrite dict_get_update, decide_False by done.
    by rewrite dict_get_update, decide_True.
  - by rewrite dict_get_update, decide_True.
  - intros k Hk1 Hk2. by rewrite !dict_get_update, !decide_False.
Qed.
End chirality_labels.

(** ** The names of the structures that [merge] yields *)

Section merged_names.
Context {coord : Type}.
Implicit Types st merge : @Structure coord.

Lemma append_suffix_strings (k : string) (d d' : dict) (v : R Value) (old suffix : string) :
  dict_get k d = Some (VStr old) →
  returns v (VStr suffix) →
  returns (append_suffix k v d) d' →
  d' = dict_update k (VStr (old +:+ "_" +:+ suffix)) d.
Proof.
  intros Hold Hv. unfold append_suffix.
  intros (o & Ho%getitem_returns & Hrun)%returns_bind.
  apply returns_bind in Hrun as (w & Hw & Hrun).
  assert (o = VStr old) as -> by congruence.
  assert (w = VStr suffix) as -> by (unfold returns in *; congruence).
  simpl in Hrun. rewrite !bind_ret_l in Hrun. by apply returns_ret in Hrun as <-.
Qed.

(** The title and the entry name of the merged structure. *)
Lemma merged_names (A B merged : @Structure coord) (match_1 match_2 : list Z)
    (title_A title_B name_A name_B : string) :
  dict_get "s_m_title" (property A) = Some (VStr title_A) →
  dict_get "s_m_title" (property B) = Some (VStr title_B) →
  dict_get "s_m_entry_name" (property A) = Some (VStr name_A) →
  dict_get "s_m_entry_name" (property B) = Some (VStr name_B) →
  returns (merge_structures_from_matching_atoms A match_1 B match_2) merged →
  dict_get "s_m_title" (property merged) = Some (VStr (title_A +:+ "_" +:+ title_B))
  ∧ dict_get "s_m_entry_name" (property merged)
    = Some (VStr (name_A +:+ "_" +:+ name_B)).
Proof.
  intros HtA HtB HnA HnB. unfold merge_structures_from_matching_atoms.
  intros (cs2 & _ & Hrun)%returns_bind.
  apply returns_bind in Hrun as (cs1 & _ & Hrun).
  apply returns_bind in Hrun as (merge1 & Hprop1%reconcile_bonds_property & Hrun).
  apply returns_bind in Hrun as (merge2 & Hprop2%add_rca4_property & Hrun).
  apply returns_bind in Hrun as (d1 & Hd1 & Hrun).
  apply returns_bind in Hrun as (d2 & Hd2 & <-%returns_ret).
  simpl in Hprop2. rewrite Hprop2, Hprop1 in Hd1. simpl in Hd2 |- *.
  apply (append_suffix_strings _ _ _ _ title_A title_B) in Hd1;
    [|by apply structure_merge_property_get|by apply getitem_returns].
  subst d1.
  apply (append_suffix_strings _ _ _ _ name_A name_B) in Hd2;
    [| |by apply getitem_returns].
  - subst d2. split.
    + rewrite dict_get_update, decide_False by done.
      by rewrite dict_get_update, decide_True.
    + by rewrite dict_get_update, decide_True.
  - rewrite dict_get_update, decide_False by done.
    by apply structure_merge_property_get.
Qed.
End merged_names.

Section merge_titles.
Context {coord : Type} {tk : Toolkit coord}.
Implicit Types h : list (@Structure coord).

(** X25. All the structures that one call of [merge] yields carry the same
    title and the same entry name, whatever the matches they come from: those
    of the first structure, an underscore and those of the second (for titles
    and entry names that are strings). *)
Theorem merge_yields_one_title (struct_1 struct_2 : nat) h st_1 st_2
    (title_1 title_2 name_1 name_2 : string) (out : list nat) h' :
  h !! struct_1 = Some st_1 → h !! struct_2 = Some st_2 →
  dict_get "s_m_title" (property st_1) = Some (VStr title_1) →
  dict_get "s_m_title" (property st_2) = Some (VStr title_2) →
  dict_get "s_m_entry_name" (property st_1) = Some (VStr name_1) →
  dict_get "s_m_entry_name" (property st_2) = Some (VStr name_2) →
  returns (merge struct_1 struct_2 h) (out, h') →
  Forall (λ r, ∃ merged,
            h' !! r = Some merged
            ∧ dict_get "s_m_title" (property merged)
              = Some (VStr (title_1 +:+ "_" +:+ title_2))
            ∧ dict_get "s_m_entry_name" (property merged)
              = Some (VStr (name_1 +:+ "_" +:+ name_2)))
    out.
Proof.
  intros Hr1 Hr2 Ht1 Ht2 Hn1 Hn2. unfold merge.
  intros (? & _ & (? & _ & Hrun)%returns_bind)%returns_bind.
  apply returns_bind in Hrun as ([match_1s match_2s] & _ & Hrun).
  rewrite (for_each_list_prod _ _ (merge_pair struct_1 struct_2)) in Hrun.
  set (named := λ merged : @Structure coord,
         dict_get "s_m_title" (property merged)
         = Some (VStr (title_1 +:+ "_" +:+ title_2))
         ∧ dict_get "s_m_entry_name" (property merged)
           = Some (VStr (name_1 +:+ "_" +:+ name_2))).
  enough ((∀ r st, h !! r = Some st →
             ∃ st', h' !! r = Some st' ∧ property st' = property st)
          ∧ Forall (λ r, (length h ≤ r)%nat
                         ∧ ∃ merged, h' !! r = Some merged ∧ named merged) out)
    as [_ Hout].
  { eapply Forall_impl; [exact Hout|]. intros r (_ & merged & ? & ? & ?). by exists merged. }
  revert Hrun.
  apply (for_each_returns_ind
           (λ s : list nat * list (@Structure coord),
              (∀ r st, h !! r = Some st →
                 ∃ st', s.2 !! r = Some st' ∧ property st' = property st)
              ∧ Forall (λ r, (length h ≤ r)%nat
                             ∧ ∃ merged, s.2 !! r = Some merged ∧ named merged) s.1)).
  { split; [|constructor]. intros r st Hst. by exists st. }
  intros [m1 m2] [o1 h1] [o2 h2] _ [Hkept Hout] Hpair. simpl in *.
  apply merge_pair_returns in Hpair
    as (s1 & s2 & s1' & s2' & merged & Hs1 & Hs2 & Hs1' & Hs2' & Hmerged & -> & ->).
  set (moved := setXYZ s2 (superimpose s1 m1 s2 m2)) in *.
  assert (∀ r st, h !! r = Some st →
            ∃ st', <[struct_2 := moved]> h1 !! r = Some st'
                   ∧ property st' = property st) as Hkept'.
  { intros r st Hst. destruct (Hkept r st Hst) as (st' & Hst' & Hprop).
    destruct (decide (r = struct_2)) as [->|Hne].
    - exists moved. split.
      + apply list_lookup_insert_eq. by eapply lookup_lt_Some.
      + assert (st' = s2) as -> by congruence. done.
    - exists st'. by rewrite list_lookup_insert_ne. }
  assert (length h ≤ length h1)%nat as Hlen.
  { apply lookup_lt_Some in Hr1.
    destruct (decide (length h ≤ length h1)%nat) as [|Hlt]; [done|].
    destruct (lookup_lt_is_Some_2 h (length h1)) as [st Hst]; [lia|].
    destruct (Hkept _ _ Hst) as (st' & Hst'%lookup_lt_Some & _). lia. }
  split.
  - intros r st Hst. destruct (Hkept' r st Hst) as (st' & Hst' & Hprop).
    exists st'. split; [by apply lookup_app_l_Some|done].
  - apply Forall_app. split.
    + eapply Forall_impl; [exact Hout|]. intros r (Hr & old & Hold & Hnamed).
      split; [done|]. exists old. split; [|done]. apply lookup_app_l_Some.
      rewrite list_lookup_insert_ne; [done|].
      apply lookup_lt_Some in Hr2. lia.
    + constructor; [|constructor]. split; [done|]. exists merged. split.
      * rewrite lookup_app_r by (rewrite length_insert; lia).
        by rewrite length_insert, Nat.sub_diag.
      * destruct (Hkept' _ _ Hr1) as (t1 & Ht1' & Hp1).
        destruct (Hkept' _ _ Hr2) as (t2 & Ht2' & Hp2).
        assert (t1 = s1') as -> by congruence.
        assert (t2 = s2') as -> by congruence.
        apply (merged_names s1' s2' merged m1 m2); [congruence..|done].
Qed.
End merge_titles.

(** ** The objects that reading a group makes *)

Section reading_structures.
Context {coord : Type} {tk : Toolkit coord}.
Implicit Types h : list (@Structure coord).
Variable StructureReader : string → list (@Structure coord) * option exn.

Lemma load_enantiomers_returns (structure : nat) h st (out : list nat) h' :
  h !! structure = Some st →
  returns (load_enantiomers structure h) (out, h') →
  (out = [structure] ∧ h' = h)
  ∨ (out = [structure; length h] ∧ h' = h ++ [invert_x st]).
Proof.
  intros Hst. unfold load_enantiomers, deref. rewrite Hst, bind_ret_l.
  case_match; [|intros [= <- <-]%returns_ret; by left].
  intros (title & _ & (? & _ & Hrun)%returns_bind)%returns_bind.
  rewrite lookup_app_r, Nat.sub_diag in Hrun by done. simpl in Hrun.
  rewrite bind_ret_l in Hrun. apply returns_ret in Hrun as [= <- <-].
  right. split; [done|]. by rewrite insert_app_r_alt, Nat.sub_diag.
Qed.

Lemma read_file_new_objects (sch_reader : list (@Structure coord))
    (structures : list nat) h (structures' : list nat) h' :
  returns (for_each sch_reader
             (λ structure '(structures, h),
                let new := length h in
                r <- load_enantiomers new (h ++ [structure]) ;;
                ret (structures ++ r.1, r.2))
             (structures, h)) (structures', h') →
  ∃ new,
    h' = h ++ new
    ∧ structures' = structures ++ seq (length h) (length new)
    ∧ (length sch_reader ≤ length new ≤ 2 * length sch_reader)%nat
    ∧ sch_reader `sublist_of` new.
Proof.
  revert structures h.
  induction sch_reader as [|structure sch_reader IH]; intros structures h; simpl.
  - intros [= <- <-]%returns_ret. exists []. rewrite !app_nil_r. simpl.
    split_and!; [done..|lia|lia|done].
  - intros ([l3 h3] & Hone & Hrest)%returns_bind.
    apply returns_bind in Hone as ([o h4] & Hload & [= <- <-]%returns_ret).
    apply (load_enantiomers_returns _ _ structure) in Hload;
      [|by rewrite lookup_app_r, Nat.sub_diag].
    simpl in Hrest.
    destruct Hload as [[-> ->]|[-> ->]];
      destruct (IH _ _ Hrest) as (new & Hh' & Hs' & Hlen & Hsub).
    + exists (structure :: new). rewrite Hh', Hs', <-!app_assoc, length_app. simpl.
      split_and!; [done| |lia|lia|by constructor].
      do 3 f_equal; lia.
    + exists (structure :: invert_x structure :: new).
      rewrite Hh', Hs', <-!app_assoc, !length_app. simpl.
      split_and!; [done| |lia|lia|by do 2 constructor].
      do 4 f_equal; lia.
Qed.

(** X26. The loop of [merge_many_filenames] that reads a group appends
    references to new objects only, in the order in which they are made: the
    store grows at its end by the structures read, each followed by its
    enantiomer when [load_enantiomers] yields one, so by one or two objects
    for each structure read. *)
Theorem read_structures_new_objects (filenames : list string) (structures : list nat)
    h (structures' : list nat) h' :
  returns (read_structures StructureReader filenames (structures, h)) (structures', h') →
  let read := mjoin ((λ filename, (StructureReader filename).1) <$> filenames) in
  ∃ new,
    h' = h ++ new
    ∧ structures' = structures ++ seq (length h) (length new)
    ∧ (length read ≤ length new ≤ 2 * length read)%nat
    ∧ read `sublist_of` new.
Proof.
  intros Hrun read. subst read. revert structures h Hrun.
  induction filenames as [|filename filenames IH]; intros structures h.
  - intros [= <- <-]%returns_ret. exists []. rewrite !app_nil_r. simpl.
    split_and!; [done..|lia|lia|done].
  - rewrite fmap_cons.
    change (mjoin ((StructureReader filename).1
                   :: ((λ filename, (StructureReader filename).1) <$> filenames)))
      with ((StructureReader filename).1
            ++ mjoin ((λ filename, (StructureReader filename).1) <$> filenames)).
    set (rest := mjoin ((λ filename, (StructureReader filename).1) <$> filenames)) in *.
    cbn [read_structures for_each].
    intros ([l1 h1] & Hfile & Hrest)%returns_bind.
    destruct (StructureReader filename) as [sch_reader failure]. cbn [fst].
    apply returns_bind in Hfile as ([l2 h2] & Hread & Hend).
    destruct failure; [by apply returns_raise in Hend|].
    apply returns_ret in Hend as [= <- <-].
    apply read_file_new_objects in Hread as (new1 & -> & -> & Hlen1 & Hsub1).
    destruct (IH _ _ Hrest) as (new2 & Hh' & Hs' & Hlen2 & Hsub2).
    exists (new1 ++ new2). rewrite Hh', Hs', <-!app_assoc.
    split_and!; [done| | | |by apply sublist_app].
    + rewrite !length_app, seq_app. do 3 f_equal; lia.
    + rewrite !length_app. lia.
    + rewrite !length_app. lia.
Qed.
End reading_structures.

(** ** Properties of the store that the pipeline keeps *)

Section store_properties.
Context {coord : Type} {tk : Toolkit coord}.
#[local] Abbreviation ref := nat.
#[local] Abbreviation store := (list (@Structure coord)).
Implicit Types h : store.
Implicit Types Q : store → Prop.

Lemma iter_preserves Q (l0 : list ref) : preserves Q (iter l0).
Proof.
  intros yield Hyield l h l' h' Hh. unfold iter.
  apply (for_each_returns_ind (λ s : list nat * store, Q s.2)); [done|].
  intros x [l1 h1] [l2 h2] _. apply Hyield.
Qed.

(** A property of the store that a merge of the structures [struct_1] and
    [struct_2] keeps: when the second structure is moved, and when the merged
    structure is added. *)
Lemma merge_generator_preserves Q (struct_1 struct_2 : ref) :
  (∀ h st_2 xyzs, Q h → h !! struct_2 = Some st_2 →
     Q (<[struct_2 := setXYZ st_2 xyzs]> h)) →
  (∀ h st_1 st_2 match_1 match_2 merged,
     Q h → h !! struct_1 = Some st_1 → h !! struct_2 = Some st_2 →
     returns (merge_structures_from_matching_atoms st_1 match_1 st_2 match_2) merged →
     Q (h ++ [merged])) →
  preserves Q (merge_generator struct_1 struct_2).
Proof.
  intros Hmove Hnew yield Hyield l h l' h' Hh. unfold merge_generator.
  intros (? & _ & (? & _ & Hrun)%returns_bind)%returns_bind.
  apply returns_bind in Hrun as ([match_1s match_2s] & _ & Hrun). revert Hrun.
  apply (for_each_returns_ind (λ s : list nat * store, Q s.2)); [done|].
  intros match_1 s1 s2 _ Hs1.
  apply (for_each_returns_ind (λ s : list nat * store, Q s.2)); [done|].
  intros match_2 [l3 h3] [l4 h4] _ Hh3 Hrun. simpl in Hh3.
  apply returns_bind in Hrun as (st_1 & Hst_1%deref_returns & Hrun).
  apply returns_bind in Hrun as (? & _ & Hrun).
  apply returns_bind in Hrun as (st_2 & Hst_2%deref_returns & Hrun).
  apply returns_bind in Hrun as (? & _ & Hrun).
  apply returns_bind in Hrun as (h5 & Hmoved & Hrun).
  unfold do_superimpose in Hmoved.
  apply returns_bind in Hmoved as (t_1 & Ht_1%deref_returns & Hmoved).
  apply returns_bind in Hmoved as (t_2 & Ht_2%deref_returns & <-%returns_ret).
  apply returns_bind in Hrun as (u_1 & Hu_1%deref_returns & Hrun).
  apply returns_bind in Hrun as (u_2 & Hu_2%deref_returns & Hrun).
  apply returns_bind in Hrun as (merged & Hmerged & Hrun).
  eapply Hyield; [|exact Hrun].
  eapply Hnew; [|exact Hu_1|exact Hu_2|exact Hmerged]. by apply Hmove.
Qed.

Lemma merge_many_structures_generator_preserves Q (structures_1 : iterable (list nat))
    (structures_2 : list ref) :
  preserves Q structures_1 →
  (∀ structure_1 structure_2, structure_2 ∈ structures_2 →
     preserves Q (merge_generator structure_1 structure_2)) →
  preserves Q (merge_many_structures_generator structures_1 structures_2).
Proof.
  intros H1 H2 yield Hyield l h l' h' Hh. unfold merge_many_structures_generator.
  apply (H1 _); [|done].
  intros structure_1 l1 h1 l2 h2 Hh1.
  apply (for_each_returns_ind (λ s : list nat * store, Q s.2)); [done|].
  intros structure_2 [l3 h3] [l4 h4] Hin Hh3.
  by apply (H2 structure_1 structure_2 Hin yield).
Qed.

Lemma to_list_preserves Q (structures : iterable (list nat)) h (out : list ref) h' :
  preserves Q structures → Q h → returns (to_list structures h) (out, h') → Q h'.
Proof.
  intros Hpres Hh. unfold to_list. apply (Hpres _); [|done].
  intros x l h1 l' h1' Hh1. simpl. by intros [= _ <-]%returns_ret.
Qed.
End store_properties.

Section pipeline_invariants.
Context {coord : Type} {tk : Toolkit coord}.
#[local] Abbreviation ref := nat.
#[local] Abbreviation store := (list (@Structure coord)).
Implicit Types h : store.
Variable StructureReader : string → list (@Structure coord) * option exn.

Lemma setXYZ_well_formed (st : @Structure coord) xyzs :
  well_formed st → well_formed (setXYZ st xyzs).
Proof.
  apply well_formed_skeleton; [|done]. simpl. by rewrite length_imap.
Qed.

Lemma invert_x_well_formed (st : @Structure coord) :
  well_formed st → well_formed (invert_x st).
Proof.
  apply well_formed_skeleton; [|done]. simpl. by rewrite length_fmap.
Qed.

Lemma merge_step_well_formed h (st_1 st_2 : @Structure coord) (struct_1 struct_2 : ref)
    (match_1 match_2 : list Z) merged :
  Forall well_formed h →
  h !! struct_1 = Some st_1 → h !! struct_2 = Some st_2 →
  returns (merge_structures_from_matching_atoms st_1 match_1 st_2 match_2) merged →
  Forall well_formed (h ++ [merged]).
Proof.
  intros Hh H1 H2 Hrun. apply Forall_app. split; [done|]. constructor; [|constructor].
  rewrite Forall_forall in Hh.
  pose proof (Hh _ (list_elem_of_lookup_2 _ _ _ H1)) as Hwf1.
  pose proof (Hh _ (list_elem_of_lookup_2 _ _ _ H2)) as Hwf2.
  destruct (merged_bonds_deleted _ _ _ _ _ Hrun)
    as (merge1 & Hloop & Hcs2 & Hcs1 & Hatoms & Hbonds).
  eapply well_formed_skeleton; [by rewrite Hatoms|exact Hbonds|].
  apply deleteAtoms_well_formed.
  { eapply Forall_impl; [exact Hcs2|]. intros x. simpl. lia. }
  eapply reconcile_bonds_well_formed; [| |exact Hloop].
  - eapply Forall_impl; [exact Hcs1|]. intros x. unfold len_atom. simpl.
    rewrite length_app. lia.
  - unfold well_formed, len_atom in *. simpl. rewrite length_app.
    apply Forall_app. split.
    + eapply Forall_impl; [exact Hwf1|]. intros bd. simpl. lia.
    + apply Forall_fmap. eapply Forall_impl; [exact Hwf2|]. intros bd. simpl.
      unfold len_atom. lia.
Qed.

Lemma merge_generator_well_formed (struct_1 struct_2 : ref) :
  preserves (Forall well_formed) (merge_generator struct_1 struct_2).
Proof.
  apply merge_generator_preserves.
  - intros h st_2 xyzs Hh Hst. apply Forall_insert; [done|].
    apply setXYZ_well_formed. rewrite Forall_forall in Hh. apply Hh.
    by eapply list_elem_of_lookup_2.
  - intros h st_1 st_2 match_1 match_2 merged Hh H1 H2.
    by apply (merge_step_well_formed h st_1 st_2 struct_1 struct_2).
Qed.

Lemma read_structures_well_formed (filenames : list string) (s s' : list ref * store) :
  Forall (λ filename, Forall well_formed (StructureReader filename).1) filenames →
  Forall well_formed s.2 →
  returns (read_structures StructureReader filenames s) s' →
  Forall well_formed s'.2.
Proof.
  intros Hfiles Hs. unfold read_structures.
  apply (for_each_returns_ind (λ s : list nat * store, Forall well_formed s.2)); [done|].
  intros filename s1 s2 Hin Hs1. rewrite Forall_forall in Hfiles.
  specialize (Hfiles filename Hin).
  destruct (StructureReader filename) as [sch_reader failure]. simpl in Hfiles.
  intros (s3 & Hread & Hend)%returns_bind.
  destruct failure; [by apply returns_raise in Hend|].
  apply returns_ret in Hend as <-. revert Hread.
  apply (for_each_returns_ind (λ s : list nat * store, Forall well_formed s.2)); [done|].
  intros structure [l4 h4] s5 Hstructure Hh4.
  intros ([o h6] & Hload & <-%returns_ret)%returns_bind. simpl in *.
  rewrite Forall_forall in Hfiles. specialize (Hfiles structure Hstructure).
  apply (load_enantiomers_returns _ _ structure) in Hload;
    [|by rewrite lookup_app_r, Nat.sub_diag].
  destruct Hload as [[_ ->]|[_ ->]]; repeat (apply Forall_app; split);
    try done; repeat constructor; try done.
  by apply invert_x_well_formed.
Qed.

(** X28. Well-formedness goes through the whole pipeline: when the
    structures of the files and of the store are well formed, every structure
    of the store at the end of [merge_many_filenames] is well formed, the
    structures of every stage and the structures returned among them. *)
Theorem pipeline_keeps_well_formed (list_of_lists : list (list string)) h
    (out : list ref) h' :
  Forall (Forall (λ filename, Forall well_formed (StructureReader filename).1))
         list_of_lists →
  Forall well_formed h →
  returns (merge_many_filenames StructureReader list_of_lists h) (out, h') →
  Forall well_formed h'.
Proof.
  intros Hfiles Hh. destruct list_of_lists as [|first rest]; simpl.
  { by intros ?%returns_raise. }
  apply Forall_cons in Hfiles as [Hfirst Hrest].
  intros ([l1 h1] & Hread & Hrun)%returns_bind.
  apply (read_structures_well_formed first ([], h) (l1, h1) Hfirst Hh) in Hread.
  simpl in Hread.
  apply returns_bind in Hrun as ([g hg] & Hchain & Hrun).
  enough (preserves (Forall well_formed) g ∧ Forall well_formed hg) as [Hg Hhg]
    by (by eapply to_list_preserves).
  revert Hchain.
  apply (for_each_returns_ind (A := list string) (S := iterable (list nat) * store)
           (λ s, preserves (Forall well_formed) s.1 ∧ Forall well_formed s.2)).
  { split; [apply iter_preserves|done]. }
  intros filenames [g1 h2] s2 Hin [Hg1 Hh2].
  intros ([new h3] & Hgroup & <-%returns_ret)%returns_bind. simpl in *. split.
  - apply merge_many_structures_generator_preserves; [done|].
    intros structure_1 structure_2 _. apply merge_generator_well_formed.
  - rewrite Forall_forall in Hrest.
    by apply (read_structures_well_formed filenames ([], h2) (new, h3) (Hrest _ Hin) Hh2)
      in Hgroup.
Qed.

Lemma read_structures_appends (filenames : list string) (l : list ref) h
    (l' : list ref) h' :
  returns (read_structures StructureReader filenames (l, h)) (l', h') →
  ∃ new, h' = h ++ new ∧ l' = l ++ seq (length h) (length new).
Proof.
  revert l h. induction filenames as [|filename filenames IH]; intros l h.
  - intros [= <- <-]%returns_ret. exists []. by rewrite !app_nil_r.
  - cbn [read_structures for_each].
    intros ([l1 h1] & Hfile & Hrest)%returns_bind.
    destruct (StructureReader filename) as [sch_reader failure].
    apply returns_bind in Hfile as ([l2 h2] & Hread & Hend).
    destruct failure; [by apply returns_raise in Hend|].
    apply returns_ret in Hend as [= <- <-].
    apply read_file_new_objects in Hread as (new1 & -> & -> & _).
    destruct (IH _ _ Hrest) as (new2 & -> & ->).
    exists (new1 ++ new2). rewrite <-!app_assoc, !length_app, seq_app.
    split; [done|]. do 3 f_equal; lia.
Qed.

(** X27. [merge_many_filenames] never changes the structures of the first
    group: every object that the store holds when the first group has been
    read, a structure of the store before the call, a structure of the first
    group or one of its enantiomers, is in the store at the end as it was.
    Only structures of the later groups are moved. *)
Theorem first_group_is_never_changed (first : list string) (rest : list (list string))
    h (l1 : list ref) h1 (out : list ref) h' :
  returns (read_structures StructureReader first ([], h)) (l1, h1) →
  returns (merge_many_filenames StructureReader (first :: rest) h) (out, h') →
  ∀ r st, h1 !! r = Some st → h' !! r = Some st.
Proof.
  intros Hfirst. simpl.
  intros (r1 & Hread & Hrun)%returns_bind.
  assert (r1 = (l1, h1)) as -> by (unfold returns in *; congruence). simpl in Hrun.
  apply returns_bind in Hrun as ([g hg] & Hchain & Hrun).
  set (Q := λ h0 : store, ∀ r st, h1 !! r = Some st → h0 !! r = Some st).
  enough (preserves Q g ∧ Q hg) as [Hg Hhg] by (by eapply (to_list_preserves Q)).
  revert Hchain.
  apply (for_each_returns_ind (A := list string) (S := iterable (list nat) * store)
           (λ s, preserves Q s.1 ∧ Q s.2)).
  { split; [apply iter_preserves|]. by intros r st. }
  intros filenames [g1 h2] s2 Hin [Hg1 Hh2].
  intros ([new h3] & Hgroup & <-%returns_ret)%returns_bind. simpl in *.
  apply read_structures_appends in Hgroup as (added & -> & ->). simpl.
  assert (length h1 ≤ length h2)%nat as Hlen.
  { destruct (decide (length h1 ≤ length h2)%nat) as [|Hlt]; [done|].
    destruct (lookup_lt_is_Some_2 h1 (length h2)) as [st Hst]; [lia|].
    apply Hh2, lookup_lt_Some in Hst. lia. }
  split.
  - apply merge_many_structures_generator_preserves; [done|].
    intros structure_1 structure_2 [Hge _]%elem_of_seq.
    apply merge_generator_preserves.
    + intros h0 st_2 xyzs Hh0 _ r st Hst.
      rewrite list_lookup_insert_ne; [by apply Hh0|].
      apply lookup_lt_Some in Hst. lia.
    + intros h0 st_1 st_2 match_1 match_2 merged Hh0 _ _ _ r st Hst.
      by apply lookup_app_l_Some, Hh0.
  - intros r st Hst. by apply lookup_app_l_Some, Hh2.
Qed.
End pipeline_invariants.

(** ** The later properties on the sample data *)

Lemma match_out_of_range_on_sample :
  merge_structures_from_matching_atoms fragment_A [2] fragment_B [5] = raise IndexError.
Proof.
  apply (match_out_of_range fragment_A fragment_B [2] [5]).
  left. apply Exists_cons_hd. unfold len_atom. simpl. lia.
Defined.

Lemma enantiomer_without_title_on_sample :
  load_enantiomers (tk := sample_toolkit) 0%nat [fragment_flagged_untitled]
  = raise (KeyError "s_m_title").
Proof.
  apply (enantiomer_without_title (tk := sample_toolkit) 0%nat
           [fragment_flagged_untitled] fragment_flagged_untitled (VBool true));
    reflexivity.
Defined.

Lemma add_rca4_without_annotations_on_sample :
  add_rca4 fragment_B fragment_B [1] fragment_A [2] = ret fragment_B.
Proof.
  apply (add_rca4_without_annotations fragment_B fragment_B [1] fragment_A [2]).
  repeat constructor; by exists (VInt 0).
Defined.

Lemma add_rca4_writes_translations_on_sample :
  ∃ merge' b',
    returns (add_rca4 (structure_merge fragment_A fragment_B) fragment_A []
               fragment_B []) merge'
    ∧ bond merge' !! 2%nat = Some b'
    ∧ dict_get "i_cs_rca4_1" (bproperty b') = Some (VInt 6)
    ∧ dict_get "i_cs_rca4_2" (bproperty b') = Some (VInt 7)
    ∧ Forall2 (rca4_updated (structure_merge fragment_A fragment_B) (bond fragment_B)
                 (len_atom fragment_A) [] [])
        (bond (structure_merge fragment_A fragment_B)) (bond merge').
Proof.
  eexists _, _. split; [vm_compute; reflexivity|].
  split; [reflexivity|]. split; [reflexivity|]. split; [reflexivity|].
  refine (proj1 (proj2 (proj2 (add_rca4_writes_translations
                                 (structure_merge fragment_A fragment_B) fragment_A []
                                 fragment_B [] _ _)))).
  vm_compute. reflexivity.
Defined.

Lemma add_chirality_suffix_on_sample :
  ∃ st',
    add_chirality (ch := sample_chirality) 1%nat sample_store
    = ret (1%nat, [fragment_A; st'])
    ∧ dict_get "s_m_title" (property st') = Some (VStr "B_2r")
    ∧ dict_get "s_m_entry_name" (property st') = Some (VStr "b_2r").
Proof.
  destruct (add_chirality_suffix (ch := sample_chirality) 1%nat sample_store fragment_B
              "B" "b" eq_refl eq_refl eq_refl)
    as (st' & labels & -> & Hrun & _ & _ & Htitle & Hname & _).
  exists st'. split_and!; [exact Hrun|exact Htitle|exact Hname].
Defined.

Lemma empty_group_gives_nothing_on_sample :
  ∃ out h',
    returns (merge_many_filenames (tk := sample_toolkit) sample_reader
               [["a.mae"]; ["empty.mae"]; ["b.mae"]] [])
      (out, h')
    ∧ out = [].
Proof.
  eexists _, _. split; [vm_compute; reflexivity|].
  eapply (empty_group_gives_nothing (tk := sample_toolkit) sample_reader
            [["a.mae"]] [["b.mae"]] ["empty.mae"] []).
  - repeat constructor.
  - vm_compute. reflexivity.
Defined.

Lemma reading_comes_first_on_sample :
  raises_while_reading
    (merge_many_filenames (tk := sample_toolkit) sample_reader
       [["a.mae"]; ["b.mae"]; ["missing.mae"]] []).
Proof.
  apply (reading_comes_first (tk := sample_toolkit) sample_reader
           [["a.mae"]; ["b.mae"]; ["missing.mae"]] [] ["missing.mae"] "missing.mae"
           [fragment_A] ValueError).
  - apply list_elem_of_further, list_elem_of_further, list_elem_of_here.
  - apply list_elem_of_here.
  - reflexivity.
Defined.

Lemma merge_yields_one_title_on_sample :
  ∃ out h',
    returns (merge (tk := sample_toolkit) 0%nat 1%nat sample_store) (out, h')
    ∧ Forall (λ r, ∃ merged,
                h' !! r = Some merged
                ∧ dict_get "s_m_title" (property merged) = Some (VStr "A_B")
                ∧ dict_get "s_m_entry_name" (property merged) = Some (VStr "a_b"))
        out.
Proof.
  eexists _, _. split; [vm_compute; reflexivity|].
  apply (merge_yields_one_title (tk := sample_toolkit) 0%nat 1%nat sample_store
           fragment_A fragment_B "A" "B" "a" "b" _ _
           eq_refl eq_refl eq_refl eq_refl eq_refl eq_refl).
  vm_compute. reflexivity.
Defined.

Lemma read_structures_new_objects_on_sample :
  ∃ structures' h',
    returns (read_structures (tk := sample_toolkit) sample_reader ["a.mae"; "b.mae"]
               ([], [])) (structures', h')
    ∧ ∃ new,
        h' = [] ++ new
        ∧ structures' = [] ++ seq 0 (length new)
        ∧ (2 ≤ length new ≤ 2 * 2)%nat
        ∧ [fragment_A; fragment_B] `sublist_of` new.
Proof.
  eexists _, _. split; [vm_compute; reflexivity|].
  apply (read_structures_new_objects (tk := sample_toolkit) sample_reader
           ["a.mae"; "b.mae"] [] []).
  vm_compute. reflexivity.
Defined.

Lemma first_group_is_never_changed_on_sample :
  ∃ out h',
    returns (merge_many_filenames (tk := sample_toolkit) sample_reader
               [["a.mae"]; ["b.mae"]] []) (out, h')
    ∧ h' !! 0%nat = Some fragment_A
    ∧ h' !! 1%nat = Some (invert_x (tk := sample_toolkit) fragment_A).
Proof.
  eexists _, _. split; [vm_compute; reflexivity|].
  split.
  - eapply (first_group_is_never_changed (tk := sample_toolkit) sample_reader
              ["a.mae"] [["b.mae"]] [] [0; 1]%nat
              [fragment_A; invert_x (tk := sample_toolkit) fragment_A]).
    + vm_compute. reflexivity.
    + vm_compute. reflexivity.
    + reflexivity.
  - eapply (first_group_is_never_changed (tk := sample_toolkit) sample_reader
              ["a.mae"] [["b.mae"]] [] [0; 1]%nat
              [fragment_A; invert_x (tk := sample_toolkit) fragment_A]).
    + vm_compute. reflexivity.
    + vm_compute. reflexivity.
    + reflexivity.
Defined.

Lemma pipeline_keeps_well_formed_on_sample :
  ∃ out h',
    returns (merge_many_filenames (tk := sample_toolkit) sample_reader
               [["a.mae"]; ["b.mae"]] []) (out, h')
    ∧ Forall well_formed h'.
Proof.
  eexists _, _. split; [vm_compute; reflexivity|].
  eapply (pipeline_keeps_well_formed (tk := sample_toolkit) sample_reader
            [["a.mae"]; ["b.mae"]] []).
  - repeat (apply Forall_cons; split); try apply Forall_nil;
      unfold well_formed; compute_done.
  - constructor.
  - vm_compute. reflexivity.
Defined.
